(** * Graph2: DOT parser, layout strategies and edge geometry

    A shallow embedding of the JavaScript sources

      - [dotParser.js]        (parseDotToReactFlow, parseAttributes)
      - [layoutAlgorithms.js] (circular / hierarchical / force / grid / radial)
      - [floatingEdgeUtils]   (getParams, getNodeCenter, getEdgeParams,
                               getBezierPath)
      - [SimpleFloatingEdge.jsx], [OrthogonalEdge.jsx] (the points they join)

    JavaScript numbers that carry geometry (positions, sizes, spacings,
    angles) are idealised as real numbers: no rounding, no NaN.  Levels,
    counters and indices are integers.  Strings are sequences of 8-bit code
    units. *)

From Stdlib Require Import ZArith String Ascii List Lia Reals Lra DecimalString.
From stdpp Require Import base gmap sets list strings.

Local Open Scope Z_scope.
#[local] Set Warnings "-clear-no-such-hyp".

(** ** Outcomes of running a JavaScript function *)

(** A call either returns a value, throws (here always a [TypeError] from
    reading a property of [undefined]), or the model ran out of fuel. *)
Inductive outcome (A : Type) : Type :=
  | Returned (a : A)
  | Thrown
  | OutOfFuel.
Arguments Returned {A} a.
Arguments Thrown {A}.
Arguments OutOfFuel {A}.

(** [c >>= f] for outcomes *)
Definition obind {A B : Type} (c : outcome A) (f : A → outcome B) : outcome B :=
  match c with
  | Returned a => f a
  | Thrown => Thrown
  | OutOfFuel => OutOfFuel
  end.

(** ** Data model: React Flow nodes and edges *)

Record point := Point { px : R; py : R }.

(** The [style] object built by parseAttributes. *)
Record style_rec := Style {
  stroke : option string;
  background : option string
}.

(** The simulation fields forceDirectedLayout stores on its working copies. *)
Record sim_fields := Sim {
  sim_x : R; sim_y : R; sim_vx : R; sim_vy : R; sim_fixed : bool
}.

(** A node object.  A field that may be absent is an [option]; [extra]
    holds any further own properties (for instance [connectable]). *)
Record node := Node {
  id : string;
  position : option point;
  data_label : option string;
  style : option style_rec;
  width : option R;
  height : option R;
  sim : option sim_fields;
  extra : list (string * string)
}.

(** An edge object: [{ id, source, target, ...edgeAttrs, type }].  [eprops]
    holds the remaining own properties in insertion order. *)
Record edge := Edge {
  eid : string;
  esource : string;
  etarget : string;
  elabel : option string;
  estyle : option style_rec;
  etype : option string;
  eprops : list (string * string)
}.

Record graph := Graph { nodes : list node; edges : list edge }.

(** [{ ...node, position: p }] *)
Definition with_position (n : node) (p : point) : node :=
  Node (id n) (Some p) (data_label n) (style n) (width n) (height n) (sim n) (extra n).

(** [x || d] on an optional number: [undefined] and [0] are falsy. *)
Definition num_or (x : option R) (d : R) : R :=
  match x with
  | Some v => if Req_dec_T v 0 then d else v
  | None => d
  end.

(** ** JavaScript strings and regular expressions *)

Module Js.

(** A string is its sequence of code units. *)
Definition str := list ascii.

Definition code (a : ascii) : nat := nat_of_ascii a.

Definition in_range (lo hi : nat) (a : ascii) : bool :=
  Nat.leb lo (code a) && Nat.leb (code a) hi.

(** [\s]: tab, line feed, vertical tab, form feed, carriage return, space,
    no-break space. *)
Definition is_space (a : ascii) : bool :=
  in_range 9 13 a || Nat.eqb (code a) 32 || Nat.eqb (code a) 160.

(** [\w] *)
Definition is_word (a : ascii) : bool :=
  in_range 97 122 a || in_range 65 90 a || in_range 48 57 a || Nat.eqb (code a) 95.

Definition is_line_terminator (a : ascii) : bool :=
  Nat.eqb (code a) 10 || Nat.eqb (code a) 13.

(** [.] *)
Definition is_dot (a : ascii) : bool := negb (is_line_terminator a).

(** [[\s\S]] *)
Definition is_any (a : ascii) : bool := true.

Definition is_char (c a : ascii) : bool := Ascii.eqb a c.

(** [[^...]] over single characters *)
Definition is_none_of (cs : list ascii) (a : ascii) : bool :=
  negb (existsb (Ascii.eqb a) cs).

Definition upper (a : ascii) : ascii :=
  if in_range 97 122 a then ascii_of_nat (code a - 32) else a.

(** String.prototype.toLowerCase on one code unit (A-Z and the Latin-1
    capitals). *)
Definition lower (a : ascii) : ascii :=
  if in_range 65 90 a || (in_range 192 222 a && negb (Nat.eqb (code a) 215))
  then ascii_of_nat (code a + 32) else a.

(** A literal character under the [i] flag. *)
Definition is_char_ci (c a : ascii) : bool := Ascii.eqb (upper a) (upper c).

Definition toLowerCase (s : str) : str := map lower s.

Fixpoint drop_while (p : ascii → bool) (s : str) : str :=
  match s with
  | [] => []
  | a :: s' => if p a then drop_while p s' else s
  end.

Fixpoint take_while (p : ascii → bool) (s : str) : str :=
  match s with
  | [] => []
  | a :: s' => if p a then a :: take_while p s' else []
  end.

(** String.prototype.trim *)
Definition trim (s : str) : str :=
  rev (drop_while is_space (rev (drop_while is_space s))).

Fixpoint starts_with (needle s : str) : bool :=
  match needle, s with
  | [], _ => true
  | c :: needle', a :: s' => Ascii.eqb a c && starts_with needle' s'
  | _ :: _, [] => false
  end.

(** String.prototype.includes *)
Fixpoint includes (needle s : str) : bool :=
  starts_with needle s ||
  match s with
  | [] => false
  | _ :: s' => includes needle s'
  end.

(** String.prototype.indexOf; [None] stands for -1. *)
Fixpoint index_of (needle s : str) : option nat :=
  if starts_with needle s then Some 0%nat
  else match s with
       | [] => None
       | _ :: s' => option_map S (index_of needle s')
       end.

(** [s.split('\n').pop()] *)
Definition last_line (s : str) : str :=
  rev (take_while (fun a => negb (Nat.eqb (code a) 10)) (rev s)).

(** Decimal rendering of an index or counter in a template literal. *)
Definition decimal (n : nat) : str :=
  list_ascii_of_string (NilZero.string_of_uint (Nat.to_uint n)).

(** *** Regular expressions

    Every quantifier in the patterns of dotParser.js applies to a single
    character class, except the optional non-capturing group, which is
    [Alt r Eps]. *)
Inductive regex : Type :=
  | Eps
  | Chr (p : ascii → bool)
  | Seq (r1 r2 : regex)
  | Alt (r1 r2 : regex)
  | Rep (greedy : bool) (min : nat) (p : ascii → bool)
  | Group (n : nat) (r : regex)
  | Eol.

Definition Opt (r : regex) : regex := Alt r Eps.
Definition Star (p : ascii → bool) : regex := Rep true 0 p.
Definition Plus (p : ascii → bool) : regex := Rep true 1 p.
Definition LazyStar (p : ascii → bool) : regex := Rep false 0 p.

Fixpoint seqs (rs : list regex) : regex :=
  match rs with
  | [] => Eps
  | [r] => r
  | r :: rs' => Seq r (seqs rs')
  end.

Definition lit (s : string) : regex :=
  seqs (map (fun c => Chr (is_char c)) (list_ascii_of_string s)).

Definition lit_ci (s : string) : regex :=
  seqs (map (fun c => Chr (is_char_ci c)) (list_ascii_of_string s)).

(** Capture groups, most recent binding first. *)
Definition caps := list (nat * str).

Definition cap_get (n : nat) (c : caps) : option str :=
  match find (fun p => Nat.eqb (fst p) n) c with
  | Some p => Some (snd p)
  | None => None
  end.

(** [$] under the [m] flag: end of input or before a line terminator. *)
Definition at_eol (s : str) : bool :=
  match s with
  | [] => true
  | a :: _ => is_line_terminator a
  end.

Section Matcher.
Context {X : Type}.

(** Greedy repetition: take as many as possible, give back one at a time. *)
Fixpoint rep_greedy (p : ascii → bool) (k : str → option X) (min : nat) (s : str)
  : option X :=
  let stop := match min with O => k s | S _ => None end in
  match s with
  | a :: s' =>
      if p a then
        match rep_greedy p k (Nat.pred min) s' with
        | Some x => Some x
        | None => stop
        end
      else stop
  | [] => stop
  end.

(** Lazy repetition: take as few as possible, one more on failure. *)
Fixpoint rep_lazy (p : ascii → bool) (k : str → option X) (min : nat) (s : str)
  : option X :=
  let more :=
    match s with
    | a :: s' => if p a then rep_lazy p k (Nat.pred min) s' else None
    | [] => None
    end in
  match min with
  | O => match k s with Some x => Some x | None => more end
  | S _ => more
  end.

(** Backtracking matcher in continuation-passing style: alternatives are
    tried left to right, and a later failure re-enters the earlier choice. *)
Fixpoint run_k (r : regex) (k : str → caps → option X) (s : str) (c : caps)
  : option X :=
  match r with
  | Eps => k s c
  | Chr p =>
      match s with
      | a :: s' => if p a then k s' c else None
      | [] => None
      end
  | Seq r1 r2 => run_k r1 (fun s' c' => run_k r2 k s' c') s c
  | Alt r1 r2 =>
      match run_k r1 k s c with
      | Some x => Some x
      | None => run_k r2 k s c
      end
  | Rep greedy min p =>
      (if greedy then rep_greedy else rep_lazy) p (fun s' => k s' c) min s
  | Group n r' =>
      run_k r' (fun s' c' => k s' ((n, take (length s - length s') s) :: c')) s c
  | Eol => if at_eol s then k s c else None
  end.
End Matcher.

(** A match attempt at the start of [s]: the unmatched rest and captures. *)
Definition run (r : regex) (s : str) : option (str * caps) :=
  run_k r (fun s' c' => Some (s', c')) s [].

(** The array returned by RegExp.prototype.exec. *)
Record rmatch := RMatch {
  m_index : nat;
  m_whole : str;
  m_groups : caps
}.

Definition group (n : nat) (m : rmatch) : option str := cap_get n (m_groups m).

(** All results of [while ((m = re.exec(s)) !== null)] for a global [re]:
    the search resumes at [lastIndex], the end of the previous match.  An
    empty match leaves [lastIndex] where it is and the loop never exits
    ([None]).  [i] is the index of the head of [s]; [skip] counts the code
    units of the previous match still to step over. *)
Fixpoint exec_all_from (r : regex) (i skip : nat) (s : str) : option (list rmatch) :=
  match skip with
  | S n =>
      match s with
      | [] => Some []
      | _ :: s' => exec_all_from r (S i) n s'
      end
  | O =>
      match run r s with
      | Some (rest, c) =>
          match length s - length rest with
          | O => None
          | S n =>
              match s with
              | [] => None
              | _ :: s' =>
                  option_map (cons (RMatch i (take (S n) s) c))
                             (exec_all_from r (S i) n s')
              end
          end
      | None =>
          match s with
          | [] => Some []
          | _ :: s' => exec_all_from r (S i) 0 s'
          end
      end
  end%nat.

Definition exec_all (r : regex) (s : str) : option (list rmatch) :=
  exec_all_from r 0 0 s.

(** [s.replace(re, rep)] for a global [re] and a replacement without [$]
    patterns; after an empty match the scan advances by one code unit. *)
Fixpoint replace_all_from (r : regex) (rep : str) (skip : nat) (s : str) : str :=
  match skip with
  | S n =>
      match s with
      | [] => []
      | _ :: s' => replace_all_from r rep n s'
      end
  | O =>
      match run r s with
      | Some (rest, _) =>
          match length s - length rest with
          | O =>
              rep ++ match s with
                     | [] => []
                     | a :: s' => a :: replace_all_from r rep 0 s'
                     end
          | S n =>
              rep ++ match s with
                     | [] => []
                     | _ :: s' => replace_all_from r rep n s'
                     end
          end
      | None =>
          match s with
          | [] => []
          | a :: s' => a :: replace_all_from r rep 0 s'
          end
      end
  end%nat.

Definition replace_all (r : regex) (rep : str) (s : str) : str :=
  replace_all_from r rep 0 s.

(** [s.replace(re, rep)] for a non-global [re]: the first match only. *)
Fixpoint replace_first (r : regex) (rep : str) (s : str) : str :=
  match run r s with
  | Some (rest, _) => rep ++ rest
  | None =>
      match s with
      | [] => []
      | a :: s' => a :: replace_first r rep s'
      end
  end.

(** Truthiness of [s.match(re)] for a non-global [re]. *)
Fixpoint test (r : regex) (s : str) : bool :=
  match run r s with
  | Some _ => true
  | None =>
      match s with
      | [] => false
      | _ :: s' => test r s'
      end
  end.

(** [a || b] on strings that may be [undefined]: the empty string is falsy. *)
Definition str_or (a b : option str) : option str :=
  match a with
  | Some (_ :: _) => a
  | _ => b
  end.

Definition truthy (a : option str) : bool :=
  match a with
  | Some (_ :: _) => true
  | _ => false
  end.

End Js.

(** ** dotParser.js *)

Module Parser.
Import Js.

Definition of_str (s : str) : string := string_of_list_ascii s.
Definition to_str (s : string) : str := list_ascii_of_string s.

Definition dquote : ascii := ascii_of_nat 34.

(** *** The patterns

    In the comments below, Q stands for the double-quote character. *)

(** [(Q([^Q]+)Q|(\w+))] with its three group numbers *)
Definition ident (g1 g2 g3 : nat) : regex :=
  Group g1 (Alt (seqs [Chr (is_char dquote);
                       Group g2 (Plus (is_none_of [dquote]));
                       Chr (is_char dquote)])
                (Group g3 (Plus is_word))).

(** [(?:\s*\[(.*?)\])?] *)
Definition attr_list (g : nat) : regex :=
  Opt (seqs [Star is_space; Chr (is_char "["); Group g (LazyStar is_dot);
             Chr (is_char "]")]).

(** [/(Q([^Q]+)Q|(\w+))(?:\s*\[(.*?)\])?\s*;/g] *)
Definition nodeDefPattern : regex :=
  seqs [ident 1 2 3; attr_list 4; Star is_space; Chr (is_char ";")].

(** [/(Q([^Q]+)Q|(\w+))\s*->\s*(Q([^Q]+)Q|(\w+))(?:\s*\[(.*?)\])?/g], or
    the same with [--] for an undirected graph *)
Definition edgePattern (isDirected : bool) : regex :=
  seqs [ident 1 2 3; Star is_space; lit (if isDirected then "->" else "--");
        Star is_space; ident 4 5 6; attr_list 7].

(** [/(\w+)\s*=\s*Q([^Q]{0,})Q|(\w+)\s*=\s*([^;,\]]+)/g], writing
    [{0,}] for the star before a closing parenthesis *)
Definition attrPattern : regex :=
  Alt (seqs [Group 1 (Plus is_word); Star is_space; Chr (is_char "=");
             Star is_space; Chr (is_char dquote);
             Group 2 (Star (is_none_of [dquote])); Chr (is_char dquote)])
      (seqs [Group 3 (Plus is_word); Star is_space; Chr (is_char "=");
             Star is_space; Group 4 (Plus (is_none_of [";"; ","; "]"]%char))]).

(** [/\/\/.*$/gm] *)
Definition lineComment : regex :=
  seqs [lit "//"; Star is_dot; Eol].

(** [/\/\*[\s\S]*?\*\//g] *)
Definition blockComment : regex :=
  seqs [lit "/*"; LazyStar is_any; lit "*/"].

(** [new RegExp(`${graphType}\\s+\\w*\\s*\\{`)] *)
Definition graphDeclaration (graphType : string) : regex :=
  seqs [lit graphType; Plus is_space; Star is_word; Star is_space;
        Chr (is_char "{")].

Definition eq_sp : list regex := [Star is_space; Chr (is_char_ci "="); Star is_space].
Definition quoted_value : list regex :=
  [Chr (is_char dquote); Star (is_none_of [dquote]); Chr (is_char dquote)].
Definition semi : list regex := [Star is_space; Chr (is_char ";")].
Definition to_semi : list regex :=
  [Plus (is_none_of [";"%char]); Chr (is_char ";")].

(** The twelve graph-level attribute patterns, all with flags [gi]. *)
Definition graphAttributePatterns : list regex :=
  [ seqs (lit_ci "layout" :: eq_sp ++ quoted_value ++ semi);
    seqs (lit_ci "layout" :: eq_sp ++ Plus is_word :: semi);
    seqs ([lit_ci "node"; Star is_space; Chr (is_char "[");
           Star (is_none_of ["]"%char]); Chr (is_char "]")] ++ semi);
    seqs (lit_ci "ranksep" :: eq_sp ++ to_semi);
    seqs (lit_ci "concentrate" :: eq_sp ++ to_semi);
    seqs (lit_ci "overlap" :: eq_sp ++ quoted_value ++ semi);
    seqs (lit_ci "overlap" :: eq_sp ++ Plus is_word :: semi);
    seqs (lit_ci "splines" :: eq_sp ++ Plus is_word :: semi);
    seqs (lit_ci "nodesep" :: eq_sp ++ to_semi);
    seqs (lit_ci "rankdir" :: eq_sp ++ to_semi);
    seqs (lit_ci "size" :: eq_sp ++ quoted_value ++ semi);
    seqs (lit_ci "ratio" :: eq_sp ++ to_semi) ].

(** [/->|--/] *)
Definition edgeOperator : regex := Alt (lit "->") (lit "--").

(** *** parseAttributes *)

(** The object parseAttributes returns: [label], [style], and every other
    own property ([_style], [shape], unrecognised keys) in insertion order. *)
Record attrs := Attrs {
  a_label : option string;
  a_style : option style_rec;
  a_props : list (string * string)
}.

Definition no_attrs : attrs := Attrs None None [].

(** [obj[key] = value] on the string-valued properties *)
Fixpoint set_prop (key value : string) (props : list (string * string))
  : list (string * string) :=
  match props with
  | [] => [(key, value)]
  | (k, v) :: rest =>
      if String.eqb k key then (k, value) :: rest
      else (k, v) :: set_prop key value rest
  end.

Fixpoint get_prop (key : string) (props : list (string * string)) : option string :=
  match props with
  | [] => None
  | (k, v) :: rest => if String.eqb k key then Some v else get_prop key rest
  end.

(** Truthiness of an optional string property *)
Definition nonempty (s : option string) : bool :=
  match s with
  | Some (String _ _) => true
  | _ => false
  end.

Definition style_or_empty (s : option style_rec) : style_rec :=
  match s with
  | Some st => st
  | None => Style None None
  end.

(** The [switch (key)] of parseAttributes *)
Definition set_attr (a : attrs) (key value : string) : attrs :=
  if String.eqb key "label" then Attrs (Some value) (a_style a) (a_props a)
  else if String.eqb key "color" then
    let st := style_or_empty (a_style a) in
    Attrs (a_label a) (Some (Style (Some value) (background st))) (a_props a)
  else if String.eqb key "fillcolor" then
    let st := style_or_empty (a_style a) in
    Attrs (a_label a) (Some (Style (stroke st) (Some value))) (a_props a)
  else if String.eqb key "style" then
    let st := style_or_empty (a_style a) in
    let st' :=
      if String.eqb value "filled"
      then Style (stroke st)
                 (Some (if nonempty (background st)
                        then default "#fff"%string (background st)
                        else "#fff"%string))
      else st in
    Attrs (a_label a) (Some st') (set_prop "_style" value (a_props a))
  else if String.eqb key "shape" then
    Attrs (a_label a) (a_style a) (set_prop "shape" value (a_props a))
  else if String.eqb key "__proto__" then a
  else Attrs (a_label a) (a_style a) (set_prop key value (a_props a)).

(** One iteration of the loop of parseAttributes.  [(m[2] || m[4]).trim()]
    reads [trim] of [undefined], and throws, when the quoted value is the
    empty string. *)
Definition attr_step (acc : outcome attrs) (m : rmatch) : outcome attrs :=
  obind acc (fun a =>
    match str_or (group 1 m) (group 3 m), str_or (group 2 m) (group 4 m) with
    | Some key, Some value => Returned (set_attr a (of_str (trim key)) (of_str (trim value)))
    | _, _ => Thrown
    end).

Definition parseAttributes (attrString : str) : outcome attrs :=
  match attrString with
  | [] => Returned no_attrs
  | _ =>
      match exec_all attrPattern attrString with
      | None => OutOfFuel
      | Some ms => foldl attr_step (Returned no_attrs) ms
      end
  end.

(** *** parseDotToReactFlow *)

(** [nodeMap]: a Map in insertion order. *)
Definition node_map := list (string * node).

Fixpoint map_get (k : string) (m : node_map) : option node :=
  match m with
  | [] => None
  | (k', n) :: rest => if String.eqb k' k then Some n else map_get k rest
  end.

Definition map_has (k : string) (m : node_map) : bool :=
  match map_get k m with Some _ => true | None => false end.

(** [nodeMap.set(k, n)]: an existing key keeps its place. *)
Fixpoint map_set (k : string) (n : node) (m : node_map) : node_map :=
  match m with
  | [] => [(k, n)]
  | (k', n') :: rest =>
      if String.eqb k' k then (k', n) :: rest else (k', n') :: map_set k n rest
  end.

(** The node created for an id seen for the first time. *)
Definition new_node (nodeId label : string) (st : option style_rec) : node :=
  Node nodeId (Some (Point 0 0)) (Some label) st (Some 150%R) (Some 40%R) None [].

(** [{ ...existing.style, ...nodeAttrs.style }] *)
Definition merge_style (old : option style_rec) (new : style_rec) : style_rec :=
  let o := style_or_empty old in
  Style (match stroke new with Some v => Some v | None => stroke o end)
        (match background new with Some v => Some v | None => background o end).

(** The updates made to a node that already exists. *)
Definition update_node (existing : node) (nodeAttrs : attrs) : node :=
  let st := match a_style nodeAttrs with
            | Some new => Some (merge_style (style existing) new)
            | None => style existing
            end in
  let lbl := if nonempty (a_label nodeAttrs) then a_label nodeAttrs
             else data_label existing in
  Node (id existing) (position existing) lbl st
       (Some (num_or (width existing) 150)) (Some (num_or (height existing) 40))
       (sim existing) (extra existing).

Definition graphKeywords : list string :=
  ["node"; "edge"; "graph"; "digraph"; "subgraph"]%string.

Record def_state := DefState {
  d_nodeMap : node_map;
  d_processed : gset string
}.

(** Body of the first [while] loop, for one match of [nodeDefPattern]. *)
Definition node_def_step (cleaned : str) (acc : outcome def_state) (m : rmatch)
  : outcome def_state :=
  obind acc (fun st =>
    match str_or (str_or (group 2 m) (group 3 m)) (group 1 m) with
    | None => Thrown
    | Some nodeId_s =>
        let nodeId := of_str nodeId_s in
        let attributes := default [] (str_or (group 4 m) (Some [])) in
        let beforeMatch := take (m_index m) cleaned in
        let lastLine := last_line beforeMatch in
        if includes (to_str "=") lastLine && negb (test edgeOperator lastLine)
        then Returned st
        else if existsb (String.eqb (of_str (toLowerCase nodeId_s))) graphKeywords
                && negb (truthy (Some attributes))
        then Returned st
        else
          let defKey := (nodeId +:+ "-" +:+ of_str (decimal (m_index m)))%string in
          if decide (defKey ∈ d_processed st) then Returned st
          else
            let processed := {[defKey]} ∪ d_processed st in
            if negb (map_has nodeId (d_nodeMap st)) || truthy (Some attributes)
            then
              obind (parseAttributes attributes) (fun nodeAttrs =>
                let label := if nonempty (a_label nodeAttrs)
                             then default nodeId (a_label nodeAttrs) else nodeId in
                match map_get nodeId (d_nodeMap st) with
                | Some existing =>
                    Returned (DefState
                      (map_set nodeId (update_node existing nodeAttrs) (d_nodeMap st))
                      processed)
                | None =>
                    Returned (DefState
                      (map_set nodeId (new_node nodeId label (a_style nodeAttrs))
                               (d_nodeMap st))
                      processed)
                end)
            else Returned (DefState (d_nodeMap st) processed)
    end).

Record edge_state := EdgeState {
  e_nodeMap : node_map;
  e_edges : list edge;
  e_counter : nat
}.

Definition ensure_node (k : string) (m : node_map) : node_map :=
  if map_has k m then m else map_set k (new_node k k None) m.

(** [{ id, source, target, ...edgeAttrs }]: a property of [edgeAttrs] named
    [id], [source] or [target] replaces the one listed before the spread. *)
Definition make_edge (edgeId source target : string) (edgeAttrs : attrs) : edge :=
  Edge (default edgeId (get_prop "id" (a_props edgeAttrs)))
       (default source (get_prop "source" (a_props edgeAttrs)))
       (default target (get_prop "target" (a_props edgeAttrs)))
       (a_label edgeAttrs) (a_style edgeAttrs)
       (get_prop "type" (a_props edgeAttrs))
       (a_props edgeAttrs).

(** Body of the second [while] loop, for one match of [edgePattern]. *)
Definition edge_step (acc : outcome edge_state) (m : rmatch) : outcome edge_state :=
  obind acc (fun st =>
    match str_or (str_or (group 2 m) (group 3 m)) (group 1 m),
          str_or (str_or (group 5 m) (group 6 m)) (group 4 m) with
    | Some source_s, Some target_s =>
        let source := of_str source_s in
        let target := of_str target_s in
        let attributes := default [] (str_or (group 7 m) (Some [])) in
        let nodeMap := ensure_node target (ensure_node source (e_nodeMap st)) in
        obind (parseAttributes attributes) (fun edgeAttrs =>
          let edgeId := ("e" +:+ source +:+ "-" +:+ target +:+ "-"
                         +:+ of_str (decimal (e_counter st)))%string in
          Returned (EdgeState nodeMap
                      (e_edges st ++ [make_edge edgeId source target edgeAttrs])
                      (S (e_counter st))))
    | _, _ => Thrown
    end).

(** [if (!edge.type) edge.type = 'floating'] *)
Definition default_type (e : edge) : edge :=
  Edge (eid e) (esource e) (etarget e) (elabel e) (estyle e)
       (if nonempty (etype e) then etype e else Some "floating"%string)
       (eprops e).

(** Steps 1-4: comments, directedness, declaration line, graph attributes. *)
Definition strip_comments (dotContent : str) : str :=
  trim (replace_all blockComment [] (replace_all lineComment [] dotContent)).

Definition is_directed (cleaned : str) : bool := includes (to_str "digraph") cleaned.

Definition clean (dotContent : str) : str :=
  let cleaned := strip_comments dotContent in
  let graphType := if is_directed cleaned then "digraph"%string else "graph"%string in
  let cleaned := replace_first (graphDeclaration graphType) (to_str "{") cleaned in
  foldl (fun s pattern => replace_all pattern [] s) cleaned graphAttributePatterns.

Definition parseDotToReactFlow (dotContent : string) : outcome graph :=
  let stripped := strip_comments (to_str dotContent) in
  let isDirected := is_directed stripped in
  let cleaned := clean (to_str dotContent) in
  match exec_all nodeDefPattern cleaned with
  | None => OutOfFuel
  | Some defs =>
      obind (foldl (node_def_step cleaned) (Returned (DefState [] ∅)) defs) (fun ds =>
        match exec_all (edgePattern isDirected) cleaned with
        | None => OutOfFuel
        | Some ems =>
            obind (foldl edge_step (Returned (EdgeState (d_nodeMap ds) [] 0)) ems)
              (fun es =>
                 Returned (Graph (map snd (e_nodeMap es))
                                 (map default_type (e_edges es))))
        end)
  end.

End Parser.

(** ** Leveling (hierarchicalLayout, radialLayout) *)

Module Leveling.

(** The only part of an edge the traversals read. *)
Record arc := Arc { source : string; target : string }.

(** [levels.get(id) || 0] *)
Definition level_or0 (levels : gmap string Z) (k : string) : Z :=
  match levels !! k with
  | Some v => v
  | None => 0
  end.

(** [adjacency.set(node.id, [])] for every node. *)
Definition init_adjacency (ids : list string) : gmap string (list string) :=
  foldl (fun m k => <[k := []]> m) ∅ ids.

(** [adjacency.get(edge.source).push(edge.target)]; reading [push] of
    [undefined] throws when the source is not a key. *)
Definition push_arc (m : option (gmap string (list string))) (e : arc)
  : option (gmap string (list string)) :=
  match m with
  | None => None
  | Some adj =>
      match adj !! source e with
      | Some l => Some (<[source e := l ++ [target e]]> adj)
      | None => None
      end
  end.

Definition build_adjacency (ids : list string) (edges : list arc)
  : option (gmap string (list string)) :=
  foldl push_arc (Some (init_adjacency ids)) edges.

(** [inDegree.set(edge.target, (inDegree.get(edge.target) || 0) + 1)] *)
Definition build_inDegree (ids : list string) (edges : list arc) : gmap string Z :=
  foldl (fun m e => <[target e := level_or0 m (target e) + 1]> m)
        (foldl (fun m k => <[k := 0]> m) ∅ ids) edges.

(** [nodes.filter(node => (inDegree.get(node.id) || 0) === 0)], then
    [if (roots.length === 0) roots.push(nodes[0])].  The pushed element is
    [undefined] when there is no node, hence the [option]. *)
Definition find_roots (ids : list string) (edges : list arc) : list (option string) :=
  let inDegree := build_inDegree ids edges in
  let roots := filter (fun k => level_or0 inDegree k = 0) ids in
  match roots with
  | [] => [head ids]
  | _ => Some <$> roots
  end.

(** The three mutable structures of the traversal. *)
Record bfs_state := BfsState {
  levels : gmap string Z;
  visited : gset string;
  queue : list string
}.

(** [roots.forEach(root => { levels.set(root.id, 0); visited.add(root.id);
    queue.push(root.id) })]; [root.id] throws on [undefined]. *)
Definition seed_root (st : option bfs_state) (r : option string) : option bfs_state :=
  match st, r with
  | Some s, Some k =>
      Some (BfsState (<[k := 0]> (levels s)) ({[k]} ∪ visited s) (queue s ++ [k]))
  | _, _ => None
  end.

Definition seed_roots (roots : list (option string)) : option bfs_state :=
  foldl seed_root (Some (BfsState ∅ ∅ [])) roots.

(** Body of [neighbors.forEach(neighborId => ...)] in hierarchicalLayout. *)
Definition visit_neighbor (currentLevel : Z) (s : bfs_state) (nb : string) : bfs_state :=
  if decide (nb ∈ visited s) then
    let existingLevel := level_or0 (levels s) nb in
    if Z.ltb existingLevel (currentLevel + 1)
    then BfsState (<[nb := currentLevel + 1]> (levels s)) (visited s) (queue s)
    else s
  else
    BfsState (<[nb := currentLevel + 1]> (levels s)) ({[nb]} ∪ visited s) (queue s ++ [nb]).

(** One iteration of [while (queue.length > 0)]; [None] when the loop exits. *)
Definition hier_step (adj : gmap string (list string)) (s : bfs_state) : option bfs_state :=
  match queue s with
  | [] => None
  | currentId :: rest =>
      let currentLevel := level_or0 (levels s) currentId in
      let neighbors := default [] (adj !! currentId) in
      Some (foldl (visit_neighbor currentLevel)
                  (BfsState (levels s) (visited s) rest) neighbors)
  end.

Fixpoint hier_loop (fuel : nat) (adj : gmap string (list string)) (s : bfs_state)
  : option bfs_state :=
  match fuel with
  | O => None
  | S fuel' =>
      match hier_step adj s with
      | None => Some s
      | Some s' => hier_loop fuel' adj s'
      end
  end.

(** Lines "Assign levels using BFS" of hierarchicalLayout, together with
    the graph construction they depend on. *)
Definition hierarchical_levels (fuel : nat) (ids : list string) (edges : list arc)
  : outcome (gmap string Z) :=
  match build_adjacency ids edges with
  | None => Thrown
  | Some adj =>
      match seed_roots (find_roots ids edges) with
      | None => Thrown
      | Some s0 =>
          match hier_loop fuel adj s0 with
          | None => OutOfFuel
          | Some s => Returned (levels s)
          end
      end
  end.

(** radialLayout keeps [{ id, level }] pairs in its queue and reads the
    level from the pair, not from the map. *)
Record rbfs_state := RbfsState {
  rlevels : gmap string Z;
  rvisited : gset string;
  rqueue : list (string * Z)
}.

Definition rvisit_neighbor (level : Z) (s : rbfs_state) (nb : string) : rbfs_state :=
  if decide (nb ∈ rvisited s) then
    let existingLevel := level_or0 (rlevels s) nb in
    if Z.ltb existingLevel (level + 1)
    then RbfsState (<[nb := level + 1]> (rlevels s)) (rvisited s) (rqueue s)
    else s
  else
    RbfsState (<[nb := level + 1]> (rlevels s)) ({[nb]} ∪ rvisited s)
              (rqueue s ++ [(nb, level + 1)]).

Definition radial_step (adj : gmap string (list string)) (s : rbfs_state)
  : option rbfs_state :=
  match rqueue s with
  | [] => None
  | (id, level) :: rest =>
      let neighbors := default [] (adj !! id) in
      Some (foldl (rvisit_neighbor level)
                  (RbfsState (rlevels s) (rvisited s) rest) neighbors)
  end.

Fixpoint radial_loop (fuel : nat) (adj : gmap string (list string)) (s : rbfs_state)
  : option rbfs_state :=
  match fuel with
  | O => None
  | S fuel' =>
      match radial_step adj s with
      | None => Some s
      | Some s' => radial_loop fuel' adj s'
      end
  end.

(** "Build levels from center using directed edges only".  [center] is a
    map key; the model uses the string it is given. *)
Definition radial_levels (fuel : nat) (center : string) (ids : list string)
    (edges : list arc) : outcome (gmap string Z) :=
  match build_adjacency ids edges with
  | None => Thrown
  | Some adj =>
      match radial_loop fuel adj
              (RbfsState {[center := 0]} {[center]} [(center, 0)]) with
      | None => OutOfFuel
      | Some s => Returned (rlevels s)
      end
  end.

(** Iterations the loops can need: one per queued id. *)
Definition leveling_fuel (ids : list string) (edges : list arc) : nat :=
  S (S (length ids + length edges)).

End Leveling.

(** ** layoutAlgorithms.js *)

Module Layout.
Import Leveling.
Local Open Scope R_scope.

Record spacing := Spacing {
  nodeSpacing : R;
  levelSpacing : R;
  radiusStep : R;
  minRadius : R;
  gridSpacing : R;
  forceRepulsion : R
}.

Definition DEFAULT_SPACING : spacing := Spacing 80 120 200 250 200 (3 / 2).

Definition to_arc (e : edge) : arc := Arc (esource e) (etarget e).

(** [a < b] and [a > b] on numbers *)
Definition lt (a b : R) : bool := if Rlt_dec a b then true else false.
Definition gt (a b : R) : bool := if Rlt_dec b a then true else false.

(** [Math.max(...nodes.map(n => n.width || 150), 150)], then the spacing *)
Definition calculateMinSpacing (nodes : list node) (baseSpacing : R) : R :=
  match nodes with
  | [] => baseSpacing
  | _ =>
      let maxWidth := foldr Rmax 150 (map (fun n => num_or (width n) 150) nodes) in
      Rmax baseSpacing (maxWidth + 30)
  end.

(** [node.style?.background === 'lightskyblue' || node.data?.label === 'Front Shock'] *)
Definition is_blue (n : node) : bool :=
  match style n with
  | Some st => bool_decide (background st = Some "lightskyblue"%string)
  | None => false
  end
  || bool_decide (data_label n = Some "Front Shock"%string).

Definition find_blue (nodes : list node) : option node := List.find is_blue nodes.

(** [node.id === blueNode.id], false when there is no blue node *)
Definition is_anchor (blueNode : option node) (n : node) : bool :=
  match blueNode with
  | Some b => String.eqb (id n) (id b)
  | None => false
  end.

(** Array.prototype.findIndex; -1 when nothing matches *)
Fixpoint findIndex {A : Type} (p : A → bool) (l : list A) : Z :=
  match l with
  | [] => (-1)%Z
  | a :: l' =>
      if p a then 0%Z
      else match findIndex p l' with
           | Zneg _ => (-1)%Z
           | i => (i + 1)%Z
           end
  end.

(** *** circularLayout *)

Definition circularLayout (nodes : list node) (centerX centerY : R) (sp : spacing)
  : list node :=
  let blueNode := find_blue nodes in
  let otherNodes := filter (fun n => is_anchor blueNode n = false) nodes in
  let nodeCount := INR (length otherNodes) in
  let minSpacing := calculateMinSpacing nodes (nodeSpacing sp) in
  let radius := Rmax (minRadius sp) (minSpacing * nodeCount / (2 * PI)) in
  map (fun n =>
         if is_anchor blueNode n then with_position n (Point centerX centerY)
         else
           let index := findIndex (fun n' => String.eqb (id n') (id n)) otherNodes in
           let angle := 2 * PI * IZR index / nodeCount in
           with_position n (Point (centerX + radius * cos angle)
                                  (centerY + radius * sin angle)))
      nodes.

(** *** gridLayout *)

(** [columns || Math.ceil(Math.sqrt(nodeCount))] *)
Definition grid_columns (columns : option nat) (nodeCount : nat) : nat :=
  match columns with
  | Some (S c) => S c
  | _ => Nat.sqrt_up nodeCount
  end.

Definition gridLayout (nodes : list node) (columns : option nat) (sp : spacing)
  : list node :=
  let cols := grid_columns columns (length nodes) in
  let nodeSpacing := calculateMinSpacing nodes (gridSpacing sp) in
  imap (fun index n =>
          let row := Nat.div index cols in
          let col := Nat.modulo index cols in
          with_position n (Point (100 + INR col * nodeSpacing)
                                 (100 + INR row * nodeSpacing)))
       nodes.

(** *** hierarchicalLayout *)

(** [positions]: a Map from id to point, in insertion order. *)
Definition pos_map := list (string * point).

Fixpoint pos_get (k : string) (m : pos_map) : option point :=
  match m with
  | [] => None
  | (k', p) :: rest => if String.eqb k' k then Some p else pos_get k rest
  end.

Fixpoint pos_set (k : string) (p : point) (m : pos_map) : pos_map :=
  match m with
  | [] => [(k, p)]
  | (k', p') :: rest =>
      if String.eqb k' k then (k', p) :: rest else (k', p') :: pos_set k p rest
  end.

(** [new Map(nodes.map(n => [n.id, n])).get(k)]: the last node with the id *)
Definition node_by_id (nodes : list node) (k : string) : option node :=
  List.find (fun n => String.eqb (id n) k) (rev nodes).

(** [nodeMap.get(k)?.width || 150] *)
Definition width_of (nodes : list node) (k : string) : R :=
  num_or (match node_by_id nodes k with Some n => width n | None => None end) 150.

Section Hierarchical.
Variable nodes : list node.
Variable children : gmap string (list string).
Variable levels : gmap string Z.
Variable nodeSpacing levelSpacing : R.

Definition startY : R := 100.
Definition centerX : R := 400.

Definition wouldOverlap (positions : pos_map) (x : R) (nodeId : string) (level : Z)
  : bool :=
  let nodeWidth := width_of nodes nodeId in
  existsb (fun kp =>
             negb (String.eqb (fst kp) nodeId)
             && Z.eqb (level_or0 levels (fst kp)) level
             && lt (Rabs (x - px (snd kp)))
                   ((nodeWidth + width_of nodes (fst kp)) / 2 + 10))
          positions.

(** [while (wouldOverlap(childX, ...) && attempts < 10) { childX += nodeSpacing / 2; attempts++ }],
    with [left] the attempts still allowed *)
Fixpoint shift_right (left : nat) (positions : pos_map) (childX : R)
    (childId : string) (childLevel : Z) : R :=
  match left with
  | O => childX
  | S left' =>
      if wouldOverlap positions childX childId childLevel
      then shift_right left' positions (childX + nodeSpacing / 2) childId childLevel
      else childX
  end.

(** [positionChildren(parentId)]; the recursion depth is bounded by [fuel]. *)
Fixpoint positionChildren (fuel : nat) (parentId : string) (positions : pos_map)
  : option pos_map :=
  match fuel with
  | O => None
  | S fuel' =>
      match default [] (children !! parentId) with
      | [] => Some positions
      | nodeChildren =>
          match pos_get parentId positions with
          | None => Some positions
          | Some parentPos =>
              let parentLevel := level_or0 levels parentId in
              let childLevel := (parentLevel + 1)%Z in
              let totalWidth := (INR (length nodeChildren) - 1) * nodeSpacing in
              let startX := px parentPos - totalWidth / 2 in
              foldl (fun acc ic =>
                       match acc with
                       | None => None
                       | Some positions =>
                           let childId := snd ic in
                           match pos_get childId positions with
                           | Some _ => Some positions
                           | None =>
                               let childX :=
                                 shift_right 10 positions
                                   (startX + INR (fst ic) * nodeSpacing)
                                   childId childLevel in
                               positionChildren fuel' childId
                                 (pos_set childId
                                    (Point childX (startY + IZR childLevel * levelSpacing))
                                    positions)
                           end
                       end)
                    (Some positions) (imap pair nodeChildren)
          end
      end
  end.

(** Placement of the roots: one at the centre, several spread around it. *)
Definition position_roots (roots : list string) : pos_map :=
  match roots with
  | [r] => pos_set r (Point centerX startY) []
  | _ =>
      let totalWidth := (INR (length roots) - 1) * nodeSpacing in
      let startX := centerX - totalWidth / 2 in
      foldl (fun positions ir =>
               pos_set (snd ir) (Point (startX + INR (fst ir) * nodeSpacing) startY)
                       positions)
            [] (imap pair roots)
  end.

(** [roots.forEach(root => positionChildren(root.id))] *)
Definition position_all (fuel : nat) (roots : list string) : option pos_map :=
  foldl (fun acc r =>
           match acc with
           | None => None
           | Some positions => positionChildren fuel r positions
           end)
        (Some (position_roots roots)) roots.

(** The final [nodes.map]: the computed position, else a column keyed by
    the node's level. *)
Definition place (positions : pos_map) (n : node) : node :=
  match pos_get (id n) positions with
  | Some p => with_position n p
  | None =>
      with_position n
        (Point centerX (startY + IZR (level_or0 levels (id n)) * levelSpacing))
  end.
End Hierarchical.

Definition hierarchicalLayout (nodes : list node) (edges : list edge) (sp : spacing)
  : outcome (list node) :=
  let ids := map id nodes in
  let arcs := map to_arc edges in
  match build_adjacency ids arcs with
  | None => Thrown
  | Some children =>
      obind (hierarchical_levels (leveling_fuel ids arcs) ids arcs) (fun levels =>
        let roots := omap (fun r => r) (find_roots ids arcs) in
        let nodeSpacing := calculateMinSpacing nodes (nodeSpacing sp) in
        match position_all nodes children levels nodeSpacing (levelSpacing sp)
                (S (length edges)) roots with
        | None => OutOfFuel
        | Some positions =>
            Returned (map (place levels (levelSpacing sp) positions) nodes)
        end)
  end.


(** *** forceDirectedLayout *)

(** An entry of the working [nodeMap]: the copied node and the simulation
    fields stored on the copy. *)
Record sim_node := SimNode { sn_node : node; sn_sim : sim_fields }.

Definition sim_map := list (string * sim_node).

Fixpoint sim_set (k : string) (v : sim_node) (m : sim_map) : sim_map :=
  match m with
  | [] => [(k, v)]
  | (k', v') :: rest =>
      if String.eqb k' k then (k', v) :: rest else (k', v') :: sim_set k v rest
  end.

Fixpoint sim_get (k : string) (m : sim_map) : option sim_node :=
  match m with
  | [] => None
  | (k', v) :: rest => if String.eqb k' k then Some v else sim_get k rest
  end.

(** In-place update of the object stored under [k] *)
Fixpoint sim_alter (f : sim_fields → sim_fields) (k : string) (m : sim_map) : sim_map :=
  match m with
  | [] => []
  | (k', v) :: rest =>
      if String.eqb k' k then (k', SimNode (sn_node v) (f (sn_sim v))) :: rest
      else (k', v) :: sim_alter f k rest
  end.

(** [v || Math.random() * scale]: a draw is made only when [v] is falsy.
    [rnd] is the sequence of values Math.random returns and [c] counts the
    draws made so far. *)
Definition coord_or_random (rnd : nat → R) (v : option R) (scale : R) (c : nat)
  : R * nat :=
  match v with
  | Some x => if Req_dec_T x 0 then (rnd c * scale, S c) else (x, c)
  | None => (rnd c * scale, S c)
  end.

(** Body of the initial [nodes.forEach] *)
Definition init_sim (rnd : nat → R) (blueNode : option node)
    (acc : sim_map * nat) (n : node) : sim_map * nat :=
  if is_anchor blueNode n then
    (sim_set (id n) (SimNode n (Sim 400 400 0 0 true)) (fst acc), snd acc)
  else
    let xc := coord_or_random rnd (px <$> position n) 800 (snd acc) in
    let yc := coord_or_random rnd (py <$> position n) 600 (snd xc) in
    (sim_set (id n) (SimNode n (Sim (fst xc) (fst yc) 0 0 false)) (fst acc), snd yc).

Definition add_velocity (dvx dvy : R) (s : sim_fields) : sim_fields :=
  Sim (sim_x s) (sim_y s) (sim_vx s + dvx) (sim_vy s + dvy) (sim_fixed s).

(** [Math.sqrt(dx * dx + dy * dy) || 1] *)
Definition distance_or_1 (dx dy : R) : R :=
  let d := sqrt (dx * dx + dy * dy) in
  if Req_dec_T d 0 then 1 else d.

(** Repulsion between the objects at indices [i] and [j] of [nodeArray] *)
Definition repel (repulsionStrength : R) (m : sim_map) (ij : nat * nat) : sim_map :=
  match m !! fst ij, m !! snd ij with
  | Some (ka, a), Some (kb, b) =>
      let dx := sim_x (sn_sim b) - sim_x (sn_sim a) in
      let dy := sim_y (sn_sim b) - sim_y (sn_sim a) in
      let distance := distance_or_1 dx dy in
      let force := repulsionStrength / (distance * distance) in
      let fx := dx / distance * force in
      let fy := dy / distance * force in
      <[snd ij := (kb, SimNode (sn_node b) (add_velocity fx fy (sn_sim b)))]>
        (<[fst ij := (ka, SimNode (sn_node a) (add_velocity (- fx) (- fy) (sn_sim a)))]> m)
  | _, _ => m
  end.

(** The index pairs [i < j] in the order of the two nested loops *)
Definition index_pairs (n : nat) : list (nat * nat) :=
  flat_map (fun i => map (fun j => (i, j)) (seq (S i) (n - S i))) (seq 0 n).

(** Attraction along one edge *)
Definition attract (attractionStrength : R) (m : sim_map) (e : edge) : sim_map :=
  match sim_get (esource e) m, sim_get (etarget e) m with
  | Some source, Some target =>
      let dx := sim_x (sn_sim target) - sim_x (sn_sim source) in
      let dy := sim_y (sn_sim target) - sim_y (sn_sim source) in
      let distance := distance_or_1 dx dy in
      let force := distance * attractionStrength in
      let fx := dx / distance * force in
      let fy := dy / distance * force in
      sim_alter (add_velocity (- fx) (- fy)) (etarget e)
        (sim_alter (add_velocity fx fy) (esource e) m)
  | _, _ => m
  end.

(** [Math.max(lo, Math.min(hi, v))] *)
Definition clamp (lo hi v : R) : R := Rmax lo (Rmin hi v).

(** "Apply forces with damping" for one object *)
Definition move (s : sim_fields) : sim_fields :=
  if sim_fixed s then Sim 400 400 (sim_vx s) (sim_vy s) true
  else Sim (clamp 50 750 (sim_x s + sim_vx s * (9 / 10)))
           (clamp 50 550 (sim_y s + sim_vy s * (9 / 10)))
           (sim_vx s) (sim_vy s) false.

Definition on_sim (f : sim_fields → sim_fields) (kv : string * sim_node)
  : string * sim_node :=
  (fst kv, SimNode (sn_node (snd kv)) (f (sn_sim (snd kv)))).

Definition reset_velocity (s : sim_fields) : sim_fields :=
  Sim (sim_x s) (sim_y s) 0 0 (sim_fixed s).

(** One pass of the [for (iter ...)] loop *)
Definition force_iteration (repulsionStrength attractionStrength : R)
    (edges : list edge) (m : sim_map) : sim_map :=
  let m := map (on_sim reset_velocity) m in
  let m := foldl (repel repulsionStrength) m (index_pairs (length m)) in
  let m := foldl (attract attractionStrength) m edges in
  map (on_sim move) m.

(** [{ ...node, position: { x: node.x, y: node.y } }] on a working object *)
Definition sim_result (v : sim_node) : node :=
  Node (id (sn_node v))
       (Some (Point (sim_x (sn_sim v)) (sim_y (sn_sim v))))
       (data_label (sn_node v)) (style (sn_node v))
       (width (sn_node v)) (height (sn_node v))
       (Some (sn_sim v)) (extra (sn_node v)).

Definition forceDirectedLayout (rnd : nat → R) (nodes : list node) (edges : list edge)
    (iterations : nat) (sp : spacing) : list node :=
  let blueNode := find_blue nodes in
  let nodeMap := fst (foldl (init_sim rnd blueNode) ([], O) nodes) in
  let minSpacing := calculateMinSpacing nodes (nodeSpacing sp) in
  let k := minSpacing * forceRepulsion sp in
  let repulsionStrength := k * k in
  let attractionStrength := 1 / 10 in
  map (fun kv => sim_result (snd kv))
      (Nat.iter iterations (force_iteration repulsionStrength attractionStrength edges)
                nodeMap).


(** *** radialLayout *)

(** Array.prototype.sort with a comparator whose sign is [cmp a b]; the
    sort is stable. *)
Fixpoint sort_insert {A : Type} (cmp : A → A → comparison) (a : A) (l : list A)
  : list A :=
  match l with
  | [] => [a]
  | b :: l' =>
      match cmp a b with
      | Gt => b :: sort_insert cmp a l'
      | _ => a :: b :: l'
      end
  end.

Definition js_sort {A : Type} (cmp : A → A → comparison) (l : list A) : list A :=
  foldr (sort_insert cmp) [] l.

(** [connections]: a Map from id to count, in insertion order. *)
Definition count_map := list (string * Z).

Fixpoint count_get (k : string) (m : count_map) : option Z :=
  match m with
  | [] => None
  | (k', v) :: rest => if String.eqb k' k then Some v else count_get k rest
  end.

Fixpoint count_set (k : string) (v : Z) (m : count_map) : count_map :=
  match m with
  | [] => [(k, v)]
  | (k', v') :: rest =>
      if String.eqb k' k then (k', v) :: rest else (k', v') :: count_set k v rest
  end.

(** [connections.set(k, (connections.get(k) || 0) + 1)] *)
Definition count_incr (m : count_map) (k : string) : count_map :=
  count_set k (default 0%Z (count_get k m) + 1)%Z m.

Definition connections (nodes : list node) (edges : list edge) : count_map :=
  foldl (fun m e => count_incr (count_incr m (esource e)) (etarget e))
        (foldl (fun m n => count_set (id n) 0%Z m) [] nodes) edges.

(** A string or [undefined] as a condition *)
Definition truthy_id (k : option string) : option string :=
  match k with
  | Some (String _ _) => k
  | _ => None
  end.

(** "Find center node": the caller's id, else the blue node, else the first
    id with the most connections, else the first node. *)
Definition radial_center (nodes : list node) (edges : list edge)
    (centerNodeId : option string) : option string :=
  match truthy_id centerNodeId with
  | Some c => Some c
  | None =>
      match find_blue nodes with
      | Some blueNode => Some (id blueNode)
      | None =>
          let sorted := js_sort (fun a b => Z.compare (snd b) (snd a))
                                (connections nodes edges) in
          match truthy_id (fst <$> head sorted) with
          | Some c => Some c
          | None => id <$> head nodes
          end
      end
  end.

(** [levelGroups]: a Map from level to the nodes on it, in node order. *)
Definition level_groups (levels : gmap string Z) (nodes : list node)
  : gmap Z (list node) :=
  foldl (fun g n =>
           let level := level_or0 levels (id n) in
           <[level := default [] (g !! level) ++ [n]]> g)
        ∅ nodes.

(** [parents]: for an edge one level deeper, the source is a parent of the
    target. *)
Definition parent_map (levels : gmap string Z) (edges : list edge)
  : gmap string (list string) :=
  foldl (fun p e =>
           if Z.eqb (level_or0 levels (etarget e)) (level_or0 levels (esource e) + 1)
           then <[etarget e := default [] (p !! etarget e) ++ [esource e]]> p
           else p)
        ∅ edges.

(** Math.atan2 on real numbers *)
Definition atan2 (y x : R) : R :=
  if Rlt_dec 0 x then atan (y / x)
  else if Rlt_dec x 0 then
    if Rlt_dec y 0 then atan (y / x) - PI else atan (y / x) + PI
  else if Rlt_dec 0 y then PI / 2
  else if Rlt_dec y 0 then - (PI / 2)
  else 0.

Definition sum (l : list R) : R := foldl Rplus 0 l.

(** The circular mean of the parents' angles, normalised to [0, 2 PI). *)
Definition barycenter (parents : gmap string (list string)) (nodeAngles : gmap string R)
    (n : node) : option R :=
  match default [] (parents !! id n) with
  | [] => None
  | nodeParents =>
      match omap (fun parentId => nodeAngles !! parentId) nodeParents with
      | [] => None
      | parentAngles =>
          let sumSin := sum (map sin parentAngles) in
          let sumCos := sum (map cos parentAngles) in
          let meanAngle := atan2 (sumSin / INR (length parentAngles))
                                 (sumCos / INR (length parentAngles)) in
          Some (if lt meanAngle 0 then meanAngle + 2 * PI else meanAngle)
      end
  end.

(** [nodeBarycenters]: filled by [levelNodes.forEach] *)
Definition barycenters (parents : gmap string (list string)) (nodeAngles : gmap string R)
    (levelNodes : list node) : gmap string R :=
  foldl (fun b n =>
           match barycenter parents nodeAngles n with
           | Some a => <[id n := a]> b
           | None => b
           end)
        ∅ levelNodes.

Definition Rsign (x y : R) : comparison :=
  match total_order_T x y with
  | inleft (left _) => Lt
  | inleft (right _) => Eq
  | inright _ => Gt
  end.

(** The comparator of the barycenter sort *)
Definition by_barycenter (b : gmap string R) (n1 n2 : node) : comparison :=
  match b !! id n1, b !! id n2 with
  | Some baryA, Some baryB => Rsign baryA baryB
  | Some _, None => Lt
  | None, Some _ => Gt
  | None, None => Eq
  end.

(** The angle of slot [index] among [count] evenly spaced slots *)
Definition slot_angle (count index : nat) : R := 2 * PI * INR index / INR count.

(** One pass of [for (let level = 1; level <= maxLevel; level++)] *)
Definition assign_level (groups : gmap Z (list node))
    (parents : gmap string (list string)) (nodeAngles : gmap string R) (level : Z)
  : gmap string R :=
  match default [] (groups !! level) with
  | [] => nodeAngles
  | levelNodes =>
      let sortedNodes :=
        js_sort (by_barycenter (barycenters parents nodeAngles levelNodes)) levelNodes in
      foldl (fun angles inode =>
               <[id (snd inode) := slot_angle (length levelNodes) (fst inode)]> angles)
            nodeAngles (imap pair sortedNodes)
  end.

(** [Math.max(...levels.values())]; [None] stands for -Infinity. *)
Definition max_level (levels : gmap string Z) : option Z :=
  match (map_to_list levels).*2 with
  | [] => None
  | v :: vs => Some (foldl Z.max v vs)
  end.

(** The levels [1 .. maxLevel] *)
Definition level_range (maxLevel : option Z) : list Z :=
  match maxLevel with
  | Some m => map (fun i => Z.of_nat (S i)) (seq 0 (Z.to_nat m))
  | None => []
  end.

Definition radial_angles (center : string) (levels : gmap string Z)
    (nodes : list node) (edges : list edge) : gmap string R :=
  foldl (assign_level (level_groups levels nodes) (parent_map levels edges))
        {[center := 0]} (level_range (max_level levels)).

(** [radius] in the final [nodes.map] *)
Definition level_radius (minSpacing radiusStep : R) (level : Z) (nodesInLevel : nat) : R :=
  let radius := minSpacing + IZR level * radiusStep in
  if Z.ltb 0 level && Nat.ltb 0 nodesInLevel
  then Rmax radius (INR nodesInLevel * minSpacing / (2 * PI))
  else radius.

Definition radial_place (levels : gmap string Z) (groups : gmap Z (list node))
    (nodeAngles : gmap string R) (minSpacing radiusStep : R) (n : node) : node :=
  let level := level_or0 levels (id n) in
  let nodesInLevel := length (default [] (groups !! level)) in
  let radius := level_radius minSpacing radiusStep level nodesInLevel in
  let angle := num_or (nodeAngles !! id n) 0 in
  with_position n
    (Point (400 + (if Z.eqb level 0 then 0 else radius * cos angle))
           (400 + (if Z.eqb level 0 then 0 else radius * sin angle))).

Definition radialLayout (nodes : list node) (edges : list edge)
    (centerNodeId : option string) (sp : spacing) : outcome (list node) :=
  let ids := map id nodes in
  let arcs := map to_arc edges in
  let minSpacing := calculateMinSpacing nodes (nodeSpacing sp) in
  match radial_center nodes edges centerNodeId with
  | Some center =>
      obind (radial_levels (leveling_fuel ids arcs) center ids arcs) (fun levels =>
        Returned (map (radial_place levels (level_groups levels nodes)
                         (radial_angles center levels nodes edges)
                         minSpacing (radiusStep sp))
                      nodes))
  | None =>
      (* the centre is [undefined]: no node id is ever given a level *)
      match build_adjacency ids arcs with
      | None => Thrown
      | Some _ =>
          Returned (map (radial_place ∅ (level_groups ∅ nodes) ∅
                           minSpacing (radiusStep sp))
                        nodes)
      end
  end.

(** *** applyLayout *)

Definition lower_string (s : string) : string :=
  string_of_list_ascii (Js.toLowerCase (list_ascii_of_string s)).

(** [layoutName?.toLowerCase() || 'circular'] *)
Definition layout_key (layoutName : option string) : string :=
  match lower_string <$> layoutName with
  | Some (String a s) => String a s
  | _ => "circular"%string
  end.

(** The [switch (layout)] *)
Definition applyLayout (rnd : nat → R) (layoutName : option string)
    (nodes : list node) (edges : list edge) (sp : spacing) : outcome (list node) :=
  let layout := layout_key layoutName in
  if existsb (String.eqb layout) ["hierarchical"; "dot"]%string
  then hierarchicalLayout nodes edges sp
  else if existsb (String.eqb layout) ["force"; "fdp"; "neato"]%string
  then Returned (forceDirectedLayout rnd nodes edges 50 sp)
  else if existsb (String.eqb layout) ["radial"; "twopi"]%string
  then radialLayout nodes edges None sp
  else if String.eqb layout "grid"
  then Returned (gridLayout nodes None sp)
  else Returned (circularLayout nodes 400 400 sp).

End Layout.

(** ** Floating-edge geometry (getParams, getNodeCenter, getEdgeParams) *)

Module FloatingEdge.
Local Open Scope R_scope.

Record size := Size { mwidth : option R; mheight : option R }.

(** A node as the geometry helpers read it: a position and optional
    stated and measured dimensions. *)
Record flow_node := FlowNode {
  fposition : point;
  fwidth : option R;
  fheight : option R;
  measured : option size
}.

Inductive side : Type := Left | Right | Top | Bottom.

Record params := Params { pos : side; x : R; y : R }.

(** [node.width || node.measured?.width || 150] *)
Definition node_width (n : flow_node) : R :=
  num_or (fwidth n)
         (num_or (match measured n with Some m => mwidth m | None => None end) 150).

(** [node.height || node.measured?.height || 40] *)
Definition node_height (n : flow_node) : R :=
  num_or (fheight n)
         (num_or (match measured n with Some m => mheight m | None => None end) 40).

Definition getNodeCenter (n : flow_node) : point :=
  Point (px (fposition n) + node_width n / 2) (py (fposition n) + node_height n / 2).

(** [a > b] *)
Definition gt (a b : R) : bool := if Rlt_dec b a then true else false.

Definition getParams (nodeA nodeB : flow_node) : params :=
  let centerA := getNodeCenter nodeA in
  let centerB := getNodeCenter nodeB in
  let horizontalDiff := Rabs (px centerA - px centerB) in
  let verticalDiff := Rabs (py centerA - py centerB) in
  let widthA := node_width nodeA in
  let heightA := node_height nodeA in
  if gt horizontalDiff verticalDiff then
    if gt (px centerA) (px centerB)
    then Params Left (px (fposition nodeA)) (py centerA)
    else Params Right (px (fposition nodeA) + widthA) (py centerA)
  else
    if gt (py centerA) (py centerB)
    then Params Top (px centerA) (py (fposition nodeA))
    else Params Bottom (px centerA) (py (fposition nodeA) + heightA).

(** [positionMap] *)
Definition getPosition (p : side) : side :=
  match p with
  | Left => Right
  | Right => Left
  | Top => Bottom
  | Bottom => Top
  end.

Record edge_params := EdgeParams {
  sx : R; sy : R; tx : R; ty : R; sourcePos : side; targetPos : side
}.

Definition getEdgeParams (sourceNode targetNode : flow_node) : edge_params :=
  let sourceParams := getParams sourceNode targetNode in
  let targetParams := getParams targetNode sourceNode in
  EdgeParams (x sourceParams) (y sourceParams) (x targetParams) (y targetParams)
             (getPosition (pos sourceParams)) (getPosition (pos targetParams)).

End FloatingEdge.

(** ** Edge components (SimpleFloatingEdge.jsx, OrthogonalEdge.jsx, getBezierPath) *)

Module EdgePaths.
Import FloatingEdge.
Local Open Scope R_scope.

(** A node as [useNodes()] lists it: its id and the fields the geometry
    reads. *)
Record rf_node := RfNode { rf_id : string; rf_geom : flow_node }.

(** [nodes.find(node => node.id === k)] *)
Definition find_node (nodes : list rf_node) (k : string) : option rf_node :=
  List.find (fun n => String.eqb (rf_id n) k) nodes.

(** The path [M sx,sy C c1x,c1y c2x,c2y tx,ty] built by getBezierPath,
    kept as the four points the template literal prints. *)
Record bezier := Bezier {
  b_from : point; b_c1 : point; b_c2 : point; b_to : point
}.

(** [sourcePosition === 'left' || sourcePosition === 'right'] *)
Definition left_or_right (p : side) : bool :=
  match p with
  | Left | Right => true
  | Top | Bottom => false
  end.

Definition getBezierPath (sourceX sourceY targetX targetY : R)
    (sourcePosition targetPosition : side) : bezier :=
  let curvature := 3 / 10 in
  if left_or_right sourcePosition then
    Bezier (Point sourceX sourceY)
           (Point (sourceX + (targetX - sourceX) * curvature) sourceY)
           (Point (targetX - (targetX - sourceX) * curvature) targetY)
           (Point targetX targetY)
  else
    Bezier (Point sourceX sourceY)
           (Point sourceX (sourceY + (targetY - sourceY) * curvature))
           (Point targetX (targetY - (targetY - sourceY) * curvature))
           (Point targetX targetY).

(** The path SimpleFloatingEdge hands to [BaseEdge]; [None] when the
    component returns [null]. *)
Definition SimpleFloatingEdge (nodes : list rf_node) (source target : string)
  : option bezier :=
  match find_node nodes source, find_node nodes target with
  | Some sourceNode, Some targetNode =>
      let ep := getEdgeParams (rf_geom sourceNode) (rf_geom targetNode) in
      Some (getBezierPath (sx ep) (sy ep) (tx ep) (ty ep) (sourcePos ep) (targetPos ep))
  | _, _ => None
  end.

(** The arguments OrthogonalEdge passes to [getSmoothStepPath]. *)
Record step_args := StepArgs {
  o_sourceX : R; o_sourceY : R; o_targetX : R; o_targetY : R;
  o_sourcePosition : side; o_targetPosition : side
}.

(** OrthogonalEdge up to the call of [getSmoothStepPath]; the positions
    default to bottom and top.  [None] when the component returns [null]. *)
Definition OrthogonalEdge (nodes : list rf_node) (source target : string)
    (sourcePosition targetPosition : option side) : option step_args :=
  let sourcePosition := default Bottom sourcePosition in
  let targetPosition := default Top targetPosition in
  match find_node nodes source, find_node nodes target with
  | Some sourceNode, Some targetNode =>
      let sourceWidth := num_or (fwidth (rf_geom sourceNode)) 150 in
      let sourceHeight := num_or (fheight (rf_geom sourceNode)) 40 in
      let targetWidth := num_or (fwidth (rf_geom targetNode)) 150 in
      let targetHeight := num_or (fheight (rf_geom targetNode)) 40 in
      let sourceX := px (fposition (rf_geom sourceNode)) + sourceWidth / 2 in
      let sourceY :=
        match sourcePosition with
        | Bottom => py (fposition (rf_geom sourceNode)) + sourceHeight
        | _ => py (fposition (rf_geom sourceNode))
        end in
      let targetX := px (fposition (rf_geom targetNode)) + targetWidth / 2 in
      let targetY :=
        match targetPosition with
        | Top => py (fposition (rf_geom targetNode))
        | _ => py (fposition (rf_geom targetNode)) + targetHeight
        end in
      Some (StepArgs sourceX sourceY targetX targetY sourcePosition targetPosition)
  | _, _ => None
  end.

End EdgePaths.

(** ** Properties of the leveling traversals *)

Module LevelingFacts.
Import Leveling.

(** *** Termination measure: queued ids plus reachable ids not yet visited *)

Definition pending (T V : gset string) : nat := size (T ∖ V).

Lemma pending_visit (T V : gset string) (x : string) :
  x ∈ T → x ∉ V → pending T V = S (pending T ({[x]} ∪ V)).
Proof.
  intros HT HV. unfold pending.
  replace (T ∖ V) with ({[x]} ∪ T ∖ ({[x]} ∪ V)).
  - rewrite size_union by set_solver. by rewrite size_singleton.
  - apply set_eq. intros y. destruct (decide (y = x)); set_solver.
Qed.

Section Measure.
Variable adj : gmap string (list string).
(** Every id that can ever be pushed on a queue. *)
Variable T : gset string.
Hypothesis adj_in_T : ∀ k l x, adj !! k = Some l → x ∈ l → x ∈ T.

Definition hmeasure (s : bfs_state) : nat :=
  (length (queue s) + pending T (visited s))%nat.

Lemma visit_neighbor_measure (c : Z) (s : bfs_state) (nb : string) :
  nb ∈ T → hmeasure (visit_neighbor c s nb) = hmeasure s.
Proof.
  intros HT. unfold visit_neighbor, hmeasure.
  destruct (decide (nb ∈ visited s)) as [Hin|Hout].
  - by destruct (_ <? _).
  - cbn. rewrite length_app. cbn. rewrite (pending_visit T (visited s) nb) by done. lia.
Qed.

Lemma visit_all_measure (c : Z) (nbs : list string) (s : bfs_state) :
  (∀ x, x ∈ nbs → x ∈ T) →
  hmeasure (foldl (visit_neighbor c) s nbs) = hmeasure s.
Proof.
  revert s. induction nbs as [|nb nbs IH]; intros s Hall; [done|].
  cbn. rewrite IH by (intros; apply Hall; set_solver).
  apply visit_neighbor_measure, Hall. set_solver.
Qed.

Lemma neighbors_in_T (k x : string) : x ∈ default [] (adj !! k) → x ∈ T.
Proof.
  destruct (adj !! k) as [l|] eqn:E; cbn; [eauto | set_solver].
Qed.

Lemma hier_step_measure (s s' : bfs_state) :
  hier_step adj s = Some s' → hmeasure s = S (hmeasure s').
Proof.
  unfold hier_step. destruct (queue s) as [|cur rest] eqn:Q; [done|].
  intros [= <-]. rewrite visit_all_measure by (intros ?; apply neighbors_in_T).
  unfold hmeasure. rewrite Q. done.
Qed.

Lemma hier_loop_terminates (fuel : nat) (s : bfs_state) :
  (hmeasure s < fuel)%nat → is_Some (hier_loop fuel adj s).
Proof.
  revert s. induction fuel as [|fuel IH]; intros s Hlt; [lia|].
  cbn. destruct (hier_step adj s) as [s'|] eqn:E; [|by eexists].
  apply IH. apply hier_step_measure in E. lia.
Qed.

Definition rmeasure (s : rbfs_state) : nat :=
  (length (rqueue s) + pending T (rvisited s))%nat.

Lemma rvisit_neighbor_measure (c : Z) (s : rbfs_state) (nb : string) :
  nb ∈ T → rmeasure (rvisit_neighbor c s nb) = rmeasure s.
Proof.
  intros HT. unfold rvisit_neighbor, rmeasure.
  destruct (decide (nb ∈ rvisited s)) as [Hin|Hout].
  - by destruct (_ <? _).
  - cbn. rewrite length_app. cbn. rewrite (pending_visit T (rvisited s) nb) by done. lia.
Qed.

Lemma rvisit_all_measure (c : Z) (nbs : list string) (s : rbfs_state) :
  (∀ x, x ∈ nbs → x ∈ T) →
  rmeasure (foldl (rvisit_neighbor c) s nbs) = rmeasure s.
Proof.
  revert s. induction nbs as [|nb nbs IH]; intros s Hall; [done|].
  cbn. rewrite IH by (intros; apply Hall; set_solver).
  apply rvisit_neighbor_measure, Hall. set_solver.
Qed.

Lemma radial_step_measure (s s' : rbfs_state) :
  radial_step adj s = Some s' → rmeasure s = S (rmeasure s').
Proof.
  unfold radial_step. destruct (rqueue s) as [|[cur lv] rest] eqn:Q; [done|].
  intros [= <-]. rewrite rvisit_all_measure by (intros ?; apply neighbors_in_T).
  unfold rmeasure. rewrite Q. done.
Qed.

Lemma radial_loop_terminates (fuel : nat) (s : rbfs_state) :
  (rmeasure s < fuel)%nat → is_Some (radial_loop fuel adj s).
Proof.
  revert s. induction fuel as [|fuel IH]; intros s Hlt; [lia|].
  cbn. destruct (radial_step adj s) as [s'|] eqn:E; [|by eexists].
  apply IH. apply radial_step_measure in E. lia.
Qed.
End Measure.


(** *** The adjacency map built from the edge list *)

Lemma init_adjacency_lookup (ids : list string) (k : string) :
  init_adjacency ids !! k = if decide (k ∈ ids) then Some [] else None.
Proof.
  unfold init_adjacency. induction ids as [|x ids IH] using rev_ind.
  - cbn. rewrite lookup_empty. by rewrite decide_False by set_solver.
  - rewrite foldl_snoc. destruct (decide (k = x)) as [->|Hne].
    + rewrite lookup_insert_eq. by rewrite decide_True by set_solver.
    + rewrite lookup_insert_ne by done. rewrite IH.
      destruct (decide (k ∈ ids)).
      * by rewrite decide_True by set_solver.
      * by rewrite decide_False by set_solver.
Qed.

Definition out_targets (edges : list arc) (k : string) : list string :=
  target <$> filter (fun e => source e = k) edges.

Lemma out_targets_snoc (edges : list arc) (e : arc) (k : string) :
  out_targets (edges ++ [e]) k =
  out_targets edges k ++ (if decide (source e = k) then [target e] else []).
Proof.
  unfold out_targets. rewrite filter_app, fmap_app. f_equal.
  rewrite filter_cons, filter_nil. by destruct (decide (source e = k)).
Qed.

Lemma build_adjacency_lookup (ids : list string) (edges : list arc)
    (adj : gmap string (list string)) (k : string) :
  build_adjacency ids edges = Some adj →
  adj !! k = if decide (k ∈ ids) then Some (out_targets edges k) else None.
Proof.
  unfold build_adjacency. revert adj.
  induction edges as [|e edges IH] using rev_ind; intros adj.
  - cbn. intros [= <-]. by rewrite init_adjacency_lookup.
  - rewrite foldl_snoc. unfold push_arc at 1.
    destruct (foldl push_arc _ edges) as [adj0|] eqn:E0; [|done].
    destruct (adj0 !! source e) as [l|] eqn:El; [|done].
    intros [= <-]. rewrite out_targets_snoc.
    destruct (decide (source e = k)) as [<-|Hne].
    + rewrite lookup_insert_eq. rewrite (IH adj0 eq_refl) in El.
      destruct (decide (source e ∈ ids)); [|done]. by injection El as <-.
    + rewrite lookup_insert_ne by done. rewrite (IH adj0 eq_refl).
      destruct (decide (k ∈ ids)); [|done]. by rewrite app_nil_r.
Qed.

Lemma build_adjacency_Some (ids : list string) (edges : list arc) :
  (∀ e, e ∈ edges → source e ∈ ids) → is_Some (build_adjacency ids edges).
Proof.
  unfold build_adjacency.
  induction edges as [|e edges IH] using rev_ind; intros Hsrc; [by eexists|].
  rewrite foldl_snoc. destruct IH as [adj0 E0]; [intros; apply Hsrc; set_solver|].
  rewrite E0. cbn. rewrite (build_adjacency_lookup ids edges adj0 _ E0).
  rewrite decide_True by (apply Hsrc; set_solver). by eexists.
Qed.

Definition all_targets (edges : list arc) : gset string :=
  list_to_set (target <$> edges).

Lemma adjacency_targets (ids : list string) (edges : list arc)
    (adj : gmap string (list string)) :
  build_adjacency ids edges = Some adj →
  ∀ k l x, adj !! k = Some l → x ∈ l → x ∈ all_targets edges.
Proof.
  intros Hb k l x Hk Hx. rewrite (build_adjacency_lookup _ _ _ k Hb) in Hk.
  destruct (decide (k ∈ ids)) as [Hin|]; [|done]. injection Hk as <-.
  unfold out_targets in Hx. apply list_elem_of_fmap in Hx as (e & -> & He).
  apply list_elem_of_filter in He as [_ He].
  unfold all_targets. apply elem_of_list_to_set, list_elem_of_fmap. eauto.
Qed.

Lemma adjacency_has_arc (ids : list string) (edges : list arc)
    (adj : gmap string (list string)) (e : arc) :
  build_adjacency ids edges = Some adj → e ∈ edges →
  target e ∈ default [] (adj !! source e).
Proof.
  intros Hb He.
  assert (source e ∈ ids) as Hin.
  { destruct (decide (source e ∈ ids)) as [|Hn]; [done|exfalso].
    revert adj Hb He. unfold build_adjacency.
    induction edges as [|e' edges IH] using rev_ind; intros adj Hb He; [set_solver|].
    rewrite foldl_snoc in Hb. unfold push_arc at 1 in Hb.
    destruct (foldl push_arc _ edges) as [adj0|] eqn:E0; [|done].
    destruct (adj0 !! source e') as [l|] eqn:El; [|done].
    apply elem_of_app in He as [He|He]; [by eapply IH|].
    apply list_elem_of_singleton in He as ->.
    rewrite (build_adjacency_lookup ids edges adj0 _ E0) in El.
    by rewrite decide_False in El. }
  rewrite (build_adjacency_lookup _ _ _ _ Hb), decide_True by done. cbn.
  unfold out_targets. apply list_elem_of_fmap. exists e. split; [done|].
  by apply list_elem_of_filter.
Qed.

Lemma size_list_to_set_le (l : list string) :
  (size (list_to_set l : gset string) ≤ length l)%nat.
Proof.
  induction l as [|x l IH]; cbn.
  - by rewrite size_empty.
  - rewrite size_union_alt, size_singleton.
    assert (size (list_to_set l ∖ {[x]} : gset string) ≤ size (list_to_set l : gset string))%nat
      by (apply subseteq_size; set_solver).
    lia.
Qed.

Lemma pending_le (T V : gset string) : (pending T V ≤ size T)%nat.
Proof. unfold pending. apply subseteq_size. set_solver. Qed.

Lemma all_targets_size (edges : list arc) : (size (all_targets edges) ≤ length edges)%nat.
Proof.
  unfold all_targets. etransitivity; [apply size_list_to_set_le|].
  by rewrite length_fmap.
Qed.


(** *** Invariant: recorded levels are non-negative and only visited ids
    have one *)

Definition levels_ok (lv : gmap string Z) (V : gset string) : Prop :=
  (∀ k v, lv !! k = Some v → 0 ≤ v) ∧ (∀ k, k ∉ V → lv !! k = None).

Lemma level_or0_nonneg (lv : gmap string Z) (V : gset string) (k : string) :
  levels_ok lv V → 0 ≤ level_or0 lv k.
Proof.
  intros [Hpos _]. unfold level_or0. destruct (lv !! k) eqn:E; [eauto | lia].
Qed.

Lemma level_or0_insert (lv : gmap string Z) (k k' : string) (v : Z) :
  level_or0 (<[k := v]> lv) k' = if decide (k = k') then v else level_or0 lv k'.
Proof.
  unfold level_or0. destruct (decide (k = k')) as [->|Hne].
  - by rewrite lookup_insert_eq.
  - by rewrite lookup_insert_ne.
Qed.

Lemma levels_ok_insert (lv : gmap string Z) (V : gset string) (k : string) (v : Z) :
  0 ≤ v → levels_ok lv V → levels_ok (<[k := v]> lv) ({[k]} ∪ V).
Proof.
  intros Hv [Hpos Hdom]. split.
  - intros k' v'. destruct (decide (k = k')) as [->|Hne].
    + rewrite lookup_insert_eq. by intros [= <-].
    + rewrite lookup_insert_ne by done. apply Hpos.
  - intros k' Hk'. rewrite lookup_insert_ne by set_solver. apply Hdom. set_solver.
Qed.

Lemma levels_ok_raise (lv : gmap string Z) (V : gset string) (k : string) (v : Z) :
  0 ≤ v → k ∈ V → levels_ok lv V → levels_ok (<[k := v]> lv) V.
Proof.
  intros Hv Hk Hok. replace V with ({[k]} ∪ V) by set_solver.
  by apply levels_ok_insert.
Qed.

Section HierStep.
Variable adj : gmap string (list string).

Definition hier_ok (s : bfs_state) : Prop := levels_ok (levels s) (visited s).

Lemma visit_neighbor_ok (c : Z) (s : bfs_state) (nb : string) :
  0 ≤ c → hier_ok s → hier_ok (visit_neighbor c s nb).
Proof.
  intros Hc Hok. unfold visit_neighbor, hier_ok in *.
  destruct (decide (nb ∈ visited s)) as [Hin|Hout].
  - destruct (_ <? _); [|done]. cbn. apply levels_ok_raise; [lia|done..].
  - cbn. apply levels_ok_insert; [lia|done].
Qed.

Lemma visit_neighbor_mono (c : Z) (s : bfs_state) (nb k : string) :
  0 ≤ c → hier_ok s →
  level_or0 (levels s) k ≤ level_or0 (levels (visit_neighbor c s nb)) k.
Proof.
  intros Hc Hok. unfold visit_neighbor.
  destruct (decide (nb ∈ visited s)) as [Hin|Hout].
  - destruct (Z.ltb_spec (level_or0 (levels s) nb) (c + 1)); [|lia].
    cbn. rewrite level_or0_insert. destruct (decide (nb = k)) as [<-|]; lia.
  - cbn. rewrite level_or0_insert. destruct (decide (nb = k)) as [<-|]; [|lia].
    unfold level_or0 at 1. destruct Hok as [_ Hdom]. rewrite (Hdom nb Hout). lia.
Qed.

Lemma visit_neighbor_raises (c : Z) (s : bfs_state) (nb : string) :
  c + 1 ≤ level_or0 (levels (visit_neighbor c s nb)) nb.
Proof.
  unfold visit_neighbor. destruct (decide (nb ∈ visited s)) as [Hin|Hout].
  - destruct (Z.ltb_spec (level_or0 (levels s) nb) (c + 1)); [|lia].
    cbn. rewrite level_or0_insert, decide_True by done. lia.
  - cbn. rewrite level_or0_insert, decide_True by done. lia.
Qed.

Lemma visit_all_ok (c : Z) (nbs : list string) (s : bfs_state) :
  0 ≤ c → hier_ok s →
  hier_ok (foldl (visit_neighbor c) s nbs)
  ∧ (∀ k, level_or0 (levels s) k ≤ level_or0 (levels (foldl (visit_neighbor c) s nbs)) k)
  ∧ (∀ nb, nb ∈ nbs → c + 1 ≤ level_or0 (levels (foldl (visit_neighbor c) s nbs)) nb).
Proof.
  intros Hc. induction nbs as [|nb nbs IH] using rev_ind; intros Hok.
  - cbn. split; [done|]. split; [intros; lia | set_solver].
  - destruct (IH Hok) as (Hok' & Hmono & Hraise). rewrite foldl_snoc.
    split; [by apply visit_neighbor_ok|]. split.
    + intros k. etransitivity; [apply Hmono|]. by apply visit_neighbor_mono.
    + intros x Hx. apply elem_of_app in Hx as [Hx|Hx].
      * etransitivity; [by apply Hraise|]. by apply visit_neighbor_mono.
      * apply list_elem_of_singleton in Hx as ->. apply visit_neighbor_raises.
Qed.

Lemma hier_step_ok (s s' : bfs_state) :
  hier_ok s → hier_step adj s = Some s' →
  hier_ok s'
  ∧ (∀ k, level_or0 (levels s) k ≤ level_or0 (levels s') k)
  ∧ (∀ u rest v, queue s = u :: rest → v ∈ default [] (adj !! u) →
       level_or0 (levels s) u + 1 ≤ level_or0 (levels s') v).
Proof.
  intros Hok. unfold hier_step. destruct (queue s) as [|cur rest] eqn:Q; [done|].
  intros [= <-].
  destruct (visit_all_ok (level_or0 (levels s) cur) (default [] (adj !! cur))
              (BfsState (levels s) (visited s) rest)) as (H1 & H2 & H3).
  - by eapply level_or0_nonneg.
  - done.
  - split; [done|]. split; [done|]. intros u rest' v [= <- <-]. apply H3.
Qed.

Definition hier_steps : relation bfs_state :=
  rtc (fun s s' => hier_step adj s = Some s').

Lemma hier_steps_ok (s s' : bfs_state) :
  hier_steps s s' → hier_ok s →
  hier_ok s' ∧ ∀ k, level_or0 (levels s) k ≤ level_or0 (levels s') k.
Proof.
  induction 1 as [s|s s1 s2 Hstep _ IH]; intros Hok.
  - split; [done|]. intros; lia.
  - destruct (hier_step_ok _ _ Hok Hstep) as (Hok1 & Hm1 & _).
    destruct (IH Hok1) as [Hok2 Hm2]. split; [done|].
    intros k. etransitivity; [apply Hm1 | apply Hm2].
Qed.

Lemma hier_loop_steps (fuel : nat) (s fin : bfs_state) :
  hier_loop fuel adj s = Some fin → hier_steps s fin ∧ queue fin = [].
Proof.
  revert s. induction fuel as [|fuel IH]; intros s; [done|]. cbn.
  destruct (hier_step adj s) as [s'|] eqn:E.
  - intros Hl. destruct (IH _ Hl) as [Hr Hq]. split; [|done].
    by eapply rtc_l.
  - intros [= <-]. split; [constructor|].
    unfold hier_step in E. by destruct (queue s).
Qed.

Lemma hier_loop_resume (s0 s fin : bfs_state) :
  hier_steps s0 s → ∀ fuel, hier_loop fuel adj s0 = Some fin →
  ∃ fuel', hier_loop fuel' adj s = Some fin.
Proof.
  induction 1 as [s|s0 s1 s Hstep _ IH]; intros fuel Hl; [eauto|].
  destruct fuel as [|fuel]; [done|]. cbn in Hl. rewrite Hstep in Hl. eauto.
Qed.
End HierStep.


Section RadialStep.
Variable adj : gmap string (list string).

Definition radial_ok (s : rbfs_state) : Prop :=
  levels_ok (rlevels s) (rvisited s) ∧ ∀ k l, (k, l) ∈ rqueue s → 0 ≤ l.

Lemma rvisit_neighbor_ok (c : Z) (s : rbfs_state) (nb : string) :
  0 ≤ c → radial_ok s → radial_ok (rvisit_neighbor c s nb).
Proof.
  intros Hc [Hok Hq]. unfold rvisit_neighbor, radial_ok.
  destruct (decide (nb ∈ rvisited s)) as [Hin|Hout].
  - destruct (_ <? _); [|done]. cbn. split; [|done].
    apply levels_ok_raise; [lia|done..].
  - cbn. split; [apply levels_ok_insert; [lia|done]|].
    intros k l Hkl. apply elem_of_app in Hkl as [Hkl|Hkl]; [eauto|].
    apply list_elem_of_singleton in Hkl as [= -> ->]. lia.
Qed.

Lemma rvisit_all_ok (c : Z) (nbs : list string) (s : rbfs_state) :
  0 ≤ c → radial_ok s → radial_ok (foldl (rvisit_neighbor c) s nbs).
Proof.
  intros Hc. revert s. induction nbs as [|nb nbs IH]; intros s Hok; [done|].
  cbn. apply IH. by apply rvisit_neighbor_ok.
Qed.

Lemma radial_step_ok (s s' : rbfs_state) :
  radial_ok s → radial_step adj s = Some s' → radial_ok s'.
Proof.
  intros [Hok Hq]. unfold radial_step.
  destruct (rqueue s) as [|[cur lv] rest] eqn:Q; [done|]. intros [= <-].
  apply rvisit_all_ok.
  - apply (Hq cur). set_solver.
  - split; [done|]. cbn. intros k l Hkl. apply (Hq k). set_solver.
Qed.

Lemma radial_loop_ok (fuel : nat) (s fin : rbfs_state) :
  radial_ok s → radial_loop fuel adj s = Some fin → radial_ok fin.
Proof.
  revert s. induction fuel as [|fuel IH]; intros s Hok; [done|]. cbn.
  destruct (radial_step adj s) as [s'|] eqn:E.
  - apply IH. by eapply radial_step_ok.
  - by intros [= <-].
Qed.
End RadialStep.

(** *** The seeded state of hierarchicalLayout *)

Lemma find_roots_nonempty (ids : list string) (edges : list arc) :
  ids ≠ [] →
  ∃ rs, find_roots ids edges = Some <$> rs ∧ (length rs ≤ length ids)%nat.
Proof.
  intros Hne. unfold find_roots.
  destruct (filter _ ids) as [|r rs] eqn:E.
  - destruct ids as [|x ids]; [done|]. exists [x]. cbn. split; [done|lia].
  - exists (r :: rs). split; [done|]. rewrite <- E. apply length_filter.
Qed.

Lemma find_roots_empty (edges : list arc) : find_roots [] edges = [None].
Proof. done. Qed.

Lemma seed_roots_Some (rs : list string) :
  ∃ s, seed_roots (Some <$> rs) = Some s ∧ queue s = rs ∧ hier_ok s.
Proof.
  unfold seed_roots. induction rs as [|r rs IH] using rev_ind.
  - eexists. split; [done|]. split; [done|]. split; [|done].
    cbn. intros k v. by rewrite lookup_empty.
  - destruct IH as (s & E & Q & Hok). rewrite fmap_app, foldl_app, E. cbn.
    eexists. split; [done|]. cbn. split; [by rewrite Q|].
    by apply levels_ok_insert.
Qed.

Lemma hier_run_returns (ids : list string) (edges : list arc) (fuel : nat)
    (adj : gmap string (list string)) (s0 : bfs_state) :
  (leveling_fuel ids edges ≤ fuel)%nat →
  build_adjacency ids edges = Some adj →
  (length (queue s0) ≤ length ids)%nat → hier_ok s0 →
  ∃ fin, hier_loop fuel adj s0 = Some fin ∧ hier_ok fin.
Proof.
  intros Hfuel Hb Hq Hok. unfold leveling_fuel in Hfuel.
  pose proof (all_targets_size edges) as HT.
  destruct (hier_loop_terminates adj (all_targets edges)
              (adjacency_targets _ _ _ Hb) fuel s0) as [fin Hfin].
  { unfold hmeasure. pose proof (pending_le (all_targets edges) (visited s0)). lia. }
  exists fin. split; [done|].
  destruct (hier_loop_steps _ _ _ _ Hfin) as [Hsteps _].
  by destruct (hier_steps_ok _ _ _ Hsteps Hok).
Qed.

Lemma radial_run_returns (ids : list string) (edges : list arc) (fuel : nat)
    (adj : gmap string (list string)) (center : string) :
  (leveling_fuel ids edges ≤ fuel)%nat →
  build_adjacency ids edges = Some adj →
  ∃ fin, radial_loop fuel adj (RbfsState {[center := 0]} {[center]} [(center, 0)])
         = Some fin
         ∧ radial_ok fin.
Proof.
  intros Hfuel Hb. unfold leveling_fuel in Hfuel.
  pose proof (all_targets_size edges) as HT.
  destruct (radial_loop_terminates adj (all_targets edges)
              (adjacency_targets _ _ _ Hb) fuel
              (RbfsState {[center := 0]} {[center]} [(center, 0)])) as [fin Hfin].
  { unfold rmeasure. cbn.
    pose proof (pending_le (all_targets edges) {[center]}). lia. }
  exists fin. split; [done|]. eapply radial_loop_ok; [|done].
  split; cbn.
  - split.
    + intros k v Hk. apply lookup_singleton_Some in Hk as [_ <-]. lia.
    + intros k Hk. apply lookup_singleton_ne. set_solver.
  - intros k l Hkl. apply list_elem_of_singleton in Hkl as [= -> ->]. lia.
Qed.

(** On a graph with at least one node whose edges all leave nodes, the
    level computations return, with non-negative levels. *)
Lemma hierarchical_levels_returns (ids : list string) (edges : list arc) (fuel : nat) :
  (leveling_fuel ids edges ≤ fuel)%nat → ids ≠ [] →
  (∀ e, e ∈ edges → source e ∈ ids) →
  ∃ lv, hierarchical_levels fuel ids edges = Returned lv
        ∧ ∀ k, 0 ≤ level_or0 lv k.
Proof.
  intros Hfuel Hne Hsrc. destruct (build_adjacency_Some ids edges Hsrc) as [adj Hb].
  destruct (find_roots_nonempty ids edges Hne) as (rs & Hrs & Hlen).
  destruct (seed_roots_Some rs) as (s0 & Hs & Hq & Hok).
  destruct (hier_run_returns ids edges fuel adj s0) as (fin & Hfin & Hokf);
    [done|done|by rewrite Hq|done|].
  unfold hierarchical_levels. rewrite Hb, Hrs, Hs, Hfin.
  eexists. split; [done|]. intros k. by eapply level_or0_nonneg.
Qed.

Lemma radial_levels_returns (ids : list string) (edges : list arc) (fuel : nat)
    (center : string) :
  (leveling_fuel ids edges ≤ fuel)%nat →
  (∀ e, e ∈ edges → source e ∈ ids) →
  ∃ lv, radial_levels fuel center ids edges = Returned lv
        ∧ ∀ k, 0 ≤ level_or0 lv k.
Proof.
  intros Hfuel Hsrc. destruct (build_adjacency_Some ids edges Hsrc) as [adj Hb].
  destruct (radial_run_returns ids edges fuel adj center Hfuel Hb) as (fin & Hfin & [Hokf _]).
  unfold radial_levels. rewrite Hb, Hfin.
  eexists. split; [done|]. intros k. by eapply level_or0_nonneg.
Qed.


(** Scenario D: the 3-node cycle A→B→C→A. *)
Definition cycle3_ids : list string := ["A"; "B"; "C"]%string.
Definition cycle3_edges : list arc :=
  [Arc "A" "B"; Arc "B" "C"; Arc "C" "A"]%string.



(** No node of the cycle has in-degree zero, so the traversal starts from
    the first node; its own level is raised when the cycle closes. *)
Example cycle3_hierarchical_levels :
  ∃ lv, hierarchical_levels 8 cycle3_ids cycle3_edges = Returned lv
        ∧ level_or0 lv "A" = 3 ∧ level_or0 lv "B" = 1 ∧ level_or0 lv "C" = 2.
Proof. eexists. split; [vm_compute; reflexivity|]. by vm_compute. Qed.

Example cycle3_radial_levels :
  ∃ lv, radial_levels 8 "A" cycle3_ids cycle3_edges = Returned lv
        ∧ level_or0 lv "A" = 3 ∧ level_or0 lv "B" = 1 ∧ level_or0 lv "C" = 2.
Proof. eexists. split; [vm_compute; reflexivity|]. by vm_compute. Qed.

(** hierarchicalLayout pushes [nodes[0]] as a root when there is none; with
    no node at all that is [undefined], and reading its [id] throws. *)
Example hierarchical_levels_no_node : hierarchical_levels 8 [] [] = Thrown.
Proof. reflexivity. Qed.

(** *** C1: what the final levels guarantee *)

(** A→B, A→C, C→B, B→D: B is dequeued at level 1 and gives D level 2; B is
    then raised to 2 through C, and D is not revisited. *)
Definition diamond_ids : list string := ["A"; "B"; "C"; "D"]%string.
Definition diamond_edges : list arc :=
  [Arc "A" "B"; Arc "A" "C"; Arc "C" "B"; Arc "B" "D"]%string.

(** C1 as stated fails: D is reached only through the edge B→D, yet its
    final level is not above B's. *)
Lemma hierarchical_levels_not_longest_path :
  ∃ lv, hierarchical_levels (leveling_fuel diamond_ids diamond_edges)
          diamond_ids diamond_edges = Returned lv
        ∧ Arc "B" "D" ∈ diamond_edges
        ∧ (∀ e, e ∈ diamond_edges → target e = "D"%string → source e = "B"%string)
        ∧ level_or0 lv "B" = 2 ∧ level_or0 lv "D" = 2
        ∧ ¬ (level_or0 lv "B" + 1 ≤ level_or0 lv "D").
Proof.
  eexists. split; [vm_compute; reflexivity|].
  split; [unfold diamond_edges; set_solver|]. split.
  - intros e He. unfold diamond_edges in He.
    repeat (apply elem_of_cons in He as [->|He]; [by cbn|]). set_solver.
  - by vm_compute.
Qed.

(** C1 (amended): whenever the traversal dequeues [u], every edge u→v leaves
    [v] with a final level of at least one more than the level [u] held at
    that moment; levels never decrease afterwards, so [u] itself may end
    higher. *)
Theorem hierarchical_levels_dequeue_bound (ids : list string) (edges : list arc)
    (fuel : nat) (adj : gmap string (list string)) (s0 s : bfs_state)
    (lv : gmap string Z) (u : string) (rest : list string) (e : arc) :
  build_adjacency ids edges = Some adj →
  seed_roots (find_roots ids edges) = Some s0 →
  hierarchical_levels fuel ids edges = Returned lv →
  hier_steps adj s0 s →
  queue s = u :: rest →
  e ∈ edges → source e = u →
  level_or0 (levels s) u ≤ level_or0 lv u
  ∧ level_or0 (levels s) u + 1 ≤ level_or0 lv (target e).
Proof.
  intros Hb Hs Hlv Hreach Hq He Hsrc.
  unfold hierarchical_levels in Hlv. rewrite Hb, Hs in Hlv.
  destruct (hier_loop fuel adj s0) as [fin|] eqn:Hfin; [|done].
  injection Hlv as <-.
  assert (hier_ok s0) as Hok0.
  { destruct ids as [|x ids']; [by rewrite find_roots_empty in Hs|].
    destruct (find_roots_nonempty (x :: ids') edges) as (rs & Hrs & _); [done|].
    destruct (seed_roots_Some rs) as (s0' & Hs' & _ & Hok).
    rewrite Hrs, Hs' in Hs. by injection Hs as <-. }
  destruct (hier_steps_ok _ _ _ Hreach Hok0) as [Hok _].
  destruct (hier_loop_resume _ _ _ _ Hreach _ Hfin) as [fuel' Hfin'].
  destruct fuel' as [|fuel']; [done|]. cbn in Hfin'.
  destruct (hier_step adj s) as [s1|] eqn:Hstep;
    [|unfold hier_step in Hstep; by rewrite Hq in Hstep].
  destruct (hier_step_ok _ _ _ Hok Hstep) as (Hok1 & Hm1 & Hraise).
  destruct (hier_loop_steps _ _ _ _ Hfin') as [Hsteps _].
  destruct (hier_steps_ok _ _ _ Hsteps Hok1) as [_ Hm2].
  split.
  - etransitivity; [apply Hm1 | apply Hm2].
  - etransitivity; [|apply Hm2]. apply (Hraise u rest); [done|].
    rewrite <- Hsrc. by eapply adjacency_has_arc.
Qed.

Lemma hierarchical_levels_dequeue_bound_diamond :
  ∃ lv, hierarchical_levels 10 diamond_ids diamond_edges = Returned lv
        ∧ 1 ≤ level_or0 lv "B" ∧ 1 + 1 ≤ level_or0 lv "D".
Proof.
  pose (s0 := BfsState {["A"%string := 0]} {["A"%string]} ["A"%string]).
  pose (s1 := BfsState (<["C"%string := 1]> (<["B"%string := 1]> {["A"%string := 0]}))
                ({["C"%string]} ∪ ({["B"%string]} ∪ {["A"%string]}))
                ["B"; "C"]%string).
  destruct (hierarchical_levels 10 diamond_ids diamond_edges) as [lv| |] eqn:E;
    [|by vm_compute in E..].
  exists lv. split; [reflexivity|].
  refine (hierarchical_levels_dequeue_bound diamond_ids diamond_edges 10
            _ s0 s1 lv "B" ["C"%string] (Arc "B" "D") _ _ E _ _ _ _).
  - vm_compute. reflexivity.
  - vm_compute. reflexivity.
  - eapply rtc_l; [|apply rtc_refl]. vm_compute. reflexivity.
  - reflexivity.
  - unfold diamond_edges. set_solver.
  - reflexivity.
Defined.

End LevelingFacts.
(** ** Properties of the matcher *)

Module JsFacts.
Import Js.

(** [t] occurs in [s] as a contiguous run. *)
Definition infix (t s : str) : Prop := ∃ a b, s = a ++ t ++ b.

Lemma infix_refl (s : str) : infix s s.
Proof. exists [], []. by rewrite app_nil_r. Qed.

Lemma infix_trans (a b c : str) : infix a b → infix b c → infix a c.
Proof.
  intros (x & y & ->) (x' & y' & ->). exists (x' ++ x), (y ++ y').
  by rewrite <- !app_assoc.
Qed.

Lemma infix_app_l (t a b : str) : infix t a → infix t (a ++ b).
Proof. intros (x & y & ->). exists x, (y ++ b). by rewrite <- !app_assoc. Qed.

Lemma infix_app_r (t a b : str) : infix t b → infix t (a ++ b).
Proof. intros (x & y & ->). exists (a ++ x), y. by rewrite <- !app_assoc. Qed.

Lemma infix_cons_r (t : str) (a : ascii) (b : str) : infix t b → infix t (a :: b).
Proof. apply (infix_app_r t [a] b). Qed.

(** What a successful match consumed and captured, without the order in
    which alternatives were tried: [matches r w rest c c'] says that [r] can
    consume [w] in front of [rest], turning captures [c] into [c']. *)
Inductive matches : regex → str → str → caps → caps → Prop :=
  | M_eps rest c : matches Eps [] rest c c
  | M_chr p a rest c : p a = true → matches (Chr p) [a] rest c c
  | M_seq r1 r2 w1 w2 rest c c1 c2 :
      matches r1 w1 (w2 ++ rest) c c1 → matches r2 w2 rest c1 c2 →
      matches (Seq r1 r2) (w1 ++ w2) rest c c2
  | M_alt_l r1 r2 w rest c c' :
      matches r1 w rest c c' → matches (Alt r1 r2) w rest c c'
  | M_alt_r r1 r2 w rest c c' :
      matches r2 w rest c c' → matches (Alt r1 r2) w rest c c'
  | M_rep greedy min p w rest c :
      forallb p w = true → (min ≤ length w)%nat →
      matches (Rep greedy min p) w rest c c
  | M_group n r w rest c c' :
      matches r w rest c c' → matches (Group n r) w rest c ((n, w) :: c')
  | M_eol rest c : at_eol rest = true → matches Eol [] rest c c.

Section Soundness.
Context {X : Type}.

Lemma rep_greedy_sound (p : ascii → bool) (k : str → option X) (s : str) :
  ∀ (min : nat) (x : X), rep_greedy p k min s = Some x →
  ∃ w rest, s = w ++ rest ∧ forallb p w = true ∧ (min ≤ length w)%nat
            ∧ k rest = Some x.
Proof.
  induction s as [|a s IH]; intros min x; cbn.
  - destruct min; [|done]. intros Hk. exists [], []. by repeat split.
  - destruct (p a) eqn:Hp.
    + destruct (rep_greedy p k (Nat.pred min) s) as [y|] eqn:E.
      * intros [= <-]. destruct (IH _ _ E) as (w & rest & -> & Hw & Hmin & Hk).
        exists (a :: w), rest. cbn. rewrite Hp, Hw. repeat split; [lia|done].
      * destruct min; [|done]. intros Hk. exists [], (a :: s). by repeat split.
    + destruct min; [|done]. intros Hk. exists [], (a :: s). by repeat split.
Qed.

Lemma rep_lazy_sound (p : ascii → bool) (k : str → option X) (s : str) :
  ∀ (min : nat) (x : X), rep_lazy p k min s = Some x →
  ∃ w rest, s = w ++ rest ∧ forallb p w = true ∧ (min ≤ length w)%nat
            ∧ k rest = Some x.
Proof.
  induction s as [|a s IH]; intros min x; cbn.
  - destruct min; [|done]. destruct (k []) eqn:Hk; [|done].
    intros [= <-]. exists [], []. by repeat split.
  - assert ((if p a then rep_lazy p k (Nat.pred min) s else None) = Some x →
            ∃ w rest, a :: s = w ++ rest ∧ forallb p w = true
                      ∧ (min ≤ length w)%nat ∧ k rest = Some x) as Hmore.
    { destruct (p a) eqn:Hp; [|done]. intros E.
      destruct (IH _ _ E) as (w & rest & -> & Hw & Hmin & Hk).
      exists (a :: w), rest. cbn. rewrite Hp, Hw. repeat split; [lia|done]. }
    destruct min; [|done].
    destruct (k (a :: s)) eqn:Hk; [|done].
    intros [= <-]. exists [], (a :: s). by repeat split.
Qed.

Lemma run_k_sound (r : regex) :
  ∀ (k : str → caps → option X) (s : str) (c : caps) (x : X),
  run_k r k s c = Some x →
  ∃ w rest c', s = w ++ rest ∧ matches r w rest c c' ∧ k rest c' = Some x.
Proof.
  induction r as [|p|r1 IH1 r2 IH2|r1 IH1 r2 IH2|greedy min p|n r IH|];
    intros k s c x; cbn.
  - intros Hk. exists [], s, c. repeat split; [constructor|done].
  - destruct s as [|a s]; [done|]. destruct (p a) eqn:Hp; [|done].
    intros Hk. exists [a], s, c. repeat split; [by constructor|done].
  - intros H. destruct (IH1 _ _ _ _ H) as (w1 & rest1 & c1 & -> & M1 & H2).
    destruct (IH2 _ _ _ _ H2) as (w2 & rest & c2 & -> & M2 & Hk).
    exists (w1 ++ w2), rest, c2. rewrite <- app_assoc.
    repeat split; [by econstructor|done].
  - destruct (run_k r1 k s c) as [y|] eqn:E.
    + intros [= <-]. destruct (IH1 _ _ _ _ E) as (w & rest & c' & -> & M & Hk).
      exists w, rest, c'. repeat split; [by apply M_alt_l|done].
    + intros E2. destruct (IH2 _ _ _ _ E2) as (w & rest & c' & -> & M & Hk).
      exists w, rest, c'. repeat split; [by apply M_alt_r|done].
  - intros H.
    assert (∃ w rest, s = w ++ rest ∧ forallb p w = true ∧ (min ≤ length w)%nat
                      ∧ k rest c = Some x) as (w & rest & -> & Hw & Hmin & Hk).
    { destruct greedy; [by apply rep_greedy_sound in H | by apply rep_lazy_sound in H]. }
    exists w, rest, c. repeat split; [by constructor|done].
  - intros H. destruct (IH _ _ _ _ H) as (w & rest & c' & -> & M & Hk).
    rewrite length_app in Hk.
    replace (length w + length rest - length rest)%nat with (length w) in Hk by lia.
    rewrite take_app_length in Hk.
    exists w, rest, ((n, w) :: c'). repeat split; [by constructor|done].
  - destruct (at_eol s) eqn:E; [|done]. intros Hk.
    exists [], s, c. repeat split; [by constructor|done].
Qed.
End Soundness.

Lemma run_sound (r : regex) (s rest : str) (c : caps) :
  run r s = Some (rest, c) → ∃ w, s = w ++ rest ∧ matches r w rest [] c.
Proof.
  intros H. apply run_k_sound in H as (w & rest' & c' & -> & M & [= -> ->]).
  by exists w.
Qed.

(** The shortest word a pattern can consume. *)
Fixpoint min_len (r : regex) : nat :=
  match r with
  | Eps | Eol => 0
  | Chr _ => 1
  | Seq r1 r2 => min_len r1 + min_len r2
  | Alt r1 r2 => Nat.min (min_len r1) (min_len r2)
  | Rep _ min _ => min
  | Group _ r' => min_len r'
  end.

Lemma matches_min_len (r : regex) (w rest : str) (c c' : caps) :
  matches r w rest c c' → (min_len r ≤ length w)%nat.
Proof.
  induction 1; cbn; try rewrite length_app; lia.
Qed.

(** Every capture present after a match was there before or is a piece of
    the consumed word. *)
Lemma matches_caps (r : regex) (w rest : str) (c c' : caps) :
  matches r w rest c c' →
  ∀ n t, cap_get n c' = Some t → cap_get n c = Some t ∨ infix t w.
Proof.
  induction 1 as [| |r1 r2 w1 w2 rest c c1 c2 _ IH1 _ IH2| | | |n r w rest c c' _ IH|];
    intros m t Hm; auto.
  - destruct (IH2 _ _ Hm) as [Hc1|Hin]; [|right; by apply infix_app_r].
    destruct (IH1 _ _ Hc1) as [Hc|Hin]; [by left|right; by apply infix_app_l].
  - unfold cap_get in Hm. cbn in Hm. destruct (Nat.eqb n m) eqn:E.
    + injection Hm as <-. right. apply infix_refl.
    + by apply IH.
Qed.

(** *** The scanning loops *)

(** A pattern that cannot match the empty word always advances
    [lastIndex], so the [while (exec)] loop ends. *)
Lemma exec_all_from_total (r : regex) (s : str) :
  (1 ≤ min_len r)%nat → ∀ i skip, is_Some (exec_all_from r i skip s).
Proof.
  intros Hmin. induction s as [|a s IH]; intros i skip.
  - destruct skip; cbn; [|by eexists].
    destruct (run r []) as [[rest c]|] eqn:E; [|by eexists].
    apply run_sound in E as (w & Hw & M). apply matches_min_len in M.
    symmetry in Hw. apply app_eq_nil in Hw as [-> ->]. cbn in M. lia.
  - destruct skip; [|cbn; apply IH]. cbn [exec_all_from].
    destruct (run r (a :: s)) as [[rest c]|] eqn:E; [|apply IH].
    apply run_sound in E as (w & Hw & M). apply matches_min_len in M.
    assert ((length (a :: s) - length rest)%nat = length w) as ->
      by (rewrite Hw, length_app; lia).
    destruct (length w) as [|n] eqn:El; [lia|].
    destruct (IH (S i) n) as [ms ->]. by eexists.
Qed.

(** Each reported match is a run of the matcher on a suffix of the text,
    and its index is where that suffix starts. *)
Lemma exec_all_from_sound (r : regex) (s : str) :
  ∀ i skip ms m, exec_all_from r i skip s = Some ms → m ∈ ms →
  ∃ pre suf rest, s = pre ++ suf ∧ run r suf = Some (rest, m_groups m)
                  ∧ m_index m = (i + length pre)%nat
                  ∧ suf = m_whole m ++ rest.
Proof.
  induction s as [|a s IH]; intros i skip ms m.
  - destruct skip; cbn.
    + destruct (run r []) as [[rest c]|]; [done|]. intros [= <-]. set_solver.
    + intros [= <-]. set_solver.
  - assert (∀ i' skip' ms', exec_all_from r i' skip' s = Some ms' → m ∈ ms' →
              i' = S i →
              ∃ pre suf rest, a :: s = pre ++ suf ∧ run r suf = Some (rest, m_groups m)
                  ∧ m_index m = (i + length pre)%nat ∧ suf = m_whole m ++ rest) as Htail.
    { intros i' skip' ms' E Hm ->.
      destruct (IH _ _ _ _ E Hm) as (pre & suf & rest & -> & Hrun & Hidx & Hsuf).
      exists (a :: pre), suf, rest. cbn. repeat split; [done|lia|done]. }
    destruct skip; [|cbn; by eauto]. cbn [exec_all_from].
    destruct (run r (a :: s)) as [[rest c]|] eqn:E; [|by eauto].
    destruct (length (a :: s) - length rest)%nat as [|n] eqn:El; [done|].
    destruct (exec_all_from r (S i) n s) as [ms'|] eqn:E'; [|done].
    cbn. intros [= <-] Hm. apply elem_of_cons in Hm as [->|Hm]; [|by eauto].
    exists [], (a :: s), rest. cbn. repeat split; [done|lia|].
    apply run_sound in E as (w & Hw & _).
    assert (take (S n) (a :: s) = w) as Ht.
    { rewrite Hw, length_app in El. rewrite Hw.
      replace (S n) with (length w) by lia. apply take_app_length. }
    change (a :: s = take (S n) (a :: s) ++ rest). by rewrite Ht.
Qed.

End JsFacts.

(** ** Properties of the parser *)

Module ParserFacts.
Import Js JsFacts Parser.

Ltac inv_matches :=
  repeat match goal with
  | H : matches Eps _ _ _ _ |- _ => inversion H; subst; clear H
  | H : matches Eol _ _ _ _ |- _ => inversion H; subst; clear H
  | H : matches (Chr _) _ _ _ _ |- _ => inversion H; subst; clear H
  | H : matches (Rep _ _ _) _ _ _ _ |- _ => inversion H; subst; clear H
  | H : matches (Group _ _) _ _ _ _ |- _ => inversion H; subst; clear H
  | H : matches (Seq _ _) _ _ _ _ |- _ => inversion H; subst; clear H
  | H : matches (Alt _ _) _ _ _ _ |- _ => inversion H; subst; clear H
  end.

Lemma nonempty_of_length (w : str) : (1 ≤ length w)%nat → ∃ a w', w = a :: w'.
Proof. destruct w; cbn; [lia|eauto]. Qed.

(** *** The loops always end *)

Lemma obind_not_OutOfFuel {A B : Type} (c : outcome A) (f : A → outcome B) :
  c ≠ OutOfFuel → (∀ a, f a ≠ OutOfFuel) → obind c f ≠ OutOfFuel.
Proof. destruct c; cbn; auto. Qed.

Lemma foldl_not_OutOfFuel {A M : Type} (step : outcome A → M → outcome A)
    (ms : list M) (acc : outcome A) :
  (∀ acc m, acc ≠ OutOfFuel → step acc m ≠ OutOfFuel) →
  acc ≠ OutOfFuel → foldl step acc ms ≠ OutOfFuel.
Proof.
  intros Hstep. revert acc. induction ms as [|m ms IH]; intros acc Hacc; [done|].
  cbn. apply IH. by apply Hstep.
Qed.

Lemma attr_step_not_OutOfFuel (acc : outcome attrs) (m : rmatch) :
  acc ≠ OutOfFuel → attr_step acc m ≠ OutOfFuel.
Proof.
  intros Hacc. unfold attr_step. apply obind_not_OutOfFuel; [done|]. intros a.
  by destruct (str_or (group 1 m) (group 3 m)), (str_or (group 2 m) (group 4 m)).
Qed.

Lemma parseAttributes_not_OutOfFuel (t : str) : parseAttributes t ≠ OutOfFuel.
Proof.
  unfold parseAttributes. destruct t as [|a t]; [done|].
  destruct (exec_all_from_total attrPattern (a :: t)) with (i := 0%nat) (skip := 0%nat)
    as [ms Hms]; [cbn; lia|].
  unfold exec_all. rewrite Hms.
  apply foldl_not_OutOfFuel; [apply attr_step_not_OutOfFuel|done].
Qed.

Lemma node_def_step_not_OutOfFuel (cleaned : str) (acc : outcome def_state) (m : rmatch) :
  acc ≠ OutOfFuel → node_def_step cleaned acc m ≠ OutOfFuel.
Proof.
  intros Hacc. unfold node_def_step. apply obind_not_OutOfFuel; [done|]. intros st.
  destruct (str_or _ (group 1 m)); [|done].
  repeat (match goal with |- context [if ?b then _ else _] => destruct b end; try done).
  - apply obind_not_OutOfFuel; [apply parseAttributes_not_OutOfFuel|].
    intros a. by destruct (map_get _ _).
Qed.

Lemma edge_step_not_OutOfFuel (acc : outcome edge_state) (m : rmatch) :
  acc ≠ OutOfFuel → edge_step acc m ≠ OutOfFuel.
Proof.
  intros Hacc. unfold edge_step. apply obind_not_OutOfFuel; [done|]. intros st.
  destruct (str_or _ (group 1 m)); [|done].
  destruct (str_or _ (group 4 m)); [|done].
  apply obind_not_OutOfFuel; [apply parseAttributes_not_OutOfFuel|done].
Qed.

Lemma nodeDefPattern_total (s : str) : is_Some (exec_all nodeDefPattern s).
Proof. apply exec_all_from_total. cbn. lia. Qed.

Lemma edgePattern_total (isDirected : bool) (s : str) :
  is_Some (exec_all (edgePattern isDirected) s).
Proof. apply exec_all_from_total. destruct isDirected; cbn; lia. Qed.

Lemma parse_not_OutOfFuel (text : string) : parseDotToReactFlow text ≠ OutOfFuel.
Proof.
  unfold parseDotToReactFlow.
  destruct (nodeDefPattern_total (clean (to_str text))) as [defs ->].
  apply obind_not_OutOfFuel.
  - apply foldl_not_OutOfFuel; [apply node_def_step_not_OutOfFuel|done].
  - intros ds.
    destruct (edgePattern_total (is_directed (strip_comments (to_str text)))
                (clean (to_str text))) as [ems ->].
    apply obind_not_OutOfFuel; [|done].
    apply foldl_not_OutOfFuel; [apply edge_step_not_OutOfFuel|done].
Qed.


(** *** When parseAttributes throws *)

(** Two adjacent double quotes: an empty quoted value. *)
Definition empty_quotes : str := [dquote; dquote].

Lemma is_char_eq (c a : ascii) : is_char c a = true → a = c.
Proof. unfold is_char. apply Ascii.eqb_eq. Qed.

(** A match of [attrPattern] either took the quoted alternative (groups 1
    and 2) or the bare one (groups 3 and 4, both non-empty). *)
Lemma attr_match_groups (w rest : str) (c : caps) :
  matches attrPattern w rest [] c →
  (∃ key v, cap_get 1 c = Some key ∧ key ≠ [] ∧ cap_get 2 c = Some v
            ∧ (v = [] → infix empty_quotes w))
  ∨ (∃ key v, cap_get 1 c = None ∧ cap_get 2 c = None
              ∧ cap_get 3 c = Some key ∧ key ≠ []
              ∧ cap_get 4 c = Some v ∧ v ≠ []).
Proof.
  unfold attrPattern, Star, Plus. cbn [seqs]. intros M. inv_matches.
  - left. exists w1, w3. repeat split; [|intros ->].
    + intros ->. cbn in *. lia.
    + apply is_char_eq in H1 as ->. apply is_char_eq in H2 as ->.
      exists (w1 ++ w0 ++ [a] ++ w2), []. by rewrite <- !app_assoc.
  - right. exists w1, w3. repeat split.
    + intros ->. cbn in *. lia.
    + intros ->. cbn in *. lia.
Qed.

Lemma attr_step_returns (a : attrs) (m : rmatch) (w rest : str) :
  matches attrPattern w rest [] (m_groups m) → ¬ infix empty_quotes w →
  ∃ a', attr_step (Returned a) m = Returned a'.
Proof.
  intros M Hno. unfold attr_step, group. cbn.
  destruct (attr_match_groups _ _ _ M)
    as [(key & v & -> & Hk & -> & Hv)|(key & v & -> & -> & -> & Hk & -> & Hv)].
  - destruct key as [|k0 key]; [done|]. destruct v as [|v0 v]; [by destruct Hno; auto|].
    cbn. by eexists.
  - destruct key as [|k0 key]; [done|]. destruct v as [|v0 v]; [done|].
    cbn. by eexists.
Qed.

Lemma foldl_returns {A M : Type} (step : outcome A → M → outcome A) (ms : list M) :
  (∀ m a, m ∈ ms → ∃ a', step (Returned a) m = Returned a') →
  ∀ a, ∃ a', foldl step (Returned a) ms = Returned a'.
Proof.
  induction ms as [|m ms IH]; intros Hstep a; [by eexists|].
  cbn. destruct (Hstep m a) as [a' ->]; [set_solver|].
  apply IH. intros; apply Hstep. set_solver.
Qed.

(** What [exec_all] reports, in terms of [matches]. *)
Lemma exec_all_matches (r : regex) (s : str) (ms : list rmatch) (m : rmatch) :
  exec_all r s = Some ms → m ∈ ms →
  ∃ rest, matches r (m_whole m) rest [] (m_groups m)
          ∧ infix (m_whole m) s
          ∧ ∃ pre, s = pre ++ m_whole m ++ rest ∧ m_index m = length pre.
Proof.
  intros E Hm.
  destruct (exec_all_from_sound _ _ _ _ _ _ E Hm) as (pre & suf & rest & -> & Hrun & Hi & ->).
  apply run_sound in Hrun as (w & Hw & M). apply app_inv_tail in Hw as <-.
  exists rest. split; [done|]. split; [by exists pre, rest|].
  exists pre. split; [done|]. by rewrite Hi.
Qed.

Lemma parseAttributes_returns (t : str) :
  ¬ infix empty_quotes t → ∃ a, parseAttributes t = Returned a.
Proof.
  intros Hno. unfold parseAttributes. destruct t as [|c t]; [by eexists|].
  destruct (exec_all_from_total attrPattern (c :: t)) with (i := 0%nat) (skip := 0%nat)
    as [ms Hms]; [cbn; lia|].
  unfold exec_all in *. rewrite Hms. apply foldl_returns. intros m a Hm.
  destruct (exec_all_matches _ _ _ _ Hms Hm) as (rest & M & Hin & _).
  eapply attr_step_returns; [done|]. intros Hq. apply Hno. by eapply infix_trans.
Qed.

(** The identifier groups of [nodeDefPattern] and [edgePattern]. *)
Lemma str_or_defined (a : option str) (k : str) :
  k ≠ [] → ∃ v, str_or a (Some k) = Some v.
Proof.
  intros Hk. destruct a as [[|a0 a]|]; cbn; eauto.
Qed.

Lemma nodeDef_match_groups (w rest : str) (c : caps) :
  matches nodeDefPattern w rest [] c →
  (∃ k, cap_get 1 c = Some k ∧ k ≠ [])
  ∧ (∀ t, cap_get 4 c = Some t → infix t w).
Proof.
  intros M. split.
  - revert M. unfold nodeDefPattern, ident, attr_list, Opt, Star, Plus, LazyStar.
    cbn [seqs]. intros M. inv_matches; cbn; eexists; (split; [done|]);
      intros Hnil; apply (f_equal length) in Hnil;
      rewrite ?length_app in Hnil; cbn in *; lia.
  - intros t Ht. by destruct (matches_caps _ _ _ _ _ M _ _ Ht).
Qed.

Lemma edge_match_groups (isDirected : bool) (w rest : str) (c : caps) :
  matches (edgePattern isDirected) w rest [] c →
  (∃ k, cap_get 1 c = Some k ∧ k ≠ [])
  ∧ (∃ k, cap_get 4 c = Some k ∧ k ≠ [])
  ∧ (∀ t, cap_get 7 c = Some t → infix t w).
Proof.
  intros M. split; [|split].
  - revert M. unfold edgePattern, ident, attr_list, Opt, Star, Plus, LazyStar, lit.
    destruct isDirected; cbn [seqs map list_ascii_of_string]; intros M;
      inv_matches; cbn; eexists; (split; [done|]);
      intros Hnil; apply (f_equal length) in Hnil;
      rewrite ?length_app in Hnil; cbn in *; lia.
  - revert M. unfold edgePattern, ident, attr_list, Opt, Star, Plus, LazyStar, lit.
    destruct isDirected; cbn [seqs map list_ascii_of_string]; intros M;
      inv_matches; cbn; eexists; (split; [done|]);
      intros Hnil; apply (f_equal length) in Hnil;
      rewrite ?length_app in Hnil; cbn in *; lia.
  - intros t Ht. by destruct (matches_caps _ _ _ _ _ M _ _ Ht).
Qed.

(** [m[n] || ''] for an attribute-list group *)
Lemma attributes_infix (g : option str) (w : str) :
  (∀ t, g = Some t → infix t w) →
  default [] (str_or g (Some [])) = [] ∨ infix (default [] (str_or g (Some []))) w.
Proof.
  intros Hg. destruct g as [[|a t]|]; cbn; auto.
Qed.

Lemma node_def_step_returns (cleaned : str) (defs : list rmatch) (m : rmatch)
    (st : def_state) :
  exec_all nodeDefPattern cleaned = Some defs → m ∈ defs →
  ¬ infix empty_quotes cleaned →
  ∃ st', node_def_step cleaned (Returned st) m = Returned st'.
Proof.
  intros E Hm Hno. destruct (exec_all_matches _ _ _ _ E Hm) as (rest & M & Hin & _).
  destruct (nodeDef_match_groups _ _ _ M) as [(k & Hk & Hkne) Hattr].
  unfold node_def_step, group. cbn [obind]. rewrite Hk.
  destruct (str_or_defined (str_or (cap_get 2 (m_groups m)) (cap_get 3 (m_groups m))) k Hkne)
    as [nodeId ->].
  assert (∃ a, parseAttributes
                 (default [] (str_or (cap_get 4 (m_groups m)) (Some []))) = Returned a)
    as [a Ha].
  { destruct (attributes_infix _ _ Hattr) as [->|Hi]; [by eexists|].
    apply parseAttributes_returns. intros Hq. apply Hno.
    eapply infix_trans; [done|]. by eapply infix_trans. }
  rewrite Ha. cbn [obind].
  repeat (match goal with |- context [if ?b then _ else _] => destruct b end;
          try by eexists).
  all: destruct (map_get _ _); by eexists.
Qed.

Lemma edge_step_returns (isDirected : bool) (cleaned : str) (ems : list rmatch)
    (m : rmatch) (st : edge_state) :
  exec_all (edgePattern isDirected) cleaned = Some ems → m ∈ ems →
  ¬ infix empty_quotes cleaned →
  ∃ st', edge_step (Returned st) m = Returned st'.
Proof.
  intros E Hm Hno. destruct (exec_all_matches _ _ _ _ E Hm) as (rest & M & Hin & _).
  destruct (edge_match_groups _ _ _ _ M) as ((k1 & Hk1 & Hne1) & (k4 & Hk4 & Hne4) & Hattr).
  unfold edge_step, group. cbn [obind]. rewrite Hk1, Hk4.
  destruct (str_or_defined (str_or (cap_get 2 (m_groups m)) (cap_get 3 (m_groups m))) k1 Hne1)
    as [source ->].
  destruct (str_or_defined (str_or (cap_get 5 (m_groups m)) (cap_get 6 (m_groups m))) k4 Hne4)
    as [target ->].
  assert (∃ a, parseAttributes
                 (default [] (str_or (cap_get 7 (m_groups m)) (Some []))) = Returned a)
    as [a Ha].
  { destruct (attributes_infix _ _ Hattr) as [->|Hi]; [by eexists|].
    apply parseAttributes_returns. intros Hq. apply Hno.
    eapply infix_trans; [done|]. by eapply infix_trans. }
  rewrite Ha. cbn [obind]. by eexists.
Qed.


Lemma starts_with_app (t b : str) : starts_with t (t ++ b) = true.
Proof. induction t as [|c t IH]; cbn; [done|]. by rewrite Ascii.eqb_refl. Qed.

Lemma infix_includes (t s : str) : infix t s → includes t s = true.
Proof.
  intros (a & b & ->). induction a as [|c a IH]; cbn.
  - replace (includes t (t ++ b))
      with (starts_with t (t ++ b)
            || match t ++ b with [] => false | _ :: s' => includes t s' end)
      by (by destruct (t ++ b)).
    by rewrite starts_with_app.
  - rewrite IH. apply orb_true_r.
Qed.

Lemma not_infix (t s : str) : includes t s = false → ¬ infix t s.
Proof. intros Hf Hin. apply infix_includes in Hin. congruence. Qed.

(** C3 (amended): the parser has no failure path of its own.  On every
    input its loops end; it returns a graph whenever the cleaned text holds
    no empty quoted string, however malformed the rest is; and an input that
    is empty once comments and whitespace are removed yields the empty
    graph, not a failure. *)
Theorem parser_returns (text : string) :
  parseDotToReactFlow text ≠ OutOfFuel
  ∧ (¬ infix empty_quotes (clean (to_str text)) →
     ∃ g, parseDotToReactFlow text = Returned g)
  ∧ (clean (to_str text) = [] →
     parseDotToReactFlow text = Returned (Graph [] [])).
Proof.
  split; [apply parse_not_OutOfFuel|]. split.
  - intros Hno. unfold parseDotToReactFlow.
    destruct (nodeDefPattern_total (clean (to_str text))) as [defs Hdefs].
    rewrite Hdefs.
    destruct (foldl_returns (node_def_step (clean (to_str text))) defs) with
      (a := DefState [] ∅) as [ds ->].
    { intros m st Hm. by eapply node_def_step_returns. }
    cbn [obind].
    destruct (edgePattern_total (is_directed (strip_comments (to_str text)))
                (clean (to_str text))) as [ems Hems].
    rewrite Hems.
    destruct (foldl_returns edge_step ems) with
      (a := EdgeState (d_nodeMap ds) [] 0) as [es ->].
    { intros m st Hm. by eapply edge_step_returns. }
    cbn [obind]. by eexists.
  - intros Hnil. unfold parseDotToReactFlow. rewrite Hnil.
    by destruct (is_directed _).
Qed.

(** A malformed text without any quoted value. *)
Definition garbled_text : string := "digraph { A -> ; ] = [ x -- , B [ ;; = }".

Lemma parser_returns_garbled :
  ∃ g, parseDotToReactFlow garbled_text = Returned g.
Proof.
  apply (proj1 (proj2 (parser_returns garbled_text))).
  apply not_infix. vm_compute. reflexivity.
Defined.

(** C3 as stated fails: the empty input is not reported as a failure. *)
Lemma parse_empty_is_not_a_failure :
  parseDotToReactFlow "" = Returned (Graph [] [])
  ∧ parseDotToReactFlow "" ≠ Thrown.
Proof. split; [vm_compute; reflexivity | by vm_compute]. Qed.

(** An attribute with an empty quoted value makes parseAttributes read
    [trim] of [undefined]. *)
Example parse_empty_quoted_value_throws :
  parseDotToReactFlow
    ("digraph G { A [label=" +:+ of_str empty_quotes +:+ "]; }") = Thrown.
Proof. vm_compute. reflexivity. Qed.

(** *** C10, C7: an edge followed by an attribute list and a separator *)

Definition quoted (s : string) : string :=
  (of_str [dquote] +:+ s +:+ of_str [dquote])%string.

(** Scenario A of the specification. *)
Definition scenario_A : string :=
  ("digraph G { A -> B [label=" +:+ quoted "go" +:+ "]; B -> C; }")%string.


Definition node_labels (g : graph) : list (string * option string) :=
  map (fun n => (id n, data_label n)) (nodes g).

Definition edge_ends (g : graph) : list (string * string) :=
  map (fun e => (esource e, etarget e)) (edges g).




Example scenario_A_parses :
  ∃ g, parseDotToReactFlow scenario_A = Returned g
       ∧ node_labels g = [("B", Some "go"); ("C", Some "C"); ("A", Some "A")]%string
       ∧ edge_ends g = [("A", "B"); ("B", "C")]%string
       ∧ map elabel (edges g) = [Some "go"; None]%string.
Proof. eexists. split; [vm_compute; reflexivity|]. by vm_compute. Qed.

(** C7 fails on an edge attribute named [target]: the spread of the parsed
    attributes replaces the edge's target after the nodes were created. *)
Definition target_attribute : string := "digraph G { A -> B [target=Z]; }".

Theorem edge_attribute_overrides_endpoint :
  ∃ g, parseDotToReactFlow target_attribute = Returned g
       ∧ map id (nodes g) = ["B"; "A"]%string
       ∧ edge_ends g = [("A", "Z")]%string
       ∧ ¬ (∀ e, e ∈ edges g → etarget e ∈ map id (nodes g)).
Proof.
  eexists. split; [vm_compute; reflexivity|].
  split; [by vm_compute|]. split; [by vm_compute|].
  intros H. specialize (H _ (list_elem_of_here _ _)). vm_compute in H.
  set_solver.
Qed.


(** *** C6: the order of the node collection *)

Definition edge_then_node : string := "digraph G { A -> B; C; }".

(** C6 as stated fails: A is the first identifier of the text, yet it is
    listed last, after B and C, which the node-definition scan meets. *)
Lemma nodes_not_in_first_reference_order :
  ∃ g, parseDotToReactFlow edge_then_node = Returned g
       ∧ map id (nodes g) = ["B"; "C"; "A"]%string
       ∧ index_of (to_str "A") (to_str edge_then_node) = Some 12%nat
       ∧ index_of (to_str "B") (to_str edge_then_node) = Some 17%nat
       ∧ index_of (to_str "C") (to_str edge_then_node) = Some 20%nat.
Proof. eexists. split; [vm_compute; reflexivity|]. by vm_compute. Qed.

(** Keys of a Map in insertion order: a key already present keeps its
    place. *)
Definition insert_key (acc : list string) (k : string) : list string :=
  if decide (k ∈ acc) then acc else acc ++ [k].

Definition insertion_order (ks : list string) : list string :=
  foldl insert_key [] ks.

(** [m[a] || m[b] || m[c]] as an id *)
Definition match_id (a b c : nat) (m : rmatch) : option string :=
  of_str <$> str_or (str_or (group a m) (group b m)) (group c m).

(** The two tests that make the first loop skip a match. *)
Definition def_skipped (cleaned : str) (m : rmatch) : bool :=
  let lastLine := last_line (take (m_index m) cleaned) in
  (includes (to_str "=") lastLine && negb (test edgeOperator lastLine))
  || (match str_or (str_or (group 2 m) (group 3 m)) (group 1 m) with
      | Some nodeId_s =>
          existsb (String.eqb (of_str (toLowerCase nodeId_s))) graphKeywords
      | None => false
      end
      && negb (truthy (Some (default [] (str_or (group 4 m) (Some [])))))).

Definition accepted_def_ids (cleaned : str) (defs : list rmatch) : list string :=
  omap (fun m => if def_skipped cleaned m then None else match_id 2 3 1 m) defs.

Definition endpoint_ids (ems : list rmatch) : list string :=
  flat_map (fun m => match match_id 2 3 1 m, match_id 5 6 4 m with
                     | Some s, Some t => [s; t]
                     | _, _ => []
                     end) ems.

Definition keys (m : node_map) : list string := map fst m.

Definition ids_ok (m : node_map) : Prop := Forall (fun kn => id (snd kn) = fst kn) m.

Lemma map_get_Some (k : string) (m : node_map) :
  is_Some (map_get k m) ↔ k ∈ keys m.
Proof.
  induction m as [|[k' n] m IH]; cbn.
  - split; [by intros [? ?]|set_solver].
  - destruct (String.eqb_spec k' k) as [->|Hne].
    + split; [set_solver|by eexists].
    + rewrite IH. set_solver.
Qed.

Lemma map_has_true (k : string) (m : node_map) : map_has k m = true ↔ k ∈ keys m.
Proof.
  rewrite <- map_get_Some. unfold map_has.
  destruct (map_get k m).
  - split; [by eexists|done].
  - split; [done|by intros [? ?]].
Qed.

Lemma keys_map_set (k : string) (n : node) (m : node_map) :
  keys (map_set k n m) = insert_key (keys m) k.
Proof.
  unfold insert_key, keys. induction m as [|[k' n'] m IH]; cbn.
  - by rewrite decide_False by set_solver.
  - destruct (String.eqb_spec k' k) as [->|Hne]; cbn.
    + by rewrite decide_True by set_solver.
    + rewrite IH. destruct (decide (k ∈ map fst m)).
      * by rewrite decide_True by set_solver.
      * by rewrite decide_False by set_solver.
Qed.

Lemma ids_ok_map_set (k : string) (n : node) (m : node_map) :
  id n = k → ids_ok m → ids_ok (map_set k n m).
Proof.
  intros Hid. unfold ids_ok. induction m as [|[k' n'] m IH]; cbn; intros Hok.
  - by constructor.
  - apply Forall_cons in Hok as [Hh Ht].
    destruct (String.eqb_spec k' k) as [->|Hne]; constructor; auto.
Qed.

Lemma map_get_id (k : string) (n : node) (m : node_map) :
  ids_ok m → map_get k m = Some n → id n = k.
Proof.
  unfold ids_ok. induction m as [|[k' n'] m IH]; cbn; [done|]. intros Hok.
  apply Forall_cons in Hok as [Hh Ht].
  destruct (String.eqb_spec k' k) as [->|Hne]; [by intros [= <-]|auto].
Qed.

Lemma insert_key_present (acc : list string) (k : string) :
  k ∈ acc → insert_key acc k = acc.
Proof. intros H. unfold insert_key. by rewrite decide_True. Qed.

Lemma insert_key_elem (acc : list string) (k k' : string) :
  k' ∈ insert_key acc k ↔ k' ∈ acc ∨ k' = k.
Proof. unfold insert_key. destruct (decide (k ∈ acc)); set_solver. Qed.

Lemma ids_ok_keys (m : node_map) : ids_ok m → map id (map snd m) = keys m.
Proof.
  unfold ids_ok, keys. induction 1 as [|[k n] m Hh _ IH]; cbn in *; [done|].
  by rewrite Hh, IH.
Qed.

(** The key [`${nodeId}-${index}`] determines [nodeId]: a decimal index
    holds no dash. *)
Fixpoint no_dash (s : string) : Prop :=
  match s with
  | EmptyString => True
  | String a s' => a ≠ "-"%char ∧ no_dash s'
  end.

Lemma no_dash_uint (d : Decimal.uint) : no_dash (NilEmpty.string_of_uint d).
Proof. induction d; cbn; repeat split; try done. Qed.

Lemma no_dash_decimal (i : nat) : no_dash (of_str (decimal i)).
Proof.
  unfold of_str, decimal. rewrite string_of_list_ascii_of_string.
  unfold NilZero.string_of_uint.
  destruct (Nat.to_uint i) as [|d|d|d|d|d|d|d|d|d|d]; [by cbn|..];
    apply (no_dash_uint (_ d)).
Qed.

Lemma append_cons (a : ascii) (s t : string) :
  (String a s +:+ t)%string = String a (s +:+ t)%string.
Proof. reflexivity. Qed.

Lemma append_nil (t : string) : ("" +:+ t)%string = t.
Proof. reflexivity. Qed.

Lemma no_dash_after_dash (n d : string) : ¬ no_dash (n +:+ "-" +:+ d)%string.
Proof.
  induction n as [|b n IH]; repeat (rewrite append_cons || rewrite append_nil);
    cbn; intros [H1 H2]; auto.
Qed.

Lemma dash_key_inj (n n' d d' : string) :
  no_dash d → no_dash d' →
  (n +:+ "-" +:+ d = n' +:+ "-" +:+ d')%string → n = n'.
Proof.
  intros Hd Hd'. revert n'. induction n as [|a n IH]; intros [|a' n'];
    repeat (rewrite append_cons || rewrite append_nil); try done.
  - intros [= <- ->]. by apply no_dash_after_dash in Hd.
  - intros [= -> <-]. by apply no_dash_after_dash in Hd'.
  - intros [= -> H]. f_equal. by apply IH.
Qed.


Lemma foldl_returned_inv {A M : Type} (step : outcome A → M → outcome A)
    (P : list M → A → Prop) (a0 : A) :
  (∀ m, step Thrown m = Thrown) → (∀ m, step OutOfFuel m = OutOfFuel) →
  P [] a0 →
  (∀ ms a m a', P ms a → step (Returned a) m = Returned a' → P (ms ++ [m]) a') →
  ∀ ms a, foldl step (Returned a0) ms = Returned a → P ms a.
Proof.
  intros Ht Ho H0 Hstep. induction ms as [|m ms IH] using rev_ind; intros a.
  - cbn. by intros [= <-].
  - rewrite foldl_snoc. destruct (foldl step (Returned a0) ms) as [a1| |] eqn:E.
    + intros Hs. eapply Hstep; [by apply IH|done].
    + by rewrite Ht.
    + by rewrite Ho.
Qed.

Lemma insertion_order_snoc (ks : list string) (k : string) :
  insertion_order (ks ++ [k]) = insert_key (insertion_order ks) k.
Proof. unfold insertion_order. by rewrite foldl_snoc. Qed.

Lemma keys_ensure_node (k : string) (m : node_map) :
  keys (ensure_node k m) = insert_key (keys m) k.
Proof.
  unfold ensure_node. destruct (map_has k m) eqn:E.
  - apply map_has_true in E. by rewrite insert_key_present.
  - apply keys_map_set.
Qed.

Lemma ids_ok_ensure_node (k : string) (m : node_map) :
  ids_ok m → ids_ok (ensure_node k m).
Proof.
  intros Hok. unfold ensure_node. destruct (map_has k m); [done|].
  by apply ids_ok_map_set.
Qed.

(** Invariant of the first loop. *)
Definition def_inv (cleaned : str) (seen : list rmatch) (st : def_state) : Prop :=
  keys (d_nodeMap st) = insertion_order (accepted_def_ids cleaned seen)
  ∧ ids_ok (d_nodeMap st)
  ∧ ∀ key, key ∈ d_processed st →
      ∃ nodeId i, key = (nodeId +:+ "-" +:+ of_str (decimal i))%string
                  ∧ nodeId ∈ keys (d_nodeMap st).

Lemma accepted_def_ids_snoc (cleaned : str) (seen : list rmatch) (m : rmatch) :
  accepted_def_ids cleaned (seen ++ [m])
  = accepted_def_ids cleaned seen
    ++ (if def_skipped cleaned m then []
        else match match_id 2 3 1 m with Some k => [k] | None => [] end).
Proof.
  unfold accepted_def_ids. rewrite omap_app. f_equal. cbn.
  destruct (def_skipped cleaned m); [done|]. by destruct (match_id 2 3 1 m).
Qed.

Lemma node_def_step_inv (cleaned : str) (seen : list rmatch) (st st' : def_state)
    (m : rmatch) :
  def_inv cleaned seen st →
  node_def_step cleaned (Returned st) m = Returned st' →
  def_inv cleaned (seen ++ [m]) st'.
Proof.
  intros (Hkeys & Hok & Hproc). unfold def_inv.
  rewrite accepted_def_ids_snoc.
  unfold node_def_step, def_skipped, match_id. cbn [obind].
  destruct (str_or (str_or (group 2 m) (group 3 m)) (group 1 m)) as [nodeId_s|];
    [|done].
  destruct (includes (to_str "=") (last_line (take (m_index m) cleaned))
            && negb (test edgeOperator (last_line (take (m_index m) cleaned)))).
  { intros [= <-]. cbn [orb]. by rewrite app_nil_r. }
  destruct (existsb (String.eqb (of_str (toLowerCase nodeId_s))) graphKeywords
            && negb (truthy (Some (default [] (str_or (group 4 m) (Some [])))))).
  { intros [= <-]. cbn [orb]. by rewrite app_nil_r. }
  cbn [orb fmap option_fmap option_map]. rewrite insertion_order_snoc, <- Hkeys.
  destruct (decide _) as [Hin|Hout].
  { intros [= <-]. destruct (Hproc _ Hin) as (nodeId' & i' & Heq & Hkey).
    apply dash_key_inj in Heq; [|apply no_dash_decimal..]. rewrite Heq.
    by rewrite insert_key_present. }
  assert (∀ nm, keys nm = insert_key (keys (d_nodeMap st)) (of_str nodeId_s) →
            ∀ key, key ∈ {[(of_str nodeId_s +:+ "-" +:+ of_str (decimal (m_index m)))%string]}
                         ∪ d_processed st →
            ∃ nodeId i, key = (nodeId +:+ "-" +:+ of_str (decimal i))%string
                        ∧ nodeId ∈ keys nm) as Hproc'.
  { intros nm Hnm key Hkey. rewrite Hnm.
    apply elem_of_union in Hkey as [Hkey|Hkey].
    - apply elem_of_singleton in Hkey as ->. do 2 eexists. split; [done|].
      apply insert_key_elem. by right.
    - destruct (Hproc _ Hkey) as (n & i & -> & Hn). do 2 eexists. split; [done|].
      apply insert_key_elem. by left. }
  destruct (negb (map_has (of_str nodeId_s) (d_nodeMap st))
            || truthy (Some (default [] (str_or (group 4 m) (Some []))))) eqn:Hcond.
  - destruct (parseAttributes _) as [nodeAttrs| |]; [|done..]. cbn [obind].
    destruct (map_get (of_str nodeId_s) (d_nodeMap st)) as [existing|] eqn:Hget;
      intros [= <-]; cbn [d_nodeMap d_processed].
    + split; [apply keys_map_set|]. split; [|apply Hproc', keys_map_set].
      apply ids_ok_map_set; [|done]. cbn. by eapply map_get_id.
    + split; [apply keys_map_set|]. split; [|apply Hproc', keys_map_set].
      by apply ids_ok_map_set.
  - intros [= <-]. cbn [d_nodeMap d_processed].
    apply orb_false_iff in Hcond as [Hhas _]. apply negb_false_iff, map_has_true in Hhas.
    rewrite insert_key_present by done. split; [done|]. split; [done|].
    apply Hproc'. by rewrite insert_key_present.
Qed.

(** Invariant of the second loop. *)
Definition edge_inv (keys0 : list string) (seen : list rmatch) (st : edge_state)
  : Prop :=
  keys (e_nodeMap st) = foldl insert_key keys0 (endpoint_ids seen)
  ∧ ids_ok (e_nodeMap st).

Lemma edge_step_inv (keys0 : list string) (seen : list rmatch) (st st' : edge_state)
    (m : rmatch) :
  edge_inv keys0 seen st → edge_step (Returned st) m = Returned st' →
  edge_inv keys0 (seen ++ [m]) st'.
Proof.
  intros [Hkeys Hok]. unfold edge_inv, endpoint_ids. rewrite flat_map_app.
  fold (endpoint_ids seen). rewrite foldl_app, <- Hkeys.
  unfold edge_step, match_id. cbn [obind flat_map].
  destruct (str_or (str_or (group 2 m) (group 3 m)) (group 1 m)) as [source_s|];
    [|done].
  destruct (str_or (str_or (group 5 m) (group 6 m)) (group 4 m)) as [target_s|];
    [|done].
  destruct (parseAttributes _) as [edgeAttrs| |]; [|done..]. cbn [obind].
  intros [= <-]. cbn. rewrite !keys_ensure_node. split; [done|].
  by do 2 apply ids_ok_ensure_node.
Qed.

(** C6 (amended): the node collection is in insertion order, and insertion
    happens in two passes: first the ids the node-definition scan accepts,
    in text order, then the endpoints of the edge matches (source, then
    target), in text order; an id already present keeps its place. *)
Theorem nodes_in_insertion_order (text : string) (g : graph) :
  parseDotToReactFlow text = Returned g →
  ∃ defs ems,
    exec_all nodeDefPattern (clean (to_str text)) = Some defs
    ∧ exec_all (edgePattern (is_directed (strip_comments (to_str text))))
        (clean (to_str text)) = Some ems
    ∧ map id (nodes g)
      = insertion_order (accepted_def_ids (clean (to_str text)) defs
                         ++ endpoint_ids ems).
Proof.
  unfold parseDotToReactFlow.
  destruct (exec_all nodeDefPattern _) as [defs|] eqn:Hdefs; [|done].
  destruct (foldl (node_def_step _) _ defs) as [ds| |] eqn:Hds; [|done..].
  cbn [obind].
  destruct (exec_all (edgePattern _) _) as [ems|] eqn:Hems; [|done].
  destruct (foldl edge_step _ ems) as [es| |] eqn:Hes; [|done..].
  cbn [obind]. intros [= <-]. exists defs, ems. split; [done|]. split; [done|].
  cbn [nodes].
  pose proof (foldl_returned_inv (node_def_step (clean (to_str text)))
                (def_inv (clean (to_str text))) (DefState [] ∅)) as H1.
  destruct (H1 (fun _ => eq_refl) (fun _ => eq_refl)) with (ms := defs) (a := ds)
    as (Hk1 & Hok1 & _); [|intros ms a m a'; apply node_def_step_inv|done|].
  { split; [done|]. split; [constructor|set_solver]. }
  pose proof (foldl_returned_inv edge_step (edge_inv (keys (d_nodeMap ds)))
                (EdgeState (d_nodeMap ds) [] 0)) as H2.
  destruct (H2 (fun _ => eq_refl) (fun _ => eq_refl)) with (ms := ems) (a := es)
    as (Hk2 & Hok2); [by split|intros ms a m a'; apply edge_step_inv|done|].
  rewrite ids_ok_keys by done. rewrite Hk2, Hk1.
  unfold insertion_order. by rewrite foldl_app.
Qed.

Lemma nodes_in_insertion_order_edge_then_node :
  ∃ defs ems,
    exec_all nodeDefPattern (clean (to_str edge_then_node)) = Some defs
    ∧ exec_all (edgePattern (is_directed (strip_comments (to_str edge_then_node))))
        (clean (to_str edge_then_node)) = Some ems
    ∧ ["B"; "C"; "A"]%string
      = insertion_order (accepted_def_ids (clean (to_str edge_then_node)) defs
                         ++ endpoint_ids ems).
Proof.
  apply (nodes_in_insertion_order edge_then_node
           (Graph [new_node "B" "B" None; new_node "C" "C" None; new_node "A" "A" None]
                  [Edge "eA-B-0" "A" "B" None None (Some "floating"%string) []])).
  vm_compute. reflexivity.
Defined.


(** *** C7: when the endpoints of an edge are nodes *)

Lemma insertion_order_elem (l : list string) (k : string) :
  k ∈ insertion_order l ↔ k ∈ l.
Proof.
  unfold insertion_order.
  assert (∀ acc, k ∈ foldl insert_key acc l ↔ k ∈ acc ∨ k ∈ l) as H.
  { induction l as [|x l IH]; intros acc; cbn; [set_solver|].
    rewrite IH, insert_key_elem. set_solver. }
  rewrite H. set_solver.
Qed.

(** Invariant of the second loop, on the edges pushed so far: an endpoint
    that no attribute replaced is a key of the node map. *)
Definition edges_inv (st : edge_state) : Prop :=
  ∀ e, e ∈ e_edges st →
    (get_prop "source" (eprops e) = None → esource e ∈ keys (e_nodeMap st))
    ∧ (get_prop "target" (eprops e) = None → etarget e ∈ keys (e_nodeMap st)).

Lemma edge_step_edges_inv (st st' : edge_state) (m : rmatch) :
  edges_inv st → edge_step (Returned st) m = Returned st' → edges_inv st'.
Proof.
  intros Hinv. unfold edge_step. cbn [obind].
  destruct (str_or (str_or (group 2 m) (group 3 m)) (group 1 m)) as [source_s|];
    [|done].
  destruct (str_or (str_or (group 5 m) (group 6 m)) (group 4 m)) as [target_s|];
    [|done].
  destruct (parseAttributes _) as [edgeAttrs| |]; [|done..]. cbn [obind].
  intros [= <-]. intros e He. cbn [e_edges e_nodeMap] in *.
  rewrite !keys_ensure_node.
  apply elem_of_app in He as [He|He].
  - destruct (Hinv e He) as [Hs Ht].
    split; intros Hn; apply insert_key_elem; left; apply insert_key_elem; left; auto.
  - apply list_elem_of_singleton in He as ->. unfold make_edge. cbn.
    split; intros ->; cbn; apply insert_key_elem.
    + left. apply insert_key_elem. by right.
    + by right.
Qed.

(** Every edge whose attribute list has no [source] and no [target] key
    joins two nodes of the result. *)
Lemma endpoints_exist_without_override (text : string) (g : graph) (e : edge) :
  parseDotToReactFlow text = Returned g → e ∈ edges g →
  (get_prop "source" (eprops e) = None → esource e ∈ map id (nodes g))
  ∧ (get_prop "target" (eprops e) = None → etarget e ∈ map id (nodes g)).
Proof.
  unfold parseDotToReactFlow.
  destruct (exec_all nodeDefPattern _) as [defs|] eqn:Hdefs; [|done].
  destruct (foldl (node_def_step _) _ defs) as [ds| |] eqn:Hds; [|done..].
  cbn [obind].
  destruct (exec_all (edgePattern _) _) as [ems|] eqn:Hems; [|done].
  destruct (foldl edge_step _ ems) as [es| |] eqn:Hes; [|done..].
  cbn [obind]. intros [= <-]. cbn [nodes edges]. intros He.
  pose proof (foldl_returned_inv (node_def_step (clean (to_str text)))
                (def_inv (clean (to_str text))) (DefState [] ∅)) as H1.
  destruct (H1 (fun _ => eq_refl) (fun _ => eq_refl)) with (ms := defs) (a := ds)
    as (_ & Hok1 & _); [|intros ms a m a'; apply node_def_step_inv|done|].
  { split; [done|]. split; [constructor|set_solver]. }
  pose proof (foldl_returned_inv edge_step
                (fun seen st => edge_inv (keys (d_nodeMap ds)) seen st ∧ edges_inv st)
                (EdgeState (d_nodeMap ds) [] 0)) as H2.
  destruct (H2 (fun _ => eq_refl) (fun _ => eq_refl)) with (ms := ems) (a := es)
    as ((_ & Hok2) & Hinv).
  { split; [by split|]. intros e' He'. cbn in He'. set_solver. }
  { intros ms a m a' [Ha Hb] Hstep. split; [by eapply edge_step_inv|].
    by eapply edge_step_edges_inv. }
  { done. }
  rewrite ids_ok_keys by done.
  apply list_elem_of_In, in_map_iff in He as (e0 & <- & He0).
  apply list_elem_of_In in He0. destruct (Hinv e0 He0) as [Hs Ht].
  by split.
Qed.

End ParserFacts.

(** ** Properties of the edge geometry *)

Module FloatingEdgeFacts.
Import FloatingEdge.
Local Open Scope R_scope.

Lemma gt_true (a b : R) : gt a b = true ↔ a > b.
Proof. unfold gt. destruct (Rlt_dec b a); split; (done || lra). Qed.

Lemma gt_false (a b : R) : gt a b = false ↔ ¬ a > b.
Proof. unfold gt. destruct (Rlt_dec b a); split; (done || lra). Qed.

Lemma num_or_truthy (v d : R) : v ≠ 0 → num_or (Some v) d = v.
Proof. intros Hv. unfold num_or. by destruct (Req_dec_T v 0). Qed.

(** Scenario C: two 150 by 40 rectangles, one at the origin and one 200
    below it. *)
Definition rect_at (px0 py0 : R) : flow_node :=
  FlowNode (Point px0 py0) (Some 150) (Some 40) None.

Lemma rect_at_width (a b : R) : node_width (rect_at a b) = 150.
Proof. unfold node_width, rect_at. cbn [fwidth]. apply num_or_truthy. lra. Qed.

Lemma rect_at_height (a b : R) : node_height (rect_at a b) = 40.
Proof. unfold node_height, rect_at. cbn [fheight]. apply num_or_truthy. lra. Qed.

Lemma rect_at_center (a b : R) : getNodeCenter (rect_at a b) = Point (a + 75) (b + 20).
Proof.
  unfold getNodeCenter. rewrite rect_at_width, rect_at_height. cbn. f_equal; lra.
Qed.

Lemma getParams_scenario_C_source :
  getParams (rect_at 0 0) (rect_at 0 200) = Params Bottom 75 40.
Proof.
  unfold getParams. rewrite !rect_at_center, !rect_at_height.
  cbn [px py fposition rect_at].
  replace (0 + 75 - (0 + 75)) with 0 by lra. rewrite Rabs_R0.
  replace (0 + 20 - (200 + 20)) with (Ropp 200) by lra.
  rewrite Rabs_Ropp, Rabs_right by lra.
  replace (gt 0 200) with false by (symmetry; apply gt_false; lra).
  replace (gt (0 + 20) (200 + 20)) with false by (symmetry; apply gt_false; lra).
  f_equal; lra.
Qed.

Lemma getParams_scenario_C_target :
  getParams (rect_at 0 200) (rect_at 0 0) = Params Top 75 200.
Proof.
  unfold getParams. rewrite !rect_at_center.
  cbn [px py fposition rect_at].
  replace (0 + 75 - (0 + 75)) with 0 by lra. rewrite Rabs_R0.
  replace (200 + 20 - (0 + 20)) with 200 by lra.
  rewrite Rabs_right by lra.
  replace (gt 0 200) with false by (symmetry; apply gt_false; lra).
  replace (gt (200 + 20) (0 + 20)) with true by (symmetry; apply gt_true; lra).
  f_equal; lra.
Qed.

(** C9: each endpoint's side is chosen by comparing the absolute
    displacements of the centres, left or right when the horizontal one is
    larger and top or bottom otherwise, on the side facing the other centre,
    with the anchor at the midpoint of that side; the rectangles of
    scenario C resolve to bottom and top. *)
Theorem getParams_facing_side :
  (∀ nodeA nodeB : flow_node,
     let cA := getNodeCenter nodeA in
     let cB := getNodeCenter nodeB in
     let p := getParams nodeA nodeB in
     (Rabs (px cA - px cB) > Rabs (py cA - py cB) ↔ pos p = Left ∨ pos p = Right)
     ∧ (¬ Rabs (px cA - px cB) > Rabs (py cA - py cB) ↔ pos p = Top ∨ pos p = Bottom)
     ∧ (pos p = Left →
        px cA > px cB ∧ x p = px (fposition nodeA) ∧ y p = py cA)
     ∧ (pos p = Right →
        ¬ px cA > px cB ∧ x p = px (fposition nodeA) + node_width nodeA ∧ y p = py cA)
     ∧ (pos p = Top →
        py cA > py cB ∧ x p = px cA ∧ y p = py (fposition nodeA))
     ∧ (pos p = Bottom →
        ¬ py cA > py cB ∧ x p = px cA ∧ y p = py (fposition nodeA) + node_height nodeA))
  ∧ getParams (rect_at 0 0) (rect_at 0 200) = Params Bottom 75 40
  ∧ getParams (rect_at 0 200) (rect_at 0 0) = Params Top 75 200.
Proof.
  split; [|split; [apply getParams_scenario_C_source|apply getParams_scenario_C_target]].
  intros nodeA nodeB cA cB p. subst p. unfold getParams. fold cA cB.
  destruct (gt (Rabs _) (Rabs _)) eqn:Hh.
  - apply gt_true in Hh.
    destruct (gt (px cA) (px cB)) eqn:Hx;
      [apply gt_true in Hx | apply gt_false in Hx]; cbn;
      repeat split; try done; try tauto; intros; try done; try tauto;
      match goal with H : _ ∨ _ |- _ => destruct H; done | _ => idtac end.
  - apply gt_false in Hh.
    destruct (gt (py cA) (py cB)) eqn:Hy;
      [apply gt_true in Hy | apply gt_false in Hy]; cbn;
      repeat split; try done; try tauto; intros; try done; try tauto;
      match goal with H : _ ∨ _ |- _ => destruct H; done | _ => idtac end.
Qed.

(** The labels getEdgeParams reports are run through [positionMap], so for
    scenario C it names the sides the other way round while the anchor
    points stay on the source's bottom and the target's top. *)
Example getEdgeParams_scenario_C :
  getEdgeParams (rect_at 0 0) (rect_at 0 200) = EdgeParams 75 40 75 200 Top Bottom.
Proof.
  unfold getEdgeParams.
  by rewrite getParams_scenario_C_source, getParams_scenario_C_target.
Qed.

End FloatingEdgeFacts.

(** ** Properties of the layout strategies *)

Module LayoutFacts.
Import Leveling LevelingFacts Layout.
Local Open Scope R_scope.

(** *** hierarchicalLayout and radialLayout return *)

Definition placed (positions : pos_map) : gset string :=
  list_to_set (map fst positions).

Lemma pos_get_None (k : string) (positions : pos_map) :
  pos_get k positions = None ↔ k ∉ placed positions.
Proof.
  unfold placed. induction positions as [|[k' p] positions IH]; cbn.
  - split; [set_solver|done].
  - destruct (String.eqb_spec k' k) as [->|Hne]; [split; [done|set_solver]|].
    rewrite IH. set_solver.
Qed.

Lemma placed_pos_set (k : string) (p : point) (positions : pos_map) :
  placed (pos_set k p positions) = {[k]} ∪ placed positions.
Proof.
  unfold placed. induction positions as [|[k' p'] positions IH]; cbn.
  - set_solver.
  - destruct (String.eqb_spec k' k) as [->|Hne]; cbn; [set_solver|].
    rewrite IH. set_solver.
Qed.

Section PositionChildren.
Variable nodes : list node.
Variable children : gmap string (list string).
Variable levels : gmap string Z.
Variable nodeSpacing levelSpacing : R.
Variable T : gset string.
Hypothesis children_in_T : ∀ k l x, children !! k = Some l → x ∈ l → x ∈ T.

(** Each recursive call follows the placement of a child that had no
    position, so the depth is bounded by the ids still to be placed. *)
Lemma positionChildren_returns (fuel : nat) :
  ∀ parentId positions,
    (pending T (placed positions) < fuel)%nat →
    ∃ positions',
      positionChildren nodes children levels nodeSpacing levelSpacing
                       fuel parentId positions = Some positions'
      ∧ placed positions ⊆ placed positions'.
Proof.
  induction fuel as [|fuel IH]; intros parentId positions Hfuel; [lia|].
  cbn [positionChildren].
  destruct (children !! parentId) as [l|] eqn:Hl;
    cbn [default from_option Datatypes.id]; [|by eexists].
  assert (∀ x, x ∈ l → x ∈ T) as HlT by (intros; by eapply children_in_T).
  destruct l as [|c0 l0]; [by eexists|]. set (l := c0 :: l0) in *.
  destruct (pos_get parentId positions) as [parentPos|]; [|by eexists].
  set (F := fun acc ic => _).
  assert (∀ (ics : list (nat * string)) positions0,
            (∀ ic, ic ∈ ics → snd ic ∈ T) →
            (pending T (placed positions0) ≤ fuel)%nat →
            ∃ positions', foldl F (Some positions0) ics = Some positions'
                          ∧ placed positions0 ⊆ placed positions') as Hfold.
  { induction ics as [|ic ics IHics]; intros positions0 HT Hp; [by eexists|].
    cbn [foldl]. unfold F at 2.
    destruct (pos_get (snd ic) positions0) as [p|] eqn:Hget.
    - apply IHics; [intros; apply HT; set_solver|done].
    - apply pos_get_None in Hget.
      assert (snd ic ∈ T) as HicT by (apply HT; set_solver).
      pose proof (pending_visit T (placed positions0) (snd ic) HicT Hget) as Hvisit.
      match goal with |- context [positionChildren _ _ _ _ _ fuel (snd ic) ?ps] =>
        destruct (IH (snd ic) ps) as (positions1 & -> & Hsub1)
      end.
      { rewrite placed_pos_set. lia. }
      rewrite placed_pos_set in Hsub1.
      destruct (IHics positions1) as (positions' & Hf & Hsub').
      + intros; apply HT; set_solver.
      + etransitivity; [|apply Hp]. unfold pending. apply subseteq_size. set_solver.
      + exists positions'. split; [done|]. set_solver. }
  apply Hfold; [|lia].
  intros ic Hic. apply HlT.
  apply list_elem_of_lookup in Hic as [i Hi].
  rewrite list_lookup_imap in Hi.
  destruct (l !! i) as [x|] eqn:Hx; [|done]. injection Hi as <-.
  cbn. by eapply list_elem_of_lookup_2.
Qed.

Lemma position_all_returns (fuel : nat) (roots : list string) :
  (size T < fuel)%nat →
  is_Some (position_all nodes children levels nodeSpacing levelSpacing fuel roots).
Proof.
  intros Hfuel. unfold position_all.
  generalize (position_roots nodeSpacing roots).
  induction roots as [|r rs IH]; intros positions0; [by eexists|].
  cbn [foldl].
  destruct (positionChildren_returns fuel r positions0) as (positions1 & -> & _).
  { pose proof (pending_le T (placed positions0)). lia. }
  apply IH.
Qed.
End PositionChildren.

(** hierarchicalLayout returns a layout for every graph with at least one
    node whose edges all leave nodes. *)
Lemma hierarchicalLayout_returns (nodes : list node) (edges : list edge) (sp : spacing) :
  nodes ≠ [] → (∀ e, e ∈ edges → esource e ∈ map id nodes) →
  ∃ out, hierarchicalLayout nodes edges sp = Returned out.
Proof.
  intros Hne Hsrc. unfold hierarchicalLayout.
  assert (∀ a, a ∈ map to_arc edges → source a ∈ map id nodes) as Hsrc'.
  { intros a Ha. apply list_elem_of_In, in_map_iff in Ha as (e & <- & He).
    apply Hsrc. by apply list_elem_of_In. }
  destruct (build_adjacency_Some _ _ Hsrc') as [children Hb]. rewrite Hb.
  destruct (hierarchical_levels_returns (map id nodes) (map to_arc edges)
              (leveling_fuel (map id nodes) (map to_arc edges)))
    as (levels & -> & _); [done|by destruct nodes|done|].
  cbn [obind].
  destruct (position_all_returns nodes children levels
              (calculateMinSpacing nodes (nodeSpacing sp)) (levelSpacing sp)
              (all_targets (map to_arc edges)) (adjacency_targets _ _ _ Hb)
              (S (length edges))
              (omap (fun r => r) (find_roots (map id nodes) (map to_arc edges))))
    as [positions ->].
  { pose proof (all_targets_size (map to_arc edges)) as Hs.
    rewrite length_map in Hs. lia. }
  by eexists.
Qed.

Lemma radialLayout_returns (nodes : list node) (edges : list edge)
    (centerNodeId : option string) (sp : spacing) :
  (∀ e, e ∈ edges → esource e ∈ map id nodes) →
  ∃ out, radialLayout nodes edges centerNodeId sp = Returned out.
Proof.
  intros Hsrc. unfold radialLayout.
  assert (∀ a, a ∈ map to_arc edges → source a ∈ map id nodes) as Hsrc'.
  { intros a Ha. apply list_elem_of_In, in_map_iff in Ha as (e & <- & He).
    apply Hsrc. by apply list_elem_of_In. }
  destruct (radial_center nodes edges centerNodeId) as [center|].
  - destruct (radial_levels_returns (map id nodes) (map to_arc edges)
                (leveling_fuel (map id nodes) (map to_arc edges)) center)
      as (levels & -> & _); [done|done|]. by eexists.
  - destruct (build_adjacency_Some _ _ Hsrc') as [adj ->]. by eexists.
Qed.

(** *** C4: what a strategy changes on a node *)

(** [n'] is [n] with only its position replaced. *)
Definition repositioned (n n' : node) : Prop := ∃ p, n' = with_position n p.

(** [n'] is [n] with its position replaced and the simulation fields
    [x], [y], [vx], [vy], [fixed] stored on it. *)
Definition repositioned_with_sim (n n' : node) : Prop :=
  ∃ p s, n' = Node (id n) (Some p) (data_label n) (style n) (width n) (height n)
                   (Some s) (extra n).

Lemma Forall2_map_repositioned (f : node → node) (l : list node) :
  (∀ n, repositioned n (f n)) → Forall2 repositioned l (map f l).
Proof. intros Hf. induction l; constructor; auto. Qed.

Lemma Forall2_imap_repositioned (f : nat → node → node) (l : list node) :
  (∀ i n, repositioned n (f i n)) → Forall2 repositioned l (imap f l).
Proof.
  revert f. induction l as [|n l IH]; intros f Hf; cbn; constructor; auto.
  apply IH. intros; apply Hf.
Qed.

Lemma circularLayout_frame (nodes : list node) (cx cy : R) (sp : spacing) :
  Forall2 repositioned nodes (circularLayout nodes cx cy sp).
Proof.
  apply Forall2_map_repositioned. intros n.
  destruct (is_anchor (find_blue nodes) n); by eexists.
Qed.

Lemma gridLayout_frame (nodes : list node) (columns : option nat) (sp : spacing) :
  Forall2 repositioned nodes (gridLayout nodes columns sp).
Proof. apply Forall2_imap_repositioned. intros i n. by eexists. Qed.

Lemma hierarchicalLayout_frame (nodes : list node) (edges : list edge) (sp : spacing)
    (out : list node) :
  hierarchicalLayout nodes edges sp = Returned out → Forall2 repositioned nodes out.
Proof.
  unfold hierarchicalLayout.
  destruct (build_adjacency _ _) as [children|]; [|done].
  destruct (hierarchical_levels _ _ _) as [levels| |]; [|done..]. cbn [obind].
  destruct (position_all _ _ _ _ _ _ _) as [positions|]; [|done].
  intros [= <-]. apply Forall2_map_repositioned. intros n. unfold place.
  destruct (pos_get (id n) positions); by eexists.
Qed.

Lemma radialLayout_frame (nodes : list node) (edges : list edge)
    (centerNodeId : option string) (sp : spacing) (out : list node) :
  radialLayout nodes edges centerNodeId sp = Returned out →
  Forall2 repositioned nodes out.
Proof.
  unfold radialLayout. destruct (radial_center _ _ _) as [center|].
  - destruct (radial_levels _ _ _ _) as [levels| |]; [|done..]. cbn [obind].
    intros [= <-]. apply Forall2_map_repositioned. intros n. by eexists.
  - destruct (build_adjacency _ _); [|done].
    intros [= <-]. apply Forall2_map_repositioned. intros n. by eexists.
Qed.

(** The working map of forceDirectedLayout without its simulation fields *)
Definition skeleton (m : sim_map) : list (string * node) :=
  map (fun kv => (fst kv, sn_node (snd kv))) m.

Lemma sim_set_fresh (k : string) (v : sim_node) (m : sim_map) :
  k ∉ map fst m → sim_set k v m = m ++ [(k, v)].
Proof.
  induction m as [|[k' v'] m IH]; cbn; intros Hk; [done|].
  destruct (String.eqb_spec k' k) as [->|Hne]; [set_solver|].
  rewrite IH; [done|set_solver].
Qed.

Lemma init_sim_skeleton (rnd : nat → R) (blueNode : option node) (nodes : list node) :
  NoDup (map id nodes) →
  skeleton (fst (foldl (init_sim rnd blueNode) ([], O) nodes))
  = map (fun n => (id n, n)) nodes.
Proof.
  induction nodes as [|n nodes IH] using rev_ind; intros Hnd; [done|].
  rewrite map_app in Hnd. apply NoDup_app in Hnd as (Hnd & Hfresh & _).
  specialize (IH Hnd). rewrite foldl_snoc, map_app. cbn [map].
  assert (id n ∉ map fst (fst (foldl (init_sim rnd blueNode) ([], O) nodes))) as Hk.
  { replace (map fst (fst (foldl (init_sim rnd blueNode) ([], O) nodes)))
      with (map fst (skeleton (fst (foldl (init_sim rnd blueNode) ([], O) nodes))))
      by (unfold skeleton; rewrite map_map; done).
    rewrite IH, map_map. cbn. intros Hin. apply (Hfresh (id n)); [done|].
    cbn. set_solver. }
  unfold init_sim at 1. destruct (is_anchor blueNode n); cbn [fst];
    rewrite sim_set_fresh by done; unfold skeleton in *;
    rewrite map_app, IH; done.
Qed.

Lemma skeleton_on_sim (f : sim_fields → sim_fields) (m : sim_map) :
  skeleton (map (on_sim f) m) = skeleton m.
Proof. unfold skeleton. rewrite map_map. by apply map_ext. Qed.

Lemma skeleton_insert (m : sim_map) (i : nat) (k : string) (v v' : sim_node) :
  m !! i = Some (k, v) → sn_node v' = sn_node v →
  skeleton (<[i := (k, v')]> m) = skeleton m.
Proof.
  intros Hi Hn. unfold skeleton. revert i Hi.
  induction m as [|kv m IH]; intros [|i]; cbn; try done.
  - intros [= ->]. cbn. by rewrite Hn.
  - intros Hi. by rewrite IH.
Qed.

Lemma skeleton_repel (rs : R) (m : sim_map) (ij : nat * nat) :
  skeleton (repel rs m ij) = skeleton m.
Proof.
  unfold repel. destruct (m !! fst ij) as [[ka a]|] eqn:Ha; [|done].
  destruct (m !! snd ij) as [[kb b]|] eqn:Hb; [|done].
  set (a' := SimNode (sn_node a) _). set (b' := SimNode (sn_node b) _).
  destruct (decide (fst ij = snd ij)) as [Heq|Hne].
  - assert (ka = kb ∧ a = b) as [-> ->] by (rewrite Heq in Ha; split; congruence).
    rewrite (skeleton_insert _ _ kb a'); [by eapply skeleton_insert| |done].
    rewrite <- Heq. apply list_lookup_insert_eq. by eapply lookup_lt_Some.
  - rewrite (skeleton_insert _ _ kb b); [by eapply skeleton_insert| |done].
    unfold sim_map in *. by rewrite list_lookup_insert_ne.
Qed.

Lemma skeleton_sim_alter (f : sim_fields → sim_fields) (k : string) (m : sim_map) :
  skeleton (sim_alter f k m) = skeleton m.
Proof.
  unfold skeleton. induction m as [|[k' v] m IH]; cbn; [done|].
  destruct (String.eqb k' k); cbn; [done|]. by rewrite IH.
Qed.

Lemma skeleton_attract (as_ : R) (m : sim_map) (e : edge) :
  skeleton (attract as_ m e) = skeleton m.
Proof.
  unfold attract. destruct (sim_get _ m); [|done]. destruct (sim_get _ m); [|done].
  by rewrite !skeleton_sim_alter.
Qed.

Lemma skeleton_foldl {A : Type} (f : sim_map → A → sim_map) (l : list A) (m : sim_map) :
  (∀ m a, skeleton (f m a) = skeleton m) → skeleton (foldl f m l) = skeleton m.
Proof.
  intros Hf. revert m. induction l as [|a l IH]; intros m; cbn; [done|].
  by rewrite IH, Hf.
Qed.

Lemma skeleton_iteration (rs as_ : R) (edges : list edge) (m : sim_map) :
  skeleton (force_iteration rs as_ edges m) = skeleton m.
Proof.
  unfold force_iteration. rewrite skeleton_on_sim.
  rewrite skeleton_foldl by apply skeleton_attract.
  rewrite skeleton_foldl by apply skeleton_repel.
  apply skeleton_on_sim.
Qed.

Lemma skeleton_iter (rs as_ : R) (edges : list edge) (n : nat) (m : sim_map) :
  skeleton (Nat.iter n (force_iteration rs as_ edges) m) = skeleton m.
Proof.
  induction n as [|n IH]; [done|]. by rewrite Nat.iter_succ, skeleton_iteration.
Qed.

Lemma sim_result_frame (m : sim_map) (nodes : list node) :
  skeleton m = map (fun n => (id n, n)) nodes →
  Forall2 repositioned_with_sim nodes (map (fun kv => sim_result (snd kv)) m).
Proof.
  revert m. induction nodes as [|n nodes IH]; intros [|[k v] m]; cbn; intros Hs;
    try discriminate.
  - constructor.
  - injection Hs as -> Hn Hrest. constructor; [|by apply IH].
    unfold sim_result. rewrite Hn. by do 2 eexists.
Qed.

Lemma forceDirectedLayout_frame (rnd : nat → R) (nodes : list node) (edges : list edge)
    (iterations : nat) (sp : spacing) :
  NoDup (map id nodes) →
  Forall2 repositioned_with_sim nodes (forceDirectedLayout rnd nodes edges iterations sp).
Proof.
  intros Hnd. unfold forceDirectedLayout. apply sim_result_frame.
  rewrite skeleton_iter. by apply init_sim_skeleton.
Qed.

(** C4 (amended): circular, grid, hierarchical and radial return each input
    node with only its position replaced; force-directed returns each input
    node (ids distinct) with its position replaced and, in addition, the
    simulation fields stored on it. *)
Theorem layout_frame (rnd : nat → R) (nodes : list node) (edges : list edge)
    (sp : spacing) :
  (∀ cx cy, Forall2 repositioned nodes (circularLayout nodes cx cy sp))
  ∧ (∀ columns, Forall2 repositioned nodes (gridLayout nodes columns sp))
  ∧ (∀ out, hierarchicalLayout nodes edges sp = Returned out →
            Forall2 repositioned nodes out)
  ∧ (∀ centerNodeId out, radialLayout nodes edges centerNodeId sp = Returned out →
                         Forall2 repositioned nodes out)
  ∧ (∀ iterations, NoDup (map id nodes) →
       Forall2 repositioned_with_sim nodes
               (forceDirectedLayout rnd nodes edges iterations sp)).
Proof.
  split; [intros; apply circularLayout_frame|].
  split; [intros; apply gridLayout_frame|].
  split; [intros out; apply hierarchicalLayout_frame|].
  split; [intros c out; apply radialLayout_frame|].
  intros; by apply forceDirectedLayout_frame.
Qed.


Definition frame_A : node := Parser.new_node "A" "A" None.
Definition frame_B : node := Parser.new_node "B" "B" None.

Lemma layout_frame_AB :
  Forall2 repositioned_with_sim [frame_A; frame_B]
          (forceDirectedLayout (fun _ => 1 / 2) [frame_A; frame_B] [] 50 DEFAULT_SPACING).
Proof.
  apply (layout_frame (fun _ => 1 / 2) [frame_A; frame_B] [] DEFAULT_SPACING).
  apply NoDup_ListNoDup. cbn. repeat constructor; cbn; intuition discriminate.
Defined.

(** A node as the parser creates it: at the origin, 150 by 40. *)
Definition node_A : node := Parser.new_node "A" "A" None.

Lemma clamp_id (lo hi v : R) : lo <= v <= hi → clamp lo hi v = v.
Proof.
  intros [Hlo Hhi]. unfold clamp, Rmax, Rmin.
  repeat destruct (Rle_dec _ _); lra.
Qed.

(** A single free node without edges feels no force. *)
Lemma force_iteration_single (rs as_ : R) (k : string) (n : node) (x y : R) :
  50 <= x <= 750 → 50 <= y <= 550 →
  force_iteration rs as_ [] [(k, SimNode n (Sim x y 0 0 false))]
  = [(k, SimNode n (Sim x y 0 0 false))].
Proof.
  intros Hx Hy. unfold force_iteration. cbn. unfold on_sim, move. cbn.
  replace (x + 0 * (9 / 10)) with x by lra.
  replace (y + 0 * (9 / 10)) with y by lra.
  by rewrite !clamp_id.
Qed.

Lemma force_single_node (rnd : nat → R) (n : node) (iterations : nat) (sp : spacing) :
  find_blue [n] = None → position n = Some (Point 0 0) →
  50 <= rnd 0%nat * 800 <= 750 → 50 <= rnd 1%nat * 600 <= 550 →
  forceDirectedLayout rnd [n] [] iterations sp
  = [sim_result (SimNode n (Sim (rnd 0%nat * 800) (rnd 1%nat * 600) 0 0 false))].
Proof.
  intros Hblue Hpos Hx Hy. unfold forceDirectedLayout. rewrite Hblue.
  cbn [foldl]. unfold init_sim. cbn [is_anchor fst snd]. rewrite Hpos.
  cbn [fmap option_fmap option_map px py]. unfold coord_or_random.
  destruct (Req_dec_T 0 0) as [_|Hne]; [|lra]. cbn [fst snd sim_set id].
  set (rs := _ * _).
  assert (∀ its, Nat.iter its (force_iteration rs (1 / 10) [])
                   [(id n, SimNode n (Sim (rnd 0%nat * 800) (rnd 1%nat * 600) 0 0 false))]
                 = [(id n, SimNode n (Sim (rnd 0%nat * 800) (rnd 1%nat * 600) 0 0 false))])
    as Hiter.
  { induction its as [|its IH]; [done|]. rewrite Nat.iter_succ, IH.
    by apply force_iteration_single. }
  by rewrite Hiter.
Qed.

Lemma applyLayout_force (rnd : nat → R) (nodes : list node) (edges : list edge)
    (sp : spacing) :
  applyLayout rnd (Some "force"%string) nodes edges sp
  = Returned (forceDirectedLayout rnd nodes edges 50 sp).
Proof. reflexivity. Qed.

Lemma find_blue_node_A : find_blue [node_A] = None.
Proof. reflexivity. Qed.

(** C4 as stated fails for the force-directed strategy: the node returned
    for a parser-made node carries the working fields, which the input does
    not have. *)
Lemma force_output_carries_working_fields :
  ∃ n', applyLayout (fun _ => 1 / 2) (Some "force"%string) [node_A] [] DEFAULT_SPACING
        = Returned [n']
        ∧ sim node_A = None
        ∧ sim n' = Some (Sim 400 300 0 0 false)
        ∧ ¬ repositioned node_A n'.
Proof.
  eexists. rewrite applyLayout_force.
  rewrite force_single_node; [|apply find_blue_node_A|done|lra..].
  split; [done|]. split; [done|]. unfold sim_result. cbn.
  split; [do 3 f_equal; lra|].
  intros [p Hp]. unfold with_position in Hp. by injection Hp.
Qed.

(** *** C2: dependence on Math.random *)









(** *** C8: radial levels and angles *)

Lemma sort_insert_perm {A : Type} (cmp : A → A → comparison) (a : A) (l : list A) :
  sort_insert cmp a l ≡ₚ a :: l.
Proof.
  induction l as [|b l IH]; cbn; [done|].
  destruct (cmp a b); try done. rewrite IH. apply Permutation_swap.
Qed.

Lemma js_sort_perm {A : Type} (cmp : A → A → comparison) (l : list A) :
  js_sort cmp l ≡ₚ l.
Proof.
  unfold js_sort. induction l as [|a l IH]; cbn; [done|].
  by rewrite sort_insert_perm, IH.
Qed.

Definition node_level (levels : gmap string Z) (n : node) : Z :=
  level_or0 levels (id n).

(** The nodes a level holds, in node order *)
Definition level_group (levels : gmap string Z) (nodes : list node) (k : Z)
  : list node :=
  filter (fun n => node_level levels n = k) nodes.

Lemma level_groups_lookup (levels : gmap string Z) (nodes : list node) (k : Z) :
  default [] (level_groups levels nodes !! k) = level_group levels nodes k.
Proof.
  unfold level_groups, level_group.
  induction nodes as [|n nodes IH] using rev_ind.
  - cbn. by rewrite lookup_empty.
  - rewrite foldl_snoc, filter_app, filter_cons, filter_nil. cbn.
    fold (node_level levels n).
    destruct (decide (node_level levels n = k)) as [->|Hne].
    + rewrite lookup_insert_eq. cbn. by rewrite IH.
    + rewrite lookup_insert_ne by done. by rewrite IH, app_nil_r.
Qed.

(** The writes of one level: slot [i] for the [i]-th node of the sorted
    list. *)
Definition write_slots (count : nat) (angles : gmap string R) (sorted : list node)
  : gmap string R :=
  foldl (fun angles inode => <[id (snd inode) := slot_angle count (fst inode)]> angles)
        angles (imap pair sorted).

Lemma write_slots_snoc (count : nat) (angles : gmap string R) (l : list node) (n : node) :
  write_slots count angles (l ++ [n])
  = <[id n := slot_angle count (length l)]> (write_slots count angles l).
Proof.
  unfold write_slots. rewrite imap_app, foldl_app. cbn.
  by rewrite Nat.add_0_r.
Qed.

Lemma write_slots_other (count : nat) (angles : gmap string R) (l : list node)
    (k : string) :
  k ∉ map id l → write_slots count angles l !! k = angles !! k.
Proof.
  induction l as [|n l IH] using rev_ind; intros Hk; [done|].
  rewrite write_slots_snoc. rewrite map_app in Hk.
  rewrite lookup_insert_ne by set_solver. apply IH. set_solver.
Qed.

Lemma write_slots_own (count : nat) (angles : gmap string R) (l : list node) :
  NoDup (map id l) →
  map (fun n => write_slots count angles l !! id n) l
  = map (fun i => Some (slot_angle count i)) (seq 0 (length l)).
Proof.
  induction l as [|n l IH] using rev_ind; intros Hnd; [done|].
  rewrite map_app in Hnd. apply NoDup_app in Hnd as (Hnd & Hfresh & _).
  rewrite length_app, Nat.add_comm. cbn [length Nat.add].
  rewrite seq_S, !map_app. cbn [map]. f_equal.
  - rewrite <- (IH Hnd). apply map_ext_in. intros m Hm.
    rewrite write_slots_snoc, lookup_insert_ne; [done|].
    intros Heq. apply (Hfresh (id m)).
    + apply list_elem_of_In, in_map, Hm.
    + rewrite <- Heq. cbn. set_solver.
  - by rewrite write_slots_snoc, lookup_insert_eq.
Qed.

(** What [assign_level] does, in terms of [write_slots] *)
Lemma assign_level_spec (levels : gmap string Z) (nodes : list node)
    (parents : gmap string (list string)) (angles : gmap string R) (k : Z) :
  ∃ sorted, sorted ≡ₚ level_group levels nodes k
            ∧ assign_level (level_groups levels nodes) parents angles k
              = write_slots (length (level_group levels nodes k)) angles sorted.
Proof.
  unfold assign_level. rewrite level_groups_lookup.
  destruct (level_group levels nodes k) as [|n g] eqn:E.
  - exists []. by split.
  - eexists. split; [apply js_sort_perm|done].
Qed.

Lemma level_group_level (levels : gmap string Z) (nodes : list node) (k : Z) (n : node) :
  n ∈ level_group levels nodes k → node_level levels n = k ∧ n ∈ nodes.
Proof. unfold level_group. rewrite list_elem_of_filter. tauto. Qed.

(** A level's pass leaves the angles of other levels' ids alone. *)
Lemma assign_level_other (levels : gmap string Z) (nodes : list node)
    (parents : gmap string (list string)) (angles : gmap string R) (j : Z) (k : string) :
  level_or0 levels k ≠ j →
  assign_level (level_groups levels nodes) parents angles j !! k = angles !! k.
Proof.
  intros Hne. destruct (assign_level_spec levels nodes parents angles j)
    as (sorted & Hperm & ->).
  apply write_slots_other. intros Hin.
  apply list_elem_of_In, in_map_iff in Hin as (m & Hid & Hm).
  apply list_elem_of_In in Hm. rewrite Hperm in Hm.
  apply level_group_level in Hm as [Hl _]. unfold node_level in Hl. congruence.
Qed.

Lemma assign_levels_other (levels : gmap string Z) (nodes : list node)
    (parents : gmap string (list string)) (js : list Z) (angles : gmap string R)
    (k : string) :
  level_or0 levels k ∉ js →
  foldl (assign_level (level_groups levels nodes) parents) angles js !! k
  = angles !! k.
Proof.
  revert angles. induction js as [|j js IH]; intros angles Hk; [done|].
  cbn. rewrite IH by set_solver. apply assign_level_other. set_solver.
Qed.

Lemma NoDup_level_group (levels : gmap string Z) (nodes : list node) (k : Z) :
  NoDup (map id nodes) → NoDup (map id (level_group levels nodes k)).
Proof.
  unfold level_group. induction nodes as [|n nodes IH]; [done|].
  cbn [map]. intros Hnd. apply NoDup_cons in Hnd as [Hn Hnd].
  rewrite filter_cons. destruct (decide _); [|by apply IH].
  cbn [map]. apply NoDup_cons. split; [|by apply IH].
  intros Hin. apply Hn. apply list_elem_of_In, in_map_iff in Hin as (m & Hid & Hm).
  apply list_elem_of_In, list_elem_of_filter in Hm as [_ Hm].
  apply list_elem_of_In, in_map_iff. exists m. split; [done|by apply list_elem_of_In].
Qed.


Lemma foldl_max_ge (vs : list Z) (a x : Z) :
  x = a ∨ x ∈ vs → (x <= foldl Z.max a vs)%Z.
Proof.
  revert a x. induction vs as [|v vs IH]; intros a x Hx; cbn.
  - destruct Hx as [->|Hx]; [lia|set_solver].
  - destruct Hx as [->|Hx].
    + etransitivity; [|apply IH; by left]. lia.
    + apply elem_of_cons in Hx as [->|Hx].
      * etransitivity; [|apply IH; by left]. lia.
      * apply IH. by right.
Qed.

Lemma max_level_bound (levels : gmap string Z) (k : string) (v : Z) :
  levels !! k = Some v → ∃ m, max_level levels = Some m ∧ (v <= m)%Z.
Proof.
  intros Hk. apply elem_of_map_to_list in Hk.
  assert (v ∈ ((map_to_list levels).*2)) as Hv
    by (apply list_elem_of_fmap; by exists (k, v)).
  unfold max_level. destruct ((map_to_list levels).*2) as [|v0 vs]; [set_solver|].
  eexists. split; [done|]. apply foldl_max_ge.
  apply elem_of_cons in Hv as [->|Hv]; auto.
Qed.

Lemma level_range_split (m k : Z) :
  (1 <= k <= m)%Z →
  ∃ L1 L2, level_range (Some m) = L1 ++ (k :: L2) ∧ (k ∉ L1) ∧ (k ∉ L2).
Proof.
  intros Hk. unfold level_range.
  assert (NoDup (map (fun i => Z.of_nat (S i)) (seq 0 (Z.to_nat m)))) as Hnd.
  { apply NoDup_ListNoDup, Finite.Injective_map_NoDup; [|apply seq_NoDup].
    intros i j Hij. lia. }
  assert (k ∈ map (fun i => Z.of_nat (S i)) (seq 0 (Z.to_nat m))) as Hin.
  { apply list_elem_of_In, in_map_iff. exists (Z.to_nat k - 1)%nat.
    split; [lia|]. apply in_seq. lia. }
  apply list_elem_of_split in Hin as (L1 & L2 & Heq). exists L1, L2.
  split; [done|]. rewrite Heq in Hnd.
  apply NoDup_app in Hnd as (_ & Hdisj & Hnd2).
  apply NoDup_cons in Hnd2 as [Hk2 _]. split; [|done].
  intros Hk1. apply (Hdisj k Hk1). set_solver.
Qed.

Lemma num_or_zero (v : R) : num_or (Some v) 0 = v.
Proof. unfold num_or. by destruct (Req_dec_T v 0). Qed.

(** After all passes, the nodes of level [k >= 1] hold the slots of their
    level, in the order of that level's sorted list. *)
Lemma radial_angles_level (center : string) (levels : gmap string Z)
    (nodes : list node) (edges : list edge) (k : Z) :
  NoDup (map id nodes) → (1 <= k)%Z →
  ∃ sorted,
    sorted ≡ₚ level_group levels nodes k
    ∧ map (fun n => radial_angles center levels nodes edges !! id n) sorted
      = map (fun i => Some (slot_angle (length (level_group levels nodes k)) i))
            (seq 0 (length (level_group levels nodes k))).
Proof.
  intros Hnd Hk. destruct (level_group levels nodes k) as [|n0 g] eqn:Hg.
  { exists []. by split. }
  rewrite <- Hg.
  assert (n0 ∈ level_group levels nodes k) as Hn0 by (rewrite Hg; set_solver).
  apply level_group_level in Hn0 as [Hl0 _]. unfold node_level, level_or0 in Hl0.
  destruct (levels !! id n0) as [v|] eqn:Hv; [|lia]. subst v.
  destruct (max_level_bound _ _ _ Hv) as (m & Hm & Hkm).
  destruct (level_range_split m k) as (L1 & L2 & Hsplit & HL1 & HL2); [lia|].
  unfold radial_angles. rewrite Hm, Hsplit, foldl_app. cbn [foldl].
  set (parents := parent_map levels edges).
  set (A1 := foldl _ _ L1).
  destruct (assign_level_spec levels nodes parents A1 k) as (sorted & Hperm & Hsorted).
  exists sorted. split; [done|].
  rewrite <- (Permutation_length Hperm).
  rewrite <- (write_slots_own (length sorted) A1 sorted).
  - apply map_ext_in. intros n Hn.
    rewrite assign_levels_other.
    + by rewrite Hsorted, (Permutation_length Hperm).
    + apply list_elem_of_In in Hn. rewrite Hperm in Hn.
      apply level_group_level in Hn as [Hl _]. unfold node_level in Hl. by rewrite Hl.
  - assert (map id sorted ≡ₚ map id (level_group levels nodes k)) as ->
      by (by apply Permutation_map).
    by apply NoDup_level_group.
Qed.

(** A point at polar coordinates [(r, a)] around the centre lies at
    distance [r]. *)
Lemma on_circle (r a : R) :
  0 <= r → sqrt ((400 + r * cos a - 400) * (400 + r * cos a - 400)
                 + (400 + r * sin a - 400) * (400 + r * sin a - 400)) = r.
Proof.
  intros Hr.
  replace ((400 + r * cos a - 400) * (400 + r * cos a - 400)
           + (400 + r * sin a - 400) * (400 + r * sin a - 400))
    with (r * r * (Rsqr (sin a) + Rsqr (cos a))) by (unfold Rsqr; lra).
  rewrite sin2_cos2, Rmult_1_r. by apply sqrt_square.
Qed.

Lemma max_width_ge (ws : list R) : 150 <= foldr Rmax 150 ws.
Proof.
  induction ws as [|w ws IH]; cbn; [lra|].
  etransitivity; [apply IH|apply Rmax_r].
Qed.

Lemma calculateMinSpacing_ge (nodes : list node) (base : R) :
  nodes ≠ [] → 180 <= calculateMinSpacing nodes base.
Proof.
  intros Hne. unfold calculateMinSpacing. destruct nodes as [|n nodes]; [done|].
  etransitivity; [|apply Rmax_r].
  pose proof (max_width_ge (map (fun n => num_or (width n) 150) (n :: nodes))). lra.
Qed.

Lemma level_radius_outer (minSpacing radiusStep : R) (k : Z) (count : nat) :
  (1 <= k)%Z → (1 ≤ count)%nat →
  level_radius minSpacing radiusStep k count
  = Rmax (minSpacing + IZR k * radiusStep) (INR count * minSpacing / (2 * PI)).
Proof.
  intros Hk Hc. unfold level_radius.
  by rewrite (proj2 (Z.ltb_lt 0 k)), (proj2 (Nat.ltb_lt 0 count)) by lia.
Qed.


(** Distance of a placed node from the centre (400, 400) *)
Definition distance_from_center (n : node) : option R :=
  match position n with
  | Some p => Some (sqrt ((px p - 400) * (px p - 400) + (py p - 400) * (py p - 400)))
  | None => None
  end.

(** C8 (amended): for every level k >= 1 of a graph with distinct ids, the
    nodes of the level lie at distance exactly the level's radius, which is
    at least the radius its node count requires and at least
    baseRadius + k * radiusStep, and their angles are a permutation of the
    evenly spaced slots 2 PI i / n.  Level 0 is excluded: its nodes are all
    put on the centre. *)
Theorem radial_levels_on_circles (nodes : list node) (edges : list edge)
    (centerNodeId : option string) (sp : spacing) (center : string)
    (levels : gmap string Z) (k : Z) :
  NoDup (map id nodes) →
  radial_center nodes edges centerNodeId = Some center →
  radial_levels (leveling_fuel (map id nodes) (map to_arc edges)) center
                (map id nodes) (map to_arc edges) = Returned levels →
  (1 <= k)%Z →
  let group := level_group levels nodes k in
  let count := length group in
  let minSpacing := calculateMinSpacing nodes (nodeSpacing sp) in
  let radius := level_radius minSpacing (radiusStep sp) k count in
  let angles := radial_angles center levels nodes edges in
  let place := radial_place levels (level_groups levels nodes) angles
                            minSpacing (radiusStep sp) in
  radialLayout nodes edges centerNodeId sp = Returned (map place nodes)
  ∧ map (fun n => num_or (angles !! id n) 0) group
    ≡ₚ map (slot_angle count) (seq 0 count)
  ∧ ∀ n, n ∈ group →
      distance_from_center (place n) = Some radius
      ∧ INR count * minSpacing / (2 * PI) <= radius
      ∧ minSpacing + IZR k * radiusStep sp <= radius.
Proof.
  intros Hnd Hcenter Hlevels Hk group count minSpacing radius angles place.
  split; [|split].
  - unfold radialLayout. by rewrite Hcenter, Hlevels.
  - destruct (radial_angles_level center levels nodes edges k Hnd Hk)
      as (sorted & Hperm & Hsorted).
    fold group count in Hperm, Hsorted. fold angles in Hsorted.
    rewrite <- Hperm.
    assert (map (fun n => num_or (angles !! id n) 0) sorted
            = map (slot_angle count) (seq 0 count)) as ->; [|done].
    apply (f_equal (map (fun o => num_or o 0))) in Hsorted.
    rewrite !map_map in Hsorted. rewrite Hsorted.
    apply map_ext. intros i. apply num_or_zero.
  - intros n Hn.
    assert (1 ≤ count)%nat as Hcount.
    { subst count. destruct group; [set_solver|cbn; lia]. }
    assert (nodes ≠ []) as Hne.
    { apply level_group_level in Hn as [_ Hn]. intros ->. set_solver. }
    pose proof (calculateMinSpacing_ge nodes (nodeSpacing sp) Hne) as Hmin.
    fold minSpacing in Hmin.
    assert (radius = Rmax (minSpacing + IZR k * radiusStep sp)
                          (INR count * minSpacing / (2 * PI))) as Hr
      by (by apply level_radius_outer).
    assert (0 <= INR count * minSpacing / (2 * PI)) as Hreq.
    { apply Rmult_le_pos; [apply Rmult_le_pos; [apply pos_INR|lra]|].
      apply Rlt_le, Rinv_0_lt_compat. pose proof PI_RGT_0. lra. }
    split; [|split].
    + apply level_group_level in Hn as [Hl _]. unfold node_level in Hl.
      unfold place, radial_place, distance_from_center.
      rewrite level_groups_lookup, Hl. fold group count radius.
      replace (k =? 0)%Z with false by (symmetry; apply Z.eqb_neq; lia).
      cbn [with_position position px py]. f_equal. apply on_circle.
      rewrite Hr. etransitivity; [apply Hreq|apply Rmax_r].
    + rewrite Hr. apply Rmax_r.
    + rewrite Hr. apply Rmax_l.
Qed.

Definition node_B : node := Parser.new_node "B" "B" None.

Definition edge_AB : edge := Edge "eA-B-0" "A" "B" None None (Some "floating"%string) [].

Lemma radial_levels_on_circles_AB :
  let levels : gmap string Z := {["A"%string := 0%Z; "B"%string := 1%Z]} in
  let group := level_group levels [node_A; node_B] 1 in
  let count := length group in
  let minSpacing := calculateMinSpacing [node_A; node_B] (nodeSpacing DEFAULT_SPACING) in
  let radius := level_radius minSpacing (radiusStep DEFAULT_SPACING) 1 count in
  let angles := radial_angles "A" levels [node_A; node_B] [edge_AB] in
  let place := radial_place levels (level_groups levels [node_A; node_B]) angles
                            minSpacing (radiusStep DEFAULT_SPACING) in
  radialLayout [node_A; node_B] [edge_AB] None DEFAULT_SPACING
  = Returned (map place [node_A; node_B])
  ∧ map (fun n => num_or (angles !! id n) 0) group
    ≡ₚ map (slot_angle count) (seq 0 count)
  ∧ ∀ n, n ∈ group →
      distance_from_center (place n) = Some radius
      ∧ INR count * minSpacing / (2 * PI) <= radius
      ∧ minSpacing + IZR 1 * radiusStep DEFAULT_SPACING <= radius.
Proof.
  apply (radial_levels_on_circles [node_A; node_B] [edge_AB] None DEFAULT_SPACING "A").
  - apply NoDup_ListNoDup. cbn. repeat constructor; cbn; intuition discriminate.
  - vm_compute. reflexivity.
  - vm_compute. reflexivity.
  - lia.
Defined.


(** C8 as stated fails at level 0.  Two nodes without edges are both on
    level 0 (B is never reached); both are put on the centre, at distance 0
    although the radius computed for the level is 180, and both get angle 0
    although the two slots of the level are 0 and PI. *)
Lemma radial_level0_on_center :
  let nodes := [node_A; node_B] in
  let levels : gmap string Z := {["A"%string := 0%Z]} in
  let minSpacing := calculateMinSpacing nodes (nodeSpacing DEFAULT_SPACING) in
  let angles := radial_angles "A" levels nodes [] in
  let place := radial_place levels (level_groups levels nodes) angles
                            minSpacing (radiusStep DEFAULT_SPACING) in
  radial_levels (leveling_fuel (map id nodes) []) "A" (map id nodes) []
  = Returned levels
  ∧ radialLayout nodes [] None DEFAULT_SPACING = Returned (map place nodes)
  ∧ level_group levels nodes 0 = nodes
  ∧ map (fun n => distance_from_center (place n)) nodes = [Some 0; Some 0]
  ∧ level_radius minSpacing (radiusStep DEFAULT_SPACING) 0 2 = 180
  ∧ map (fun n => num_or (angles !! id n) 0) nodes = [0; 0]
  ∧ map (slot_angle 2) (seq 0 2) = [0; PI]
  ∧ ¬ [0; 0] ≡ₚ [0; PI].
Proof.
  intros nodes levels minSpacing angles place.
  assert (radial_levels (leveling_fuel (map id nodes) []) "A" (map id nodes) []
          = Returned levels) as Hlevels by (vm_compute; reflexivity).
  assert (level_or0 levels "A" = 0%Z ∧ level_or0 levels "B" = 0%Z) as [HA HB]
    by (by vm_compute).
  assert (angles = {["A"%string := 0]}) as Hangles.
  { unfold angles, radial_angles.
    replace (max_level levels) with (Some 0%Z) by (by vm_compute). done. }
  split; [done|]. split.
  { unfold radialLayout.
    replace (radial_center nodes [] None) with (Some "A"%string) by (by vm_compute).
    change (map to_arc []) with (@nil arc). by rewrite Hlevels. }
  split.
  { unfold level_group, nodes, node_level, node_A, node_B.
    rewrite !filter_cons, filter_nil. cbn [Parser.new_node id].
    rewrite HA, HB. by rewrite !decide_True. }
  split.
  { unfold place, radial_place, distance_from_center, nodes, node_A, node_B.
    cbn [map Parser.new_node id]. rewrite HA, HB.
    cbn [Z.eqb with_position position px py].
    replace ((400 + 0 - 400) * (400 + 0 - 400) + (400 + 0 - 400) * (400 + 0 - 400))
      with 0 by lra.
    by rewrite sqrt_0. }
  split.
  { unfold level_radius, minSpacing, calculateMinSpacing, nodes, node_A, node_B.
    cbn [map foldr width Parser.new_node nodeSpacing DEFAULT_SPACING Z.ltb Z.compare
         andb].
    rewrite !FloatingEdgeFacts.num_or_truthy by lra.
    unfold Rmax. repeat destruct (Rle_dec _ _); lra. }
  split.
  { rewrite Hangles. unfold nodes, node_A, node_B. cbn [map Parser.new_node id].
    rewrite lookup_singleton_eq, lookup_singleton_ne by done.
    by rewrite num_or_zero. }
  split.
  { unfold slot_angle. cbn. f_equal; [lra|]. f_equal. field. }
  intros Hperm. apply Permutation_sym, Permutation_in with (x := PI) in Hperm.
  - pose proof PI_RGT_0 as Hpi. destruct Hperm as [H0|[H0|[]]]; lra.
  - right. by left.
Qed.

End LayoutFacts.

(** ** Further properties of the parser *)

From Stdlib Require Import DecimalNat.

Module ParserMore.
Import Js Parser JsFacts ParserFacts.

Lemma foldl_returned_inv_in {A M : Type} (step : outcome A → M → outcome A)
    (P : A → Prop) (a0 : A) (ms : list M) :
  (∀ m, step Thrown m = Thrown) → (∀ m, step OutOfFuel m = OutOfFuel) →
  P a0 →
  (∀ a m a', m ∈ ms → P a → step (Returned a) m = Returned a' → P a') →
  ∀ a, foldl step (Returned a0) ms = Returned a → P a.
Proof.
  intros Ht Ho H0 Hstep a Hrun.
  apply (foldl_returned_inv step (fun seen a => (∀ m, m ∈ seen → m ∈ ms) → P a) a0
           Ht Ho) with (ms := ms); [done| |done|done].
  intros seen a1 m a1' IH Hs Hsub. eapply Hstep; [|apply IH|done].
  - apply Hsub. set_solver.
  - intros m' Hm'. apply Hsub. set_solver.
Qed.

(** The two loops behind a returned graph. *)
Lemma parse_returned (text : string) (g : graph) :
  parseDotToReactFlow text = Returned g →
  ∃ defs ds ems es,
    exec_all nodeDefPattern (clean (to_str text)) = Some defs
    ∧ foldl (node_def_step (clean (to_str text))) (Returned (DefState [] ∅)) defs
      = Returned ds
    ∧ exec_all (edgePattern (is_directed (strip_comments (to_str text))))
        (clean (to_str text)) = Some ems
    ∧ foldl edge_step (Returned (EdgeState (d_nodeMap ds) [] 0)) ems = Returned es
    ∧ g = Graph (map snd (e_nodeMap es)) (map default_type (e_edges es)).
Proof.
  unfold parseDotToReactFlow.
  destruct (exec_all nodeDefPattern _) as [defs|] eqn:Hdefs; [|done].
  destruct (foldl (node_def_step _) _ defs) as [ds| |] eqn:Hds; [|done..].
  cbn [obind].
  destruct (exec_all (edgePattern _) _) as [ems|] eqn:Hems; [|done].
  destruct (foldl edge_step _ ems) as [es| |] eqn:Hes; [|done..].
  cbn [obind]. intros [= <-]. by exists defs, ds, ems, es.
Qed.


(** Keys of the node map after both loops. *)
Lemma parse_keys (text : string) (g : graph) :
  parseDotToReactFlow text = Returned g →
  ∃ ks, map id (nodes g) = insertion_order ks.
Proof.
  intros (defs & ds & ems & es & Hdefs & Hds & Hems & Hes & ->)%parse_returned.
  pose proof (foldl_returned_inv (node_def_step (clean (to_str text)))
                (def_inv (clean (to_str text))) (DefState [] ∅)) as H1.
  destruct (H1 (fun _ => eq_refl) (fun _ => eq_refl)) with (ms := defs) (a := ds)
    as (Hk1 & Hok1 & _); [|intros ms a m a'; apply node_def_step_inv|done|].
  { split; [done|]. split; [constructor|set_solver]. }
  pose proof (foldl_returned_inv edge_step (edge_inv (keys (d_nodeMap ds)))
                (EdgeState (d_nodeMap ds) [] 0)) as H2.
  destruct (H2 (fun _ => eq_refl) (fun _ => eq_refl)) with (ms := ems) (a := es)
    as (Hk2 & Hok2); [by split|intros ms a m a'; apply edge_step_inv|done|].
  cbn [nodes]. rewrite ids_ok_keys by done. rewrite Hk2, Hk1.
  eexists. unfold insertion_order. by rewrite <- foldl_app.
Qed.

Lemma NoDup_insert_key (acc : list string) (k : string) :
  NoDup acc → NoDup (insert_key acc k).
Proof.
  intros Hacc. unfold insert_key. destruct (decide (k ∈ acc)); [done|].
  apply NoDup_app. split; [done|]. split; [|apply NoDup_singleton].
  intros x Hx ->%list_elem_of_singleton. done.
Qed.

Lemma NoDup_insertion_order (ks : list string) : NoDup (insertion_order ks).
Proof.
  unfold insertion_order.
  assert (∀ acc, NoDup acc → NoDup (foldl insert_key acc ks)) as H.
  { induction ks as [|k ks IH]; intros acc Hacc; cbn; [done|].
    by apply IH, NoDup_insert_key. }
  apply H. constructor.
Qed.

Lemma insertion_order_length (ks : list string) :
  (length (insertion_order ks) ≤ length ks)%nat.
Proof.
  unfold insertion_order.
  assert (∀ acc, length (foldl insert_key acc ks) ≤ length acc + length ks)%nat as H.
  { induction ks as [|k ks IH]; intros acc; cbn [foldl length]; [lia|].
    etransitivity; [apply IH|]. unfold insert_key.
    destruct (decide (k ∈ acc)); [lia|]. rewrite length_app. cbn. lia. }
  apply (H []).
Qed.

(** X1: the ids of the returned nodes are pairwise distinct. *)
Theorem parser_node_ids_unique (text : string) (g : graph) :
  parseDotToReactFlow text = Returned g → NoDup (map id (nodes g)).
Proof.
  intros [ks ->]%parse_keys. apply NoDup_insertion_order.
Qed.

Definition twice_defined : string := "digraph G { A; A -> B; B -> A; A [color=red]; }".

Lemma parser_node_ids_unique_twice_defined :
  ∃ g, parseDotToReactFlow twice_defined = Returned g
       ∧ map id (nodes g) = ["A"; "B"]%string
       ∧ NoDup (map id (nodes g)).
Proof.
  eexists. split; [vm_compute; reflexivity|]. split; [by vm_compute|].
  apply (parser_node_ids_unique twice_defined). vm_compute. reflexivity.
Defined.


(** *** What every parsed node looks like *)

(** The fields the parser gives every node besides id, label and style. *)
Definition parser_shape (n : node) : Prop :=
  position n = Some (Point 0 0) ∧ width n = Some 150%R ∧ height n = Some 40%R
  ∧ sim n = None ∧ extra n = [].

Definition named (n : node) : Prop :=
  id n ≠ ""%string ∧ ∃ l, data_label n = Some l ∧ l ≠ ""%string.

Definition nodes_inv (m : node_map) : Prop :=
  Forall (fun kn => parser_shape (snd kn) ∧ named (snd kn)) m.

Lemma nodes_inv_map_set (k : string) (n : node) (m : node_map) :
  parser_shape n → named n → nodes_inv m → nodes_inv (map_set k n m).
Proof.
  intros Hs Hn. unfold nodes_inv. induction m as [|[k' n'] m IH]; cbn; intros Hm.
  - constructor; [by split|constructor].
  - apply Forall_cons in Hm as [H1 H2]. destruct (String.eqb k' k).
    + constructor; [by split|done].
    + constructor; [done|]. by apply IH.
Qed.

Lemma nodes_inv_map_get (k : string) (n : node) (m : node_map) :
  nodes_inv m → map_get k m = Some n → parser_shape n ∧ named n.
Proof.
  unfold nodes_inv. induction m as [|[k' n'] m IH]; cbn; [done|].
  intros [H1 H2]%Forall_cons. destruct (String.eqb k' k); [by intros [= <-]|].
  by apply IH.
Qed.

Lemma num_or_same (d : R) : num_or (Some d) d = d.
Proof. unfold num_or. by destruct (Req_dec_T d 0). Qed.

Lemma of_str_nonempty (s : str) : s ≠ [] → of_str s ≠ ""%string.
Proof. by destruct s. Qed.

Lemma nonempty_true (l : option string) :
  nonempty l = true → ∃ v, l = Some v ∧ v ≠ ""%string.
Proof. destruct l as [[|a v]|]; cbn; try done. intros _. by eexists. Qed.

Lemma new_node_ok (k label : string) (st : option style_rec) :
  k ≠ ""%string → label ≠ ""%string →
  parser_shape (new_node k label st) ∧ named (new_node k label st).
Proof. intros Hk Hl. repeat split; try done. by exists label. Qed.

Lemma update_node_ok (existing : node) (a : attrs) :
  parser_shape existing → named existing →
  parser_shape (update_node existing a) ∧ named (update_node existing a).
Proof.
  intros (Hp & Hw & Hh & Hs & He) (Hi & l & Hl & Hne). unfold update_node.
  rewrite Hw, Hh, !num_or_same. repeat split; try done. cbn [data_label].
  destruct (nonempty (a_label a)) eqn:E; [by apply nonempty_true|by exists l].
Qed.

(** A first-alternative id is never empty. *)
Lemma str_or_nonempty (a b : option str) (k v : str) :
  b = Some k → k ≠ [] → str_or a b = Some v → v ≠ [].
Proof.
  intros -> Hk. destruct a as [[|x a]|]; cbn; intros [= <-]; done.
Qed.

Lemma match_id_nonempty (g2 g3 g1 : option str) (k v : str) :
  g1 = Some k → k ≠ [] → str_or (str_or g2 g3) g1 = Some v → v ≠ [].
Proof.
  intros -> Hk. destruct g2 as [[|x a]|]; cbn; try (intros [= <-]; done);
    destruct g3 as [[|y b]|]; cbn; intros [= <-]; done.
Qed.

Lemma node_def_step_nodes_inv (cleaned : str) (defs : list rmatch) (m : rmatch)
    (st st' : def_state) :
  exec_all nodeDefPattern cleaned = Some defs → m ∈ defs →
  nodes_inv (d_nodeMap st) →
  node_def_step cleaned (Returned st) m = Returned st' →
  nodes_inv (d_nodeMap st').
Proof.
  intros Hdefs Hm Hinv.
  destruct (exec_all_matches _ _ _ _ Hdefs Hm) as (rest & Hmatch & _).
  apply nodeDef_match_groups in Hmatch as [(k & Hk & Hkne) _].
  unfold node_def_step. cbn [obind].
  destruct (str_or (str_or (group 2 m) (group 3 m)) (group 1 m)) as [nodeId_s|] eqn:Hid;
    [|done].
  assert (of_str nodeId_s ≠ ""%string) as Hne.
  { apply of_str_nonempty. exact (match_id_nonempty _ _ _ _ _ Hk Hkne Hid). }
  destruct (_ && _); [by intros [= <-]|].
  destruct (_ && _); [by intros [= <-]|].
  destruct (decide _); [by intros [= <-]|].
  destruct (_ || _); [|by intros [= <-]].
  destruct (parseAttributes _) as [nodeAttrs| |]; [|done..]. cbn [obind].
  destruct (map_get (of_str nodeId_s) (d_nodeMap st)) as [existing|] eqn:Hget;
    intros [= <-]; cbn [d_nodeMap].
  - destruct (nodes_inv_map_get _ _ _ Hinv Hget) as [Hs Hn].
    by apply nodes_inv_map_set; [apply update_node_ok..|].
  - apply nodes_inv_map_set; [apply new_node_ok..|done]; try done.
    + destruct (nonempty (a_label nodeAttrs)) eqn:E; [|done].
      apply nonempty_true in E as (v & -> & Hv). done.
    + destruct (nonempty (a_label nodeAttrs)) eqn:E; [|done].
      apply nonempty_true in E as (v & -> & Hv). done.
Qed.

Lemma nodes_inv_ensure_node (k : string) (m : node_map) :
  k ≠ ""%string → nodes_inv m → nodes_inv (ensure_node k m).
Proof.
  intros Hk Hm. unfold ensure_node. destruct (map_has k m); [done|].
  by apply nodes_inv_map_set; [apply new_node_ok..|].
Qed.

Lemma edge_step_nodes_inv (isDirected : bool) (cleaned : str) (ems : list rmatch)
    (m : rmatch) (st st' : edge_state) :
  exec_all (edgePattern isDirected) cleaned = Some ems → m ∈ ems →
  nodes_inv (e_nodeMap st) →
  edge_step (Returned st) m = Returned st' →
  nodes_inv (e_nodeMap st').
Proof.
  intros Hems Hm Hinv.
  destruct (exec_all_matches _ _ _ _ Hems Hm) as (rest & Hmatch & _).
  apply edge_match_groups in Hmatch as ((k1 & Hk1 & Hne1) & (k4 & Hk4 & Hne4) & _).
  unfold edge_step. cbn [obind].
  destruct (str_or (str_or (group 2 m) (group 3 m)) (group 1 m)) as [source_s|] eqn:Hs;
    [|done].
  destruct (str_or (str_or (group 5 m) (group 6 m)) (group 4 m)) as [target_s|] eqn:Ht;
    [|done].
  destruct (parseAttributes _) as [edgeAttrs| |]; [|done..]. cbn [obind].
  intros [= <-]. cbn [e_nodeMap].
  apply nodes_inv_ensure_node; [|apply nodes_inv_ensure_node; [|done]];
    apply of_str_nonempty.
  - exact (match_id_nonempty _ _ _ _ _ Hk4 Hne4 Ht).
  - exact (match_id_nonempty _ _ _ _ _ Hk1 Hne1 Hs).
Qed.

Lemma parse_nodes_inv (text : string) (g : graph) :
  parseDotToReactFlow text = Returned g →
  Forall (fun n => parser_shape n ∧ named n) (nodes g).
Proof.
  intros (defs & ds & ems & es & Hdefs & Hds & Hems & Hes & ->)%parse_returned.
  assert (nodes_inv (d_nodeMap ds)) as H1.
  { apply (foldl_returned_inv_in (node_def_step (clean (to_str text)))
             (fun st => nodes_inv (d_nodeMap st)) (DefState [] ∅) defs);
      [done|done|constructor| |done].
    intros a m a' Hm Ha Hstep. by eapply node_def_step_nodes_inv. }
  assert (nodes_inv (e_nodeMap es)) as H2.
  { apply (foldl_returned_inv_in edge_step
             (fun st => nodes_inv (e_nodeMap st)) (EdgeState (d_nodeMap ds) [] 0) ems);
      [done|done|done| |done].
    intros a m a' Hm Ha Hstep. by eapply edge_step_nodes_inv. }
  cbn [nodes]. unfold nodes_inv in H2.
  change (map snd (e_nodeMap es)) with (snd <$> e_nodeMap es). by apply Forall_fmap.
Qed.

(** X2: every node the parser returns sits at the origin with the default
    150 by 40 size, and carries no further field. *)
Theorem parser_nodes_at_origin (text : string) (g : graph) :
  parseDotToReactFlow text = Returned g →
  Forall (fun n => position n = Some (Point 0 0)
                   ∧ width n = Some 150%R ∧ height n = Some 40%R
                   ∧ sim n = None ∧ extra n = []) (nodes g).
Proof.
  intros H%parse_nodes_inv. eapply Forall_impl; [exact H|].
  by intros n [Hs _].
Qed.

Lemma parser_nodes_at_origin_twice_defined :
  ∃ g, parseDotToReactFlow twice_defined = Returned g
       ∧ Forall (fun n => position n = Some (Point 0 0)
                          ∧ width n = Some 150%R ∧ height n = Some 40%R
                          ∧ sim n = None ∧ extra n = []) (nodes g).
Proof.
  eexists. split; [vm_compute; reflexivity|].
  apply (parser_nodes_at_origin twice_defined). vm_compute. reflexivity.
Defined.

(** X3: every returned node has a non-empty id and a non-empty label. *)
Theorem parser_nodes_named (text : string) (g : graph) :
  parseDotToReactFlow text = Returned g →
  Forall (fun n => id n ≠ ""%string
                   ∧ ∃ l, data_label n = Some l ∧ l ≠ ""%string) (nodes g).
Proof.
  intros H%parse_nodes_inv. eapply Forall_impl; [exact H|].
  by intros n [_ Hn].
Qed.


Lemma parser_nodes_named_twice_defined :
  ∃ g, parseDotToReactFlow twice_defined = Returned g
       ∧ Forall (fun n => id n ≠ ""%string
                          ∧ ∃ l, data_label n = Some l ∧ l ≠ ""%string) (nodes g).
Proof.
  eexists. split; [vm_compute; reflexivity|].
  apply (parser_nodes_named twice_defined). vm_compute. reflexivity.
Defined.

(** *** Edge ids *)

Lemma to_uint_nonnil (n : nat) : Nat.to_uint n ≠ Decimal.Nil.
Proof.
  rewrite <- (Unsigned.of_to n) at 1. rewrite Unsigned.to_of.
  unfold Decimal.unorm. by destruct (Decimal.nzhead (Nat.to_uint n)).
Qed.

Lemma decimal_inj (i j : nat) : of_str (decimal i) = of_str (decimal j) → i = j.
Proof.
  unfold of_str, decimal. rewrite !string_of_list_ascii_of_string. intros H.
  apply Unsigned.to_uint_inj.
  pose proof (NilZero.usu _ (to_uint_nonnil i)) as Hi.
  pose proof (NilZero.usu _ (to_uint_nonnil j)) as Hj.
  rewrite H in Hi. rewrite Hi in Hj. by injection Hj.
Qed.

Lemma append_assoc (a b c : string) : ((a +:+ b) +:+ c = a +:+ b +:+ c)%string.
Proof.
  induction a as [|x a IH]; [by rewrite !append_nil|].
  rewrite !append_cons. by f_equal.
Qed.

Lemma append_cancel (a b c : string) : (a +:+ b = a +:+ c)%string → b = c.
Proof.
  induction a as [|x a IH]; [by rewrite !append_nil|].
  rewrite !append_cons. intros [= H]. by apply IH.
Qed.

(** The template [e${source}-${target}-${counter}] *)
Definition edge_id (source target : string) (counter : nat) : string :=
  ("e" +:+ source +:+ "-" +:+ target +:+ "-" +:+ of_str (decimal counter))%string.

Lemma edge_id_inj (s t s' t' : string) (i j : nat) :
  edge_id s t i = edge_id s' t' j → i = j.
Proof.
  unfold edge_id. intros H.
  assert ((("e" +:+ s +:+ "-" +:+ t) +:+ "-" +:+ of_str (decimal i))
          = (("e" +:+ s' +:+ "-" +:+ t') +:+ "-" +:+ of_str (decimal j)))%string as H'.
  { by rewrite !append_assoc. }
  pose proof (dash_key_inj _ _ _ _ (no_dash_decimal i) (no_dash_decimal j) H') as Hp.
  rewrite Hp in H'. apply append_cancel, append_cancel in H'. by apply decimal_inj.
Qed.

(** Invariant of the second loop on the edges pushed so far: the counter
    is their number, and edge [i] was built from the id template at [i]. *)
Definition edge_ids_inv (st : edge_state) : Prop :=
  e_counter st = length (e_edges st)
  ∧ ∀ i e, e_edges st !! i = Some e →
      ∃ s t, eid e = default (edge_id s t i) (get_prop "id" (eprops e))
             ∧ esource e = default s (get_prop "source" (eprops e))
             ∧ etarget e = default t (get_prop "target" (eprops e)).

Lemma edge_step_ids_inv (st st' : edge_state) (m : rmatch) :
  edge_ids_inv st → edge_step (Returned st) m = Returned st' → edge_ids_inv st'.
Proof.
  intros [Hc Hinv]. unfold edge_step. cbn [obind].
  destruct (str_or (str_or (group 2 m) (group 3 m)) (group 1 m)) as [source_s|];
    [|done].
  destruct (str_or (str_or (group 5 m) (group 6 m)) (group 4 m)) as [target_s|];
    [|done].
  destruct (parseAttributes _) as [edgeAttrs| |]; [|done..]. cbn [obind].
  intros [= <-]. split; cbn [e_counter e_edges].
  - rewrite length_app. cbn. lia.
  - intros i e He. apply lookup_app_Some in He as [He|[Hi He]]; [by apply Hinv|].
    apply list_lookup_singleton_Some in He as [Hz <-].
    assert (i = e_counter st) as -> by lia.
    exists (of_str source_s), (of_str target_s). by cbn.
Qed.

Lemma parse_edge_ids (text : string) (g : graph) (i : nat) (e : edge) :
  parseDotToReactFlow text = Returned g → edges g !! i = Some e →
  ∃ s t, eid e = default (edge_id s t i) (get_prop "id" (eprops e))
         ∧ esource e = default s (get_prop "source" (eprops e))
         ∧ etarget e = default t (get_prop "target" (eprops e)).
Proof.
  intros (defs & ds & ems & es & Hdefs & Hds & Hems & Hes & ->)%parse_returned.
  assert (edge_ids_inv es) as [_ Hinv].
  { apply (foldl_returned_inv_in edge_step edge_ids_inv
             (EdgeState (d_nodeMap ds) [] 0) ems); [done|done| | |done].
    - split; [done|]. intros j e'. cbn [e_edges]. by rewrite lookup_nil.
    - intros a m a' _ Ha Hstep. by eapply edge_step_ids_inv. }
  cbn [edges]. change (map default_type (e_edges es)) with (default_type <$> e_edges es).
  rewrite list_lookup_fmap. destruct (e_edges es !! i) as [e0|] eqn:He0; [|done].
  intros [= <-]. destruct (Hinv i e0 He0) as (s & t & H1 & H2 & H3).
  exists s, t. by cbn.
Qed.

(** X4: an edge without an [id] attribute is named by the template
    [e<source>-<target>-<index>] at its own index in the edge list, so no
    two such edges share an id. *)
Theorem parser_edge_ids_distinct (text : string) (g : graph) (i j : nat)
    (e e' : edge) :
  parseDotToReactFlow text = Returned g →
  edges g !! i = Some e → edges g !! j = Some e' →
  get_prop "id" (eprops e) = None → get_prop "id" (eprops e') = None →
  (∃ s t, eid e = edge_id s t i
          ∧ (get_prop "source" (eprops e) = None → esource e = s)
          ∧ (get_prop "target" (eprops e) = None → etarget e = t))
  ∧ (eid e = eid e' → i = j).
Proof.
  intros Hp Hi Hj Hn Hn'.
  destruct (parse_edge_ids _ _ _ _ Hp Hi) as (s & t & Hid & Hs & Ht).
  destruct (parse_edge_ids _ _ _ _ Hp Hj) as (s' & t' & Hid' & _ & _).
  rewrite Hn in Hid. rewrite Hn' in Hid'. cbn in Hid, Hid'. split.
  - exists s, t. split; [done|]. split; intros H; [rewrite H in Hs|rewrite H in Ht]; done.
  - rewrite Hid, Hid'. apply edge_id_inj.
Qed.

Definition two_edges : string := "digraph G { A -> B; A -> B; }".

Lemma parser_edge_ids_distinct_two_edges :
  ∃ g e e',
    parseDotToReactFlow two_edges = Returned g
    ∧ edges g !! 0%nat = Some e ∧ edges g !! 1%nat = Some e'
    ∧ (∃ s t, eid e = edge_id s t 0
              ∧ (get_prop "source" (eprops e) = None → esource e = s)
              ∧ (get_prop "target" (eprops e) = None → etarget e = t))
    ∧ (eid e = eid e' → 0%nat = 1%nat).
Proof.
  do 3 eexists. split; [vm_compute; reflexivity|].
  split; [vm_compute; reflexivity|]. split; [vm_compute; reflexivity|].
  eapply (parser_edge_ids_distinct two_edges); vm_compute; reflexivity.
Defined.


(** *** Edge endpoints and edge types *)

(** X5: when no edge carries an attribute named [source] or [target],
    every edge of the result joins two nodes of the result. *)
Theorem parser_edges_join_nodes (text : string) (g : graph) :
  parseDotToReactFlow text = Returned g →
  Forall (fun e => get_prop "source" (eprops e) = None
                   ∧ get_prop "target" (eprops e) = None) (edges g) →
  Forall (fun e => esource e ∈ map id (nodes g) ∧ etarget e ∈ map id (nodes g))
         (edges g).
Proof.
  intros Hp Hno. apply Forall_forall. intros e He.
  rewrite Forall_forall in Hno. destruct (Hno e He) as [Hs Ht].
  destruct (endpoints_exist_without_override text g e Hp He) as [H1 H2]. auto.
Qed.

Lemma parser_edges_join_nodes_twice_defined :
  ∃ g, parseDotToReactFlow twice_defined = Returned g
       ∧ Forall (fun e => esource e ∈ map id (nodes g) ∧ etarget e ∈ map id (nodes g))
                (edges g).
Proof.
  eexists. split; [vm_compute; reflexivity|].
  apply (parser_edges_join_nodes twice_defined); [vm_compute; reflexivity|].
  repeat constructor.
Defined.

Definition typed_inv (st : edge_state) : Prop :=
  Forall (fun e => etype e = get_prop "type" (eprops e)) (e_edges st).

Lemma edge_step_typed_inv (st st' : edge_state) (m : rmatch) :
  typed_inv st → edge_step (Returned st) m = Returned st' → typed_inv st'.
Proof.
  intros Hinv. unfold edge_step. cbn [obind].
  destruct (str_or (str_or (group 2 m) (group 3 m)) (group 1 m)) as [source_s|];
    [|done].
  destruct (str_or (str_or (group 5 m) (group 6 m)) (group 4 m)) as [target_s|];
    [|done].
  destruct (parseAttributes _) as [edgeAttrs| |]; [|done..]. cbn [obind].
  intros [= <-]. unfold typed_inv. cbn [e_edges].
  apply Forall_app. split; [done|]. by repeat constructor.
Qed.

(** X6: every returned edge has a non-empty [type]: the one its
    attribute list gives, and [floating] when the list has none or an empty
    one. *)
Theorem parser_edges_typed (text : string) (g : graph) :
  parseDotToReactFlow text = Returned g →
  Forall (fun e => ∃ t, etype e = Some t ∧ t ≠ ""%string
                        ∧ (nonempty (get_prop "type" (eprops e)) = true →
                           get_prop "type" (eprops e) = Some t)
                        ∧ (nonempty (get_prop "type" (eprops e)) = false →
                           t = "floating"%string))
         (edges g).
Proof.
  intros (defs & ds & ems & es & Hdefs & Hds & Hems & Hes & ->)%parse_returned.
  assert (typed_inv es) as Hinv.
  { apply (foldl_returned_inv_in edge_step typed_inv
             (EdgeState (d_nodeMap ds) [] 0) ems); [done|done|constructor| |done].
    intros a m a' _ Ha Hstep. by eapply edge_step_typed_inv. }
  cbn [edges]. change (map default_type (e_edges es)) with (default_type <$> e_edges es).
  apply Forall_fmap. eapply Forall_impl; [exact Hinv|].
  intros e He. unfold compose, default_type. cbn [etype eprops]. rewrite He.
  destruct (nonempty (get_prop "type" (eprops e))) eqn:E.
  - destruct (nonempty_true _ E) as (t & Ht & Hne). exists t. by rewrite Ht in *.
  - exists "floating"%string. by repeat split.
Qed.

Definition typed_edges : string :=
  "digraph G { A -> B [type=orthogonal]; B -> C; }".

Lemma parser_edges_typed_example :
  ∃ g, parseDotToReactFlow typed_edges = Returned g
       ∧ map etype (edges g) = [Some "orthogonal"; Some "floating"]%string
       ∧ Forall (fun e => ∃ t, etype e = Some t ∧ t ≠ ""%string
                               ∧ (nonempty (get_prop "type" (eprops e)) = true →
                                  get_prop "type" (eprops e) = Some t)
                               ∧ (nonempty (get_prop "type" (eprops e)) = false →
                                  t = "floating"%string))
                (edges g).
Proof.
  eexists. split; [vm_compute; reflexivity|]. split; [by vm_compute|].
  apply (parser_edges_typed typed_edges). vm_compute. reflexivity.
Defined.

End ParserMore.

(** ** parseAttributes on one attribute *)

Module AttrFacts.
Import Js Parser JsFacts ParserFacts.

Lemma rep_greedy_all {X : Type} (p : ascii → bool) (k : str → option X) (w rest : str)
    (x : X) :
  Forall (fun a => p a = true) w →
  match rest with a :: _ => p a = false | [] => True end →
  k rest = Some x →
  ∀ min, (min ≤ length w)%nat → rep_greedy p k min (w ++ rest) = Some x.
Proof.
  intros Hw Hrest Hk. induction Hw as [|a w Ha Hw IH]; intros min Hmin.
  - cbn in Hmin. assert (min = 0%nat) as -> by lia. cbn.
    destruct rest as [|b rest]; [done|]. cbn. by rewrite Hrest.
  - cbn. rewrite Ha. rewrite IH; [done|]. cbn in Hmin. lia.
Qed.

Lemma rep_greedy_stop {X : Type} (p : ascii → bool) (k : str → option X) (a : ascii)
    (s : str) :
  p a = false → rep_greedy p k 0 (a :: s) = k (a :: s).
Proof. intros H. cbn. by rewrite H. Qed.

Lemma take_app_minus (w rest : str) :
  take (length (w ++ rest) - length rest) (w ++ rest) = w.
Proof.
  rewrite length_app.
  replace (length w + length rest - length rest)%nat with (length w) by lia.
  by rewrite take_app_length.
Qed.

(** [key="v"] as a code-unit sequence *)
Definition quoted_attr (key v : str) : str :=
  key ++ "="%char :: dquote :: v ++ [dquote].

Lemma run_quoted_attr (key v : str) :
  key ≠ [] → Forall (fun a => is_word a = true) key →
  Forall (fun a => is_none_of [dquote] a = true) v →
  run attrPattern (quoted_attr key v) = Some ([], [(2%nat, v); (1%nat, key)]).
Proof.
  intros Hne Hkey Hv. unfold run, attrPattern, quoted_attr.
  cbn [run_k seqs]. unfold Plus, Star. cbn [run_k].
  erewrite (rep_greedy_all is_word _ key); [reflexivity|done|done| |].
  - rewrite rep_greedy_stop by done.
    change (is_char "=" "=") with true. cbv iota.
    rewrite rep_greedy_stop by done.
    change (is_char dquote dquote) with true. cbv iota.
    erewrite (rep_greedy_all (is_none_of [dquote]) _ v [dquote]);
      [reflexivity|done|done| |lia].
    change (is_char dquote dquote) with true. cbv iota.
    by rewrite !take_app_minus.
  - destruct key; [done|cbn; lia].
Qed.

(** After a match that reaches the end of the string the scan stops. *)
Lemma exec_all_from_skip (r : regex) (s : str) (i : nat) :
  run r [] = None → exec_all_from r i (length s) s = Some [].
Proof.
  intros Hr. revert i. induction s as [|a s IH]; intros i; cbn.
  - by rewrite Hr.
  - apply IH.
Qed.

Lemma exec_all_whole (r : regex) (s : str) (c : caps) :
  s ≠ [] → run r [] = None → run r s = Some ([], c) →
  exec_all r s = Some [RMatch 0 s c].
Proof.
  intros Hs Hr Hrun. unfold exec_all. destruct s as [|a s]; [done|].
  cbn [exec_all_from]. rewrite Hrun. cbn [length Nat.sub].
  rewrite exec_all_from_skip by done. cbn. by rewrite firstn_all.
Qed.

Lemma is_word_not_space (a : ascii) : is_word a = true → is_space a = false.
Proof. destruct a as [[] [] [] [] [] [] [] []]; by vm_compute. Qed.

Lemma drop_while_head (p : ascii → bool) (a : ascii) (s : str) :
  p a = false → drop_while p (a :: s) = a :: s.
Proof. intros H. cbn. by rewrite H. Qed.

Lemma trim_word (key : str) : Forall (fun a => is_word a = true) key → trim key = key.
Proof.
  intros Hkey. unfold trim.
  assert (∀ w, Forall (fun a => is_word a = true) w → drop_while is_space w = w) as Hd.
  { intros [|a w] Hw; [done|]. apply Forall_cons in Hw as [Ha _].
    by apply drop_while_head, is_word_not_space. }
  rewrite (Hd key Hkey), Hd; [apply rev_involutive|].
  by apply Forall_rev.
Qed.

(** The first alternative of [attrPattern] needs a double quote. *)
Lemma quoted_alternative_needs_quote (w rest : str) (c c' : caps) :
  matches (seqs [Group 1 (Plus is_word); Star is_space; Chr (is_char "=");
                 Star is_space; Chr (is_char dquote);
                 Group 2 (Star (is_none_of [dquote])); Chr (is_char dquote)])
          w rest c c' →
  dquote ∈ w.
Proof.
  cbn [seqs]. unfold Plus, Star. intros H. inv_matches.
  match goal with H : is_char dquote ?a = true |- _ => apply is_char_eq in H as -> end.
  set_solver.
Qed.

(** [key=v] without quotes *)
Definition bare_attr (key v : str) : str := key ++ "="%char :: v.

Lemma run_bare_attr (key v : str) (a : ascii) (v' : str) :
  key ≠ [] → Forall (fun a => is_word a = true) key →
  v = a :: v' → is_space a = false →
  Forall (fun a => is_none_of [";"; ","; "]"]%char a = true) v →
  dquote ∉ v →
  run attrPattern (bare_attr key v) = Some ([], [(4%nat, v); (3%nat, key)]).
Proof.
  intros Hne Hkey Hv Ha Hvs Hq. unfold run, attrPattern.
  cbn [run_k].
  destruct (run_k (seqs _) _ (bare_attr key v) []) as [x|] eqn:E1.
  { exfalso. apply run_k_sound in E1 as (w & rest & c' & Hs & M & _).
    apply quoted_alternative_needs_quote in M.
    assert (dquote ∈ bare_attr key v) as Hin by (rewrite Hs; set_solver).
    unfold bare_attr in Hin. apply elem_of_app in Hin as [Hin|Hin].
    - rewrite Forall_forall in Hkey. by specialize (Hkey _ Hin).
    - apply elem_of_cons in Hin as [Hin|Hin]; done. }
  unfold bare_attr. cbn [run_k seqs]. unfold Plus, Star. cbn [run_k].
  erewrite (rep_greedy_all is_word _ key); [reflexivity|done|done| |].
  - subst v. rewrite rep_greedy_stop by done.
    change (is_char "=" "=") with true. cbv iota.
    rewrite rep_greedy_stop by done.
    rewrite <- (app_nil_r (a :: v')) at 1.
    erewrite (rep_greedy_all (is_none_of [";"; ","; "]"]%char) _ (a :: v') []);
      [reflexivity|done|done| |cbn; lia].
    rewrite (take_app_minus key ("="%char :: a :: v')).
    replace (length (a :: v') - length (@nil ascii))%nat with (length (a :: v'))
      by (cbn; lia).
    by rewrite firstn_all.
  - destruct key; [done|cbn; lia].
Qed.

(** X7: a single attribute parses to its key with the trimmed value,
    through the switch of parseAttributes, whether the value is quoted
    ([key=QvQ]) or bare ([key=v]); when the quotes are empty the call
    throws.  (Q stands for the double-quote character.) *)
Theorem parseAttributes_single (key v : str) :
  key ≠ [] → Forall (fun a => is_word a = true) key →
  (Forall (fun a => is_none_of [dquote] a = true) v →
   parseAttributes (quoted_attr key v)
   = match v with
     | [] => Thrown
     | _ => Returned (set_attr no_attrs (of_str key) (of_str (trim v)))
     end)
  ∧ (match v with a :: _ => is_space a = false | [] => False end →
     Forall (fun a => is_none_of [";"; ","; "]"; dquote]%char a = true) v →
     parseAttributes (bare_attr key v)
     = Returned (set_attr no_attrs (of_str key) (of_str (trim v)))).
Proof.
  intros Hne Hkey. split.
  - intros Hv. unfold parseAttributes.
    assert (quoted_attr key v ≠ []) as Hs by (unfold quoted_attr; by destruct key).
    destruct (quoted_attr key v) as [|a s] eqn:E; [done|]. rewrite <- E.
    rewrite (exec_all_whole attrPattern _ [(2%nat, v); (1%nat, key)]);
      [|by rewrite E|done|by apply run_quoted_attr].
    cbn [foldl]. unfold attr_step, group. cbn [obind m_groups].
    change (cap_get 1 [(2%nat, v); (1%nat, key)]) with (Some key).
    change (cap_get 2 [(2%nat, v); (1%nat, key)]) with (Some v).
    change (cap_get 3 [(2%nat, v); (1%nat, key)]) with (@None str).
    change (cap_get 4 [(2%nat, v); (1%nat, key)]) with (@None str).
    destruct key as [|k0 key']; [done|]. cbn [str_or].
    destruct v as [|v0 v']; [done|]. cbn [str_or].
    by rewrite trim_word.
  - intros Hhead Hv. destruct v as [|a v'] eqn:Ev; [done|]. rewrite <- Ev in *.
    unfold parseAttributes.
    assert (bare_attr key v ≠ []) as Hs by (unfold bare_attr; by destruct key).
    destruct (bare_attr key v) as [|b s] eqn:E; [done|]. rewrite <- E.
    rewrite (exec_all_whole attrPattern _ [(4%nat, v); (3%nat, key)]);
      [|by rewrite E|done|].
    2:{ apply (run_bare_attr key v a v'); try done.
        - eapply Forall_impl; [exact Hv|]. intros c. unfold is_none_of. cbn.
          destruct (Ascii.eqb c ";"), (Ascii.eqb c ","), (Ascii.eqb c "]"); done.
        - intros Hin. rewrite Forall_forall in Hv. specialize (Hv _ Hin).
          by vm_compute in Hv. }
    cbn [foldl]. unfold attr_step, group. cbn [obind m_groups].
    change (cap_get 1 [(4%nat, v); (3%nat, key)]) with (@None str).
    change (cap_get 2 [(4%nat, v); (3%nat, key)]) with (@None str).
    change (cap_get 3 [(4%nat, v); (3%nat, key)]) with (Some key).
    change (cap_get 4 [(4%nat, v); (3%nat, key)]) with (Some v).
    destruct key as [|k0 key']; [done|]. cbn [str_or]. rewrite Ev. cbn [str_or].
    by rewrite trim_word.
Qed.


Lemma parseAttributes_single_label :
  parseAttributes (quoted_attr (to_str "label") (to_str " go "))
  = Returned (Attrs (Some "go"%string) None [])
  ∧ parseAttributes (bare_attr (to_str "label") (to_str "go "))
    = Returned (Attrs (Some "go"%string) None []).
Proof.
  destruct (parseAttributes_single (to_str "label") (to_str " go ")) as [H1 _];
    [done|repeat constructor|].
  destruct (parseAttributes_single (to_str "label") (to_str "go ")) as [_ H2];
    [done|repeat constructor|].
  split; [apply H1; repeat constructor|apply H2; [done|repeat constructor]].
Defined.

End AttrFacts.

(** ** Node labels *)

Module LabelFacts.
Import Js Parser JsFacts ParserFacts.

Lemma drop_while_suffix (p : ascii → bool) (s : str) : ∃ a, s = a ++ drop_while p s.
Proof.
  induction s as [|x s [a IH]]; [by exists []|]. cbn.
  destruct (p x); [|by exists []]. exists (x :: a). cbn. by f_equal.
Qed.

Lemma trim_infix (s : str) : infix (trim s) s.
Proof.
  unfold trim. destruct (drop_while_suffix is_space s) as [a Ha].
  destruct (drop_while_suffix is_space (rev (drop_while is_space s))) as [b Hb].
  exists a, (rev b). rewrite Ha at 1. f_equal.
  rewrite <- (rev_involutive (drop_while is_space s)) at 1. rewrite Hb at 1.
  by rewrite rev_app_distr.
Qed.

Lemma of_str_inj (a b : str) : of_str a = of_str b → a = b.
Proof.
  unfold of_str. intros H.
  by rewrite <- (list_ascii_of_string_of_list_ascii a), H, list_ascii_of_string_of_list_ascii.
Qed.

Definition label_word : str := to_str "label".

(** Every key but [label] leaves the label alone. *)
Lemma set_attr_label (a : attrs) (key value : string) :
  key ≠ "label"%string → a_label (set_attr a key value) = a_label a.
Proof.
  intros Hk. unfold set_attr. apply String.eqb_neq in Hk. rewrite Hk.
  repeat (destruct (String.eqb key _); [done|]). done.
Qed.

Lemma attr_step_no_label (t : str) (ms : list rmatch) (m : rmatch) (a a' : attrs) :
  exec_all attrPattern t = Some ms → m ∈ ms → ¬ infix label_word t →
  a_label a = None → attr_step (Returned a) m = Returned a' → a_label a' = None.
Proof.
  intros Hms Hm Hno Ha. unfold attr_step. cbn [obind].
  destruct (exec_all_matches _ _ _ _ Hms Hm) as (rest & Hmatch & Hw & _).
  destruct (str_or (group 1 m) (group 3 m)) as [key|] eqn:Hkey; [|done].
  destruct (str_or (group 2 m) (group 4 m)) as [value|]; [|done].
  intros [= <-]. rewrite set_attr_label; [done|].
  intros Heq. apply Hno.
  assert (trim key = label_word) as Htrim by (apply of_str_inj; exact Heq).
  assert (infix key (m_whole m)) as Hin.
  { assert (group 1 m = Some key ∨ group 3 m = Some key) as [H|H].
    { unfold str_or in Hkey. destruct (group 1 m) as [[|x l]|]; auto. }
    - destruct (matches_caps _ _ _ _ _ Hmatch 1%nat key H) as [?|?]; done.
    - destruct (matches_caps _ _ _ _ _ Hmatch 3%nat key H) as [?|?]; done. }
  eapply infix_trans; [|exact Hw]. eapply infix_trans; [|exact Hin].
  rewrite <- Htrim. apply trim_infix.
Qed.

Lemma parseAttributes_no_label (t : str) (a : attrs) :
  ¬ infix label_word t → parseAttributes t = Returned a → a_label a = None.
Proof.
  intros Hno. unfold parseAttributes. destruct t as [|x t]; [by intros [= <-]|].
  destruct (exec_all attrPattern (x :: t)) as [ms|] eqn:Hms; [|done].
  apply (ParserMore.foldl_returned_inv_in attr_step (fun a => a_label a = None)
           no_attrs ms); [done|done|done|].
  intros a0 m a1 Hm Ha0 Hstep. by eapply attr_step_no_label.
Qed.

Definition labels_inv (m : node_map) : Prop :=
  Forall (fun kn => data_label (snd kn) = Some (id (snd kn))) m.

Lemma labels_inv_map_set (k : string) (n : node) (m : node_map) :
  data_label n = Some (id n) → labels_inv m → labels_inv (map_set k n m).
Proof.
  intros Hn. unfold labels_inv. induction m as [|[k' n'] m IH]; cbn; intros Hm.
  - by constructor.
  - apply Forall_cons in Hm as [H1 H2]. destruct (String.eqb k' k); constructor; auto.
Qed.

Lemma labels_inv_map_get (k : string) (n : node) (m : node_map) :
  labels_inv m → map_get k m = Some n → data_label n = Some (id n).
Proof.
  unfold labels_inv. induction m as [|[k' n'] m IH]; cbn; [done|].
  intros [H1 H2]%Forall_cons. destruct (String.eqb k' k); [by intros [= <-]|].
  by apply IH.
Qed.

Lemma node_def_step_labels (cleaned : str) (defs : list rmatch) (m : rmatch)
    (st st' : def_state) :
  exec_all nodeDefPattern cleaned = Some defs → m ∈ defs →
  ¬ infix label_word cleaned →
  labels_inv (d_nodeMap st) →
  node_def_step cleaned (Returned st) m = Returned st' →
  labels_inv (d_nodeMap st').
Proof.
  intros Hdefs Hm Hno Hinv.
  destruct (exec_all_matches _ _ _ _ Hdefs Hm) as (rest & Hmatch & Hw & _).
  apply nodeDef_match_groups in Hmatch as [_ H4].
  unfold node_def_step. cbn [obind].
  destruct (str_or (str_or (group 2 m) (group 3 m)) (group 1 m)) as [nodeId_s|]; [|done].
  destruct (_ && _); [by intros [= <-]|].
  destruct (_ && _); [by intros [= <-]|].
  destruct (decide _); [by intros [= <-]|].
  destruct (_ || _); [|by intros [= <-]].
  destruct (parseAttributes _) as [nodeAttrs| |] eqn:Hattrs; [|done..]. cbn [obind].
  assert (a_label nodeAttrs = None) as Hnone.
  { eapply parseAttributes_no_label; [|exact Hattrs].
    destruct (attributes_infix (group 4 m) (m_whole m) H4) as [->|Hin].
    - intros (a & b & Hab). symmetry in Hab. apply app_eq_nil in Hab as [_ Hab].
      by apply app_eq_nil in Hab as [Hab _].
    - intros Hl. apply Hno. eapply infix_trans; [exact Hl|]. by eapply infix_trans. }
  destruct (map_get (of_str nodeId_s) (d_nodeMap st)) as [existing|] eqn:Hget;
    intros [= <-]; cbn [d_nodeMap]; apply labels_inv_map_set; try done.
  - unfold update_node. rewrite Hnone. cbn. by eapply labels_inv_map_get.
  - by rewrite Hnone.
Qed.

Lemma labels_inv_ensure_node (k : string) (m : node_map) :
  labels_inv m → labels_inv (ensure_node k m).
Proof.
  intros Hm. unfold ensure_node. destruct (map_has k m); [done|].
  by apply labels_inv_map_set.
Qed.

Lemma edge_step_labels (st st' : edge_state) (m : rmatch) :
  labels_inv (e_nodeMap st) → edge_step (Returned st) m = Returned st' →
  labels_inv (e_nodeMap st').
Proof.
  intros Hinv. unfold edge_step. cbn [obind].
  destruct (str_or (str_or (group 2 m) (group 3 m)) (group 1 m)) as [source_s|];
    [|done].
  destruct (str_or (str_or (group 5 m) (group 6 m)) (group 4 m)) as [target_s|];
    [|done].
  destruct (parseAttributes _) as [edgeAttrs| |]; [|done..]. cbn [obind].
  intros [= <-]. cbn [e_nodeMap]. by do 2 apply labels_inv_ensure_node.
Qed.

(** X8: when the word [label] does not occur in the cleaned text, every
    returned node is labelled with its own id. *)
Theorem parser_label_defaults_to_id (text : string) (g : graph) :
  parseDotToReactFlow text = Returned g →
  ¬ infix label_word (clean (to_str text)) →
  Forall (fun n => data_label n = Some (id n)) (nodes g).
Proof.
  intros (defs & ds & ems & es & Hdefs & Hds & Hems & Hes & ->)%ParserMore.parse_returned
         Hno.
  assert (labels_inv (d_nodeMap ds)) as H1.
  { apply (ParserMore.foldl_returned_inv_in (node_def_step (clean (to_str text)))
             (fun st => labels_inv (d_nodeMap st)) (DefState [] ∅) defs);
      [done|done|constructor| |done].
    intros a m a' Hm Ha Hstep. by eapply node_def_step_labels. }
  assert (labels_inv (e_nodeMap es)) as H2.
  { apply (ParserMore.foldl_returned_inv_in edge_step
             (fun st => labels_inv (e_nodeMap st)) (EdgeState (d_nodeMap ds) [] 0) ems);
      [done|done|done| |done].
    intros a m a' Hm Ha Hstep. by eapply edge_step_labels. }
  cbn [nodes]. unfold labels_inv in H2.
  change (map snd (e_nodeMap es)) with (snd <$> e_nodeMap es). by apply Forall_fmap.
Qed.

Lemma parser_label_defaults_to_id_twice_defined :
  ∃ g, parseDotToReactFlow ParserMore.twice_defined = Returned g
       ∧ Forall (fun n => data_label n = Some (id n)) (nodes g).
Proof.
  eexists. split; [vm_compute; reflexivity|].
  apply (parser_label_defaults_to_id ParserMore.twice_defined);
    [vm_compute; reflexivity|].
  apply not_infix. vm_compute. reflexivity.
Defined.

End LabelFacts.

(** ** Further properties of the layout strategies *)

Module LayoutMore.
Import Leveling Layout LevelingFacts LayoutFacts.
Local Open Scope R_scope.

(** *** calculateMinSpacing *)

Lemma max_width_elem (ws : list R) (w : R) : w ∈ ws → w <= foldr Rmax 150 ws.
Proof.
  induction ws as [|x ws IH]; [by intros ?%elem_of_nil|].
  intros [->|Hin]%elem_of_cons; cbn.
  - apply Rmax_l.
  - etransitivity; [by apply IH|apply Rmax_r].
Qed.

(** X9: the spacing is never below the base spacing; with at least one
    node it is also at least 180 and at least 30 more than the width
    (or the 150 default) of every node; with no node it is the base. *)
Theorem calculateMinSpacing_bounds (nodes : list node) (base : R) :
  base <= calculateMinSpacing nodes base
  ∧ (nodes = [] → calculateMinSpacing nodes base = base)
  ∧ (nodes ≠ [] → 180 <= calculateMinSpacing nodes base)
  ∧ Forall (fun n => num_or (width n) 150 + 30 <= calculateMinSpacing nodes base) nodes.
Proof.
  split; [|split; [|split]].
  - destruct nodes; cbn; [lra|apply Rmax_l].
  - by intros ->.
  - apply calculateMinSpacing_ge.
  - apply Forall_forall. intros n Hn. destruct nodes as [|n0 nodes']; [by apply elem_of_nil in Hn|].
    unfold calculateMinSpacing. etransitivity; [|apply Rmax_r].
    apply Rplus_le_compat_r, max_width_elem.
    apply list_elem_of_In, in_map_iff. exists n. split; [done|by apply list_elem_of_In].
Qed.


(** *** circularLayout *)

Definition circle_radius (nodes : list node) (sp : spacing) : R :=
  let blueNode := find_blue nodes in
  let otherNodes := filter (fun n => is_anchor blueNode n = false) nodes in
  Rmax (minRadius sp)
       (calculateMinSpacing nodes (nodeSpacing sp) * INR (length otherNodes) / (2 * PI)).

Lemma circle_point (cx cy r a : R) :
  (cx + r * cos a - cx) * (cx + r * cos a - cx)
  + (cy + r * sin a - cy) * (cy + r * sin a - cy) = r * r.
Proof.
  pose proof (sin2_cos2 a) as H. unfold Rsqr in H.
  replace (cx + r * cos a - cx) with (r * cos a) by lra.
  replace (cy + r * sin a - cy) with (r * sin a) by lra.
  replace (r * cos a * (r * cos a) + r * sin a * (r * sin a))
    with (r * r * (sin a * sin a + cos a * cos a)) by lra.
  rewrite H. lra.
Qed.

(** X10: circularLayout puts the anchor (the blue node, when there is
    one) on the centre and every other node on the circle of radius
    [max(minRadius, minSpacing * count / (2 PI))] around it; the radius is
    large enough for an arc of [minSpacing] between neighbouring slots. *)
Theorem circularLayout_on_circle (nodes : list node) (cx cy : R) (sp : spacing) :
  let blueNode := find_blue nodes in
  let count := length (filter (fun n => is_anchor blueNode n = false) nodes) in
  let r := circle_radius nodes sp in
  Forall2 (fun n n' =>
             id n' = id n
             ∧ if is_anchor blueNode n then position n' = Some (Point cx cy)
               else ∃ p, position n' = Some p
                         ∧ (px p - cx) * (px p - cx) + (py p - cy) * (py p - cy) = r * r)
          nodes (circularLayout nodes cx cy sp)
  ∧ (nodes ≠ [] → 0 <= r)
  ∧ ((0 < count)%nat →
     calculateMinSpacing nodes (nodeSpacing sp) <= r * (2 * PI / INR count)).
Proof.
  intros blueNode count r. split; [|split].
  - unfold circularLayout. fold blueNode. apply Forall2_fmap_r, Forall_Forall2_diag.
    apply Forall_forall. intros n _. unfold compose. cbv beta.
    destruct (is_anchor blueNode n); [done|].
    split; [done|]. eexists. split; [done|]. cbn [px py]. apply circle_point.
  - intros Hne. unfold r, circle_radius. etransitivity; [|apply Rmax_r].
    pose proof (calculateMinSpacing_ge nodes (nodeSpacing sp) Hne).
    pose proof (pos_INR (length (filter (λ n : node, is_anchor (find_blue nodes) n = false) nodes))).
    pose proof PI_RGT_0.
    apply Rmult_le_pos; [apply Rmult_le_pos; lra|].
    apply Rlt_le, Rinv_0_lt_compat. lra.
  - intros Hc. assert (0 < INR count) as Hpos by (apply lt_0_INR; lia).
    pose proof PI_RGT_0 as Hpi.
    assert (calculateMinSpacing nodes (nodeSpacing sp) * INR count / (2 * PI) <= r) as Hr.
    { unfold r, circle_radius. apply Rmax_r. }
    assert (0 < 2 * PI / INR count) as Hq.
    { apply Rdiv_lt_0_compat; lra. }
    apply (Rmult_le_compat_r _ _ _ (Rlt_le _ _ Hq)) in Hr.
    etransitivity; [|exact Hr]. right. field. split; lra.
Qed.


Lemma findIndex_NoDup (l : list node) (i : nat) (n : node) :
  NoDup (map id l) → l !! i = Some n →
  findIndex (fun n' => String.eqb (id n') (id n)) l = Z.of_nat i.
Proof.
  revert i. induction l as [|a l IH]; intros i Hnd Hi; [done|].
  cbn in Hnd. apply NoDup_cons in Hnd as [Ha Hnd]. destruct i as [|i]; cbn in Hi.
  - injection Hi as ->. cbn. by rewrite String.eqb_refl.
  - cbn [findIndex]. destruct (String.eqb (id a) (id n)) eqn:E.
    + apply String.eqb_eq in E. exfalso. apply Ha. rewrite E.
      apply list_elem_of_In, in_map, list_elem_of_In. by eapply list_elem_of_lookup_2.
    + rewrite (IH i Hnd Hi). destruct (Z.of_nat i) eqn:Ez; lia.
Qed.

Lemma map_by_index {A B : Type} (g : A → B) (h : nat → B) (l : list A) :
  (∀ i a, l !! i = Some a → g a = h i) → map g l = map h (seq 0 (length l)).
Proof.
  intros H. apply list_eq. intros i.
  change (map g l) with (g <$> l). change (map h (seq 0 (length l))) with (h <$> seq 0 (length l)).
  rewrite !list_lookup_fmap. destruct (l !! i) as [a|] eqn:E; cbn.
  - rewrite (lookup_seq_lt _ _ i) by (by eapply lookup_lt_Some). cbn. f_equal. by apply H.
  - rewrite lookup_seq_ge; [done|]. by apply lookup_ge_None.
Qed.

Lemma NoDup_filter_ids (P : node → Prop) `{∀ n, Decision (P n)} (l : list node) :
  NoDup (map id l) → NoDup (map id (filter P l)).
Proof.
  induction l as [|a l IH]; [done|]. cbn [map]. intros [Ha Hnd]%NoDup_cons.
  rewrite filter_cons. destruct (decide (P a)); [|by apply IH].
  cbn [map]. apply NoDup_cons. split; [|by apply IH].
  intros Hin. apply Ha. apply list_elem_of_In, in_map_iff in Hin as (x & Hx & Hin).
  apply list_elem_of_In, in_map_iff. exists x. split; [done|].
  apply list_elem_of_In in Hin. apply list_elem_of_In. by apply list_elem_of_filter in Hin as [_ ?].
Qed.

Lemma filter_map_same {A : Type} (P : A → Prop) `{∀ a, Decision (P a)} (f : A → A)
    (l : list A) :
  (∀ a, P (f a) ↔ P a) → filter P (map f l) = map f (filter P l).
Proof.
  intros Hf. induction l as [|a l IH]; [done|]. cbn [map]. rewrite !filter_cons.
  destruct (decide (P (f a))) as [H1|H1], (decide (P a)) as [H2|H2]; cbn [map];
    try (by rewrite IH); exfalso; [apply H2|apply H1]; by apply Hf.
Qed.

(** X11: when the node ids are distinct, the nodes other than the anchor
    take, in their order in the input, the evenly spaced angles
    [2 PI i / count] on the circle. *)
Theorem circularLayout_even_slots (nodes : list node) (cx cy : R) (sp : spacing) :
  NoDup (map id nodes) →
  let blueNode := find_blue nodes in
  let count := length (filter (fun n => is_anchor blueNode n = false) nodes) in
  let r := circle_radius nodes sp in
  map position (filter (fun n' => is_anchor blueNode n' = false)
                       (circularLayout nodes cx cy sp))
  = map (fun i => Some (Point (cx + r * cos (slot_angle count i))
                              (cy + r * sin (slot_angle count i))))
        (seq 0 count).
Proof.
  intros Hnd blueNode count r. unfold circularLayout. fold blueNode.
  set (others := filter (fun n => is_anchor blueNode n = false) nodes).
  set (f := fun n : node => if is_anchor blueNode n then _ else _).
  rewrite filter_map_same.
  2:{ intros n. unfold f.
      assert (∀ p, is_anchor blueNode (with_position n p) = is_anchor blueNode n) as Hp by done.
      destruct (is_anchor blueNode n) eqn:E; by rewrite Hp. }
  fold others. rewrite map_map. apply map_by_index. intros i n Hi.
  assert (is_anchor blueNode n = false) as Hn.
  { apply list_elem_of_lookup_2, list_elem_of_filter in Hi. tauto. }
  unfold f. rewrite Hn. cbn [position with_position].
  rewrite (findIndex_NoDup others i n); [|by apply NoDup_filter_ids|done].
  rewrite <- INR_IZR_INZ. done.
Qed.


Lemma circularLayout_even_slots_AB :
  let nodes := [node_A; node_B] in
  let blueNode := find_blue nodes in
  let count := length (filter (fun n => is_anchor blueNode n = false) nodes) in
  let r := circle_radius nodes DEFAULT_SPACING in
  map position (filter (fun n' => is_anchor blueNode n' = false)
                       (circularLayout nodes 400 400 DEFAULT_SPACING))
  = map (fun i => Some (Point (400 + r * cos (slot_angle count i))
                              (400 + r * sin (slot_angle count i))))
        (seq 0 count).
Proof.
  apply (circularLayout_even_slots [node_A; node_B] 400 400 DEFAULT_SPACING).
  apply NoDup_ListNoDup. cbn. repeat constructor; cbn; intuition discriminate.
Defined.

(** *** gridLayout *)

Lemma INR_apart (a b : nat) : a ≠ b → 1 <= Rabs (INR a - INR b).
Proof.
  intros Hab. destruct (Nat.lt_ge_cases a b) as [Hlt|Hge].
  - rewrite Rabs_left1.
    + assert (INR a + 1 <= INR b); [|lra]. rewrite <- S_INR. apply le_INR. lia.
    + assert (INR a <= INR b); [|lra]. apply le_INR. lia.
  - rewrite Rabs_right.
    + assert (INR b + 1 <= INR a); [|lra]. rewrite <- S_INR. apply le_INR. lia.
    + assert (INR b <= INR a); [|lra]. apply le_INR. lia.
Qed.

Lemma grid_columns_pos (columns : option nat) (count : nat) :
  (0 < count)%nat → (0 < grid_columns columns count)%nat.
Proof.
  intros Hc. unfold grid_columns. destruct columns as [[|c]|]; try lia;
    by apply Nat.sqrt_up_pos.
Qed.

(** X12: gridLayout puts node [i] in column [i mod cols] and row
    [i / cols] of a grid whose cells are [nodeSpacing] apart, so two
    different nodes are at least [nodeSpacing] apart in one direction; with
    the default column count there are no more rows than columns. *)
Theorem gridLayout_cells (nodes : list node) (columns : option nat) (sp : spacing)
    (i j : nat) (ni nj : node) :
  gridLayout nodes columns sp !! i = Some ni →
  gridLayout nodes columns sp !! j = Some nj →
  i ≠ j →
  let cols := grid_columns columns (length nodes) in
  let nodeSpacing := calculateMinSpacing nodes (gridSpacing sp) in
  position ni = Some (Point (100 + INR (i mod cols) * nodeSpacing)
                            (100 + INR (i / cols) * nodeSpacing))
  ∧ (∃ pi pj, position ni = Some pi ∧ position nj = Some pj
              ∧ (nodeSpacing <= Rabs (px pi - px pj)
                 ∨ nodeSpacing <= Rabs (py pi - py pj)))
  ∧ (columns = None → (i / cols < cols)%nat).
Proof.
  intros Hi Hj Hij cols s. unfold gridLayout in Hi, Hj.
  rewrite list_lookup_imap in Hi, Hj. fold cols s in Hi, Hj.
  destruct (nodes !! i) as [n|] eqn:Ei; [|done].
  destruct (nodes !! j) as [n'|] eqn:Ej; [|done].
  cbn [fmap option_fmap option_map] in Hi, Hj. injection Hi as <-. injection Hj as <-.
  assert (0 < length nodes)%nat as Hlen.
  { apply lookup_lt_Some in Ei. lia. }
  assert (0 < cols)%nat as Hcols by by apply grid_columns_pos.
  assert (180 <= s) as Hs.
  { apply calculateMinSpacing_ge. intros ->. cbn in Hlen. lia. }
  split; [done|]. split.
  - do 2 eexists. split; [done|]. split; [done|]. cbn [px py].
    destruct (decide (i mod cols = j mod cols)%nat) as [Hc|Hc].
    + right. assert ((i / cols)%nat ≠ (j / cols)%nat) as Hr.
      { intros Hr. apply Hij.
        rewrite (Nat.div_mod_eq i cols), (Nat.div_mod_eq j cols). by rewrite Hc, Hr. }
      apply INR_apart in Hr.
      replace (100 + INR (i / cols) * s - (100 + INR (j / cols) * s))
        with ((INR (i / cols) - INR (j / cols)) * s) by lra.
      rewrite Rabs_mult, (Rabs_right s) by lra. nra.
    + left. apply INR_apart in Hc.
      replace (100 + INR (i mod cols) * s - (100 + INR (j mod cols) * s))
        with ((INR (i mod cols) - INR (j mod cols)) * s) by lra.
      rewrite Rabs_mult, (Rabs_right s) by lra. nra.
  - intros ->. unfold cols in *. cbn [grid_columns] in *.
    apply Nat.Div0.div_lt_upper_bound.
    apply lookup_lt_Some in Ei.
    pose proof (Nat.sqrt_up_spec (length nodes) Hlen) as [_ Hup]. cbn in Hup. lia.
Qed.


Lemma gridLayout_cells_AB :
  ∃ ni nj,
    gridLayout [node_A; node_B] None DEFAULT_SPACING !! 0%nat = Some ni
    ∧ gridLayout [node_A; node_B] None DEFAULT_SPACING !! 1%nat = Some nj
    ∧ let cols := grid_columns None 2 in
      let nodeSpacing := calculateMinSpacing [node_A; node_B] (gridSpacing DEFAULT_SPACING) in
      position ni = Some (Point (100 + INR (0 mod cols) * nodeSpacing)
                                (100 + INR (0 / cols) * nodeSpacing))
      ∧ (∃ pi pj, position ni = Some pi ∧ position nj = Some pj
                  ∧ (nodeSpacing <= Rabs (px pi - px pj)
                     ∨ nodeSpacing <= Rabs (py pi - py pj)))
      ∧ (@None nat = None → (0 / cols < cols)%nat).
Proof.
  do 2 eexists. split; [reflexivity|]. split; [reflexivity|].
  apply (gridLayout_cells [node_A; node_B] None DEFAULT_SPACING 0 1);
    [reflexivity|reflexivity|lia].
Defined.

End LayoutMore.

Module ForceMore.
Import Leveling Layout LevelingFacts LayoutFacts.
Local Open Scope R_scope.

(** *** forceDirectedLayout *)





(** The pinned flag marks the anchor, and a pinned object never leaves
    the centre. *)
Definition pinned_ok (blueNode : option node) (v : sim_node) : Prop :=
  sim_fixed (sn_sim v) = is_anchor blueNode (sn_node v)
  ∧ (sim_fixed (sn_sim v) = true → sim_x (sn_sim v) = 400 ∧ sim_y (sn_sim v) = 400).

Definition pins_ok (blueNode : option node) (m : sim_map) : Prop :=
  Forall (fun kv => pinned_ok blueNode (snd kv)) m.

Lemma pins_ok_sim_set (b : option node) (k : string) (v : sim_node) (m : sim_map) :
  pinned_ok b v → pins_ok b m → pins_ok b (sim_set k v m).
Proof.
  intros Hv. unfold pins_ok. induction m as [|[k' v'] m IH]; cbn; intros Hm.
  - by constructor.
  - apply Forall_cons in Hm as [H1 H2]. destruct (String.eqb k' k); constructor; auto.
Qed.

Lemma pins_ok_init (rnd : nat → R) (b : option node) (nodes : list node)
    (acc : sim_map * nat) :
  pins_ok b (fst acc) → pins_ok b (fst (foldl (init_sim rnd b) acc nodes)).
Proof.
  revert acc. induction nodes as [|n nodes IH]; intros acc Hacc; [done|].
  cbn [foldl]. apply IH. unfold init_sim.
  destruct (is_anchor b n) eqn:E; cbn [fst]; apply pins_ok_sim_set; try done.
Qed.

(** A change that keeps the place and the pinned flag. *)
Definition keeps_place (f : sim_fields → sim_fields) : Prop :=
  ∀ s, sim_x (f s) = sim_x s ∧ sim_y (f s) = sim_y s ∧ sim_fixed (f s) = sim_fixed s.

Lemma keeps_place_add_velocity (dvx dvy : R) : keeps_place (add_velocity dvx dvy).
Proof. by intros s. Qed.

Lemma keeps_place_reset : keeps_place reset_velocity.
Proof. by intros s. Qed.

Lemma pinned_ok_keeps (b : option node) (f : sim_fields → sim_fields) (v : sim_node) :
  keeps_place f → pinned_ok b v → pinned_ok b (SimNode (sn_node v) (f (sn_sim v))).
Proof.
  intros Hf [H1 H2]. destruct (Hf (sn_sim v)) as (Hx & Hy & Hfx).
  unfold pinned_ok. cbn [sn_sim sn_node]. rewrite Hx, Hy, Hfx. by split.
Qed.

Lemma pins_ok_map_keeps (b : option node) (f : sim_fields → sim_fields) (m : sim_map) :
  keeps_place f → pins_ok b m → pins_ok b (map (on_sim f) m).
Proof.
  intros Hf Hm. unfold pins_ok in *. apply Forall_forall. intros kv Hkv.
  apply list_elem_of_In, in_map_iff in Hkv as (kv0 & <- & Hin).
  rewrite Forall_forall in Hm. apply list_elem_of_In, Hm in Hin.
  by apply pinned_ok_keeps.
Qed.

Lemma pins_ok_repel (b : option node) (rs : R) (m : sim_map) (ij : nat * nat) :
  pins_ok b m → pins_ok b (repel rs m ij).
Proof.
  intros Hm. unfold repel.
  destruct (m !! ij.1) as [[ka a]|] eqn:Ea; [|done].
  destruct (m !! ij.2) as [[kb c]|] eqn:Eb; [|done].
  unfold pins_ok in *.
  assert (∀ i kv, m !! i = Some kv → pinned_ok b (snd kv)) as Hl.
  { intros i kv Hi. rewrite Forall_forall in Hm. by eapply Hm, list_elem_of_lookup_2. }
  apply Forall_insert; [apply Forall_insert; [done|]|]; cbn [snd].
  - apply (pinned_ok_keeps b _ a); [apply keeps_place_add_velocity|exact (Hl _ _ Ea)].
  - apply (pinned_ok_keeps b _ c); [apply keeps_place_add_velocity|exact (Hl _ _ Eb)].
Qed.

Lemma pins_ok_sim_alter (b : option node) (f : sim_fields → sim_fields) (k : string)
    (m : sim_map) :
  keeps_place f → pins_ok b m → pins_ok b (sim_alter f k m).
Proof.
  intros Hf. unfold pins_ok. induction m as [|[k' v'] m IH]; cbn; [done|].
  intros [H1 H2]%Forall_cons. destruct (String.eqb k' k); constructor; auto.
  by apply pinned_ok_keeps.
Qed.

Lemma pins_ok_attract (b : option node) (as_ : R) (m : sim_map) (e : edge) :
  pins_ok b m → pins_ok b (attract as_ m e).
Proof.
  intros Hm. unfold attract.
  destruct (sim_get (esource e) m) as [src|]; [|done].
  destruct (sim_get (etarget e) m) as [tgt|]; [|done].
  by do 2 (apply pins_ok_sim_alter; [apply keeps_place_add_velocity|]).
Qed.

Lemma pins_ok_move (b : option node) (m : sim_map) :
  pins_ok b m → pins_ok b (map (on_sim move) m).
Proof.
  intros Hm. unfold pins_ok in *. apply Forall_forall. intros kv Hkv.
  apply list_elem_of_In, in_map_iff in Hkv as (kv0 & <- & Hin).
  rewrite Forall_forall in Hm. apply list_elem_of_In, Hm in Hin as [H1 H2].
  unfold pinned_ok, on_sim, move. cbn [snd sn_sim sn_node].
  destruct (sim_fixed (sn_sim kv0.2)) eqn:E; cbn [sim_fixed sim_x sim_y]; by split.
Qed.

Lemma pins_ok_foldl {A : Type} (b : option node) (f : sim_map → A → sim_map)
    (l : list A) (m : sim_map) :
  (∀ m a, pins_ok b m → pins_ok b (f m a)) → pins_ok b m → pins_ok b (foldl f m l).
Proof. intros Hf. revert m. induction l as [|a l IH]; intros m Hm; cbn; auto. Qed.

Lemma pins_ok_iteration (b : option node) (rs as_ : R) (edges : list edge) (m : sim_map) :
  pins_ok b m → pins_ok b (force_iteration rs as_ edges m).
Proof.
  intros Hm. unfold force_iteration. apply pins_ok_move.
  apply pins_ok_foldl; [intros; by apply pins_ok_attract|].
  apply pins_ok_foldl; [intros; by apply pins_ok_repel|].
  by apply pins_ok_map_keeps; [apply keeps_place_reset|].
Qed.

(** X14: for any number of iterations, the node the layout pins (the
    blue node, and any node sharing its id) is returned at (400, 400) with
    its pinned flag set, and no other node is flagged as pinned. *)
Theorem forceDirectedLayout_pins_anchor (rnd : nat → R) (nodes : list node)
    (edges : list edge) (iterations : nat) (sp : spacing) :
  Forall (fun n' =>
            ∃ s, sim n' = Some s
                 ∧ sim_fixed s = is_anchor (find_blue nodes) n'
                 ∧ (is_anchor (find_blue nodes) n' = true →
                    position n' = Some (Point 400 400)))
         (forceDirectedLayout rnd nodes edges iterations sp).
Proof.
  unfold forceDirectedLayout. set (b := find_blue nodes).
  set (m0 := fst (foldl (init_sim rnd b) ([], 0%nat) nodes)).
  assert (pins_ok b m0) as H0 by (apply pins_ok_init; constructor).
  set (step := force_iteration _ _ edges).
  assert (pins_ok b (Nat.iter iterations step m0)) as Hm.
  { induction iterations as [|k IH]; [done|]. rewrite Nat.iter_succ.
    by apply pins_ok_iteration. }
  apply Forall_forall. intros n' Hn'.
  apply list_elem_of_In, in_map_iff in Hn' as ([k v] & <- & Hin).
  unfold pins_ok in Hm. rewrite Forall_forall in Hm.
  apply list_elem_of_In, Hm in Hin as [H1 H2]. cbn [snd] in *.
  exists (sn_sim v). split; [done|]. split; [done|].
  assert (is_anchor b (sim_result v) = is_anchor b (sn_node v)) as -> by done.
  rewrite <- H1. intros Hf. destruct (H2 Hf) as [Hx Hy].
  unfold sim_result. cbn [position]. by rewrite Hx, Hy.
Qed.


(** *** One working object per id *)

Lemma sim_set_keys (k : string) (v : sim_node) (m : sim_map) :
  map fst (sim_set k v m) = ParserFacts.insert_key (map fst m) k.
Proof.
  unfold ParserFacts.insert_key. induction m as [|[k' v'] m IH]; cbn [sim_set map fst].
  - destruct (decide (k ∈ [])) as [H|_]; [by apply elem_of_nil in H|done].
  - destruct (String.eqb k' k) eqn:E.
    + apply String.eqb_eq in E as ->. cbn [map fst].
      destruct (decide (k ∈ k :: map fst m)) as [_|H]; [done|]. exfalso. apply H. left.
    + apply String.eqb_neq in E. cbn [map fst]. rewrite IH.
      destruct (decide (k ∈ map fst m)) as [H|H];
        destruct (decide (k ∈ k' :: map fst m)) as [H'|H']; try done.
      * exfalso. apply H'. by right.
      * exfalso. apply elem_of_cons in H' as [->|H']; done.
Qed.

Definition keyed_by_id (m : sim_map) : Prop :=
  Forall (fun kv => id (sn_node (snd kv)) = fst kv) m.

Lemma keyed_sim_set (k : string) (v : sim_node) (m : sim_map) :
  id (sn_node v) = k → keyed_by_id m → keyed_by_id (sim_set k v m).
Proof.
  intros Hv. unfold keyed_by_id. induction m as [|[k' v'] m IH]; cbn; intros Hm.
  - by constructor.
  - apply Forall_cons in Hm as [H1 H2]. destruct (String.eqb k' k) eqn:E.
    + apply String.eqb_eq in E as ->. by constructor.
    + constructor; auto.
Qed.

Lemma init_sim_keys (rnd : nat → R) (b : option node) (nodes : list node)
    (acc : sim_map * nat) :
  keyed_by_id (fst acc) →
  keyed_by_id (fst (foldl (init_sim rnd b) acc nodes))
  ∧ map fst (fst (foldl (init_sim rnd b) acc nodes))
    = foldl ParserFacts.insert_key (map fst (fst acc)) (map id nodes).
Proof.
  revert acc. induction nodes as [|n nodes IH]; intros acc Hacc; [done|].
  cbn [foldl map].
  assert (keyed_by_id (fst (init_sim rnd b acc n))
          ∧ map fst (fst (init_sim rnd b acc n))
            = ParserFacts.insert_key (map fst (fst acc)) (id n)) as [H1 H2].
  { unfold init_sim. destruct (is_anchor b n); cbn [fst];
      (split; [by apply keyed_sim_set|apply sim_set_keys]). }
  destruct (IH _ H1) as [H3 H4]. split; [done|]. by rewrite H4, H2.
Qed.

(** X15: forceDirectedLayout returns one node per distinct id, in the
    order in which the ids first occur in the input; nodes that repeat an
    id are merged into one. *)
Theorem forceDirectedLayout_one_node_per_id (rnd : nat → R) (nodes : list node)
    (edges : list edge) (iterations : nat) (sp : spacing) :
  map id (forceDirectedLayout rnd nodes edges iterations sp)
  = ParserFacts.insertion_order (map id nodes)
  ∧ NoDup (map id (forceDirectedLayout rnd nodes edges iterations sp))
  ∧ (length (forceDirectedLayout rnd nodes edges iterations sp) ≤ length nodes)%nat.
Proof.
  assert (map id (forceDirectedLayout rnd nodes edges iterations sp)
          = ParserFacts.insertion_order (map id nodes)) as Hids.
  { unfold forceDirectedLayout. set (b := find_blue nodes).
    set (m0 := fst (foldl (init_sim rnd b) ([], 0%nat) nodes)).
    set (m := Nat.iter iterations _ m0).
    destruct (init_sim_keys rnd b nodes ([], 0%nat)) as [Hk Hkeys]; [constructor|].
    fold m0 in Hk, Hkeys.
    assert (skeleton m = skeleton m0) as Hsk by apply skeleton_iter.
    rewrite map_map.
    transitivity (map (fun kn : string * node => id (snd kn)) (skeleton m)).
    { unfold skeleton. by rewrite map_map. }
    rewrite Hsk. unfold skeleton. rewrite map_map. cbn [snd].
    transitivity (map fst m0); [|done].
    apply map_ext_in. intros kv Hin. unfold keyed_by_id in Hk.
    rewrite Forall_forall in Hk. by apply Hk, list_elem_of_In. }
  split; [done|]. split.
  - rewrite Hids. apply ParserMore.NoDup_insertion_order.
  - rewrite <- (length_map id), Hids, <- (length_map id nodes).
    apply ParserMore.insertion_order_length.
Qed.

End ForceMore.

Module ThrowFacts.
Import Leveling Layout LevelingFacts LayoutFacts.
Local Open Scope R_scope.

(** *** When hierarchicalLayout and radialLayout throw *)

Lemma build_adjacency_sources (ids : list string) (arcs : list arc)
    (adj : gmap string (list string)) :
  build_adjacency ids arcs = Some adj → ∀ a, a ∈ arcs → source a ∈ ids.
Proof.
  unfold build_adjacency. revert adj.
  induction arcs as [|e arcs IH] using rev_ind; intros adj; [set_solver|].
  rewrite foldl_snoc. unfold push_arc at 1.
  destruct (foldl push_arc _ arcs) as [adj0|] eqn:E0; [|done].
  destruct (adj0 !! source e) as [l|] eqn:El; [|done].
  intros _ a [Ha|Ha]%elem_of_app; [by eapply IH|].
  apply list_elem_of_singleton in Ha as ->.
  rewrite (build_adjacency_lookup ids arcs adj0 _ E0) in El.
  by destruct (decide (source e ∈ ids)).
Qed.

(** An edge whose source is not the id of a node *)
Definition dangling_source (nodes : list node) (edges : list edge) : Prop :=
  ∃ e, e ∈ edges ∧ esource e ∉ map id nodes.

Lemma dangling_source_dec (nodes : list node) (edges : list edge) :
  dangling_source nodes edges ∨ ∀ e, e ∈ edges → esource e ∈ map id nodes.
Proof.
  destruct (decide (Forall (fun e => esource e ∈ map id nodes) edges)) as [H|H].
  - right. by apply Forall_forall.
  - left. apply not_Forall_Exists, Exists_exists in H as (e & He & Hs); [|apply _].
    by exists e.
Qed.

Lemma dangling_source_no_adjacency (nodes : list node) (edges : list edge) :
  dangling_source nodes edges →
  build_adjacency (map id nodes) (map to_arc edges) = None.
Proof.
  intros (e & He & Hs).
  destruct (build_adjacency _ _) as [adj|] eqn:E; [|done].
  exfalso. apply Hs.
  apply (build_adjacency_sources _ _ _ E (to_arc e)).
  apply list_elem_of_In, in_map, list_elem_of_In. done.
Qed.

Lemma repositioned_ids (l l' : list node) :
  Forall2 repositioned l l' → map id l' = map id l.
Proof.
  induction 1 as [|n n' l l' [p ->] _ IH]; [done|]. cbn [map]. by rewrite IH.
Qed.

Lemma hierarchicalLayout_throws (nodes : list node) (edges : list edge) (sp : spacing) :
  nodes = [] ∨ dangling_source nodes edges →
  hierarchicalLayout nodes edges sp = Thrown.
Proof.
  intros [->|Hd].
  - unfold hierarchicalLayout. cbn [map].
    destruct (build_adjacency [] (map to_arc edges)) as [adj|] eqn:E; [|done].
    assert (edges = []) as ->; [|done].
    destruct edges as [|e edges]; [done|]. exfalso.
    pose proof (build_adjacency_sources _ _ _ E (to_arc e)) as H.
    apply elem_of_nil in H; [done|]. cbn. left.
  - unfold hierarchicalLayout. by rewrite dangling_source_no_adjacency.
Qed.

Lemma hierarchicalLayout_returns_ids (nodes : list node) (edges : list edge)
    (sp : spacing) :
  ¬ (nodes = [] ∨ dangling_source nodes edges) →
  ∃ out, hierarchicalLayout nodes edges sp = Returned out ∧ map id out = map id nodes.
Proof.
  intros Hn. destruct (dangling_source_dec nodes edges) as [Hd|Hs]; [tauto|].
  destruct (hierarchicalLayout_returns nodes edges sp) as [out Hout];
    [intros ->; apply Hn; by left|done|].
  exists out. split; [done|].
  by apply hierarchicalLayout_frame, repositioned_ids in Hout.
Qed.

Lemma radialLayout_throws (nodes : list node) (edges : list edge)
    (centerNodeId : option string) (sp : spacing) :
  dangling_source nodes edges → radialLayout nodes edges centerNodeId sp = Thrown.
Proof.
  intros Hd. unfold radialLayout, radial_levels.
  rewrite dangling_source_no_adjacency by done.
  by destruct (radial_center nodes edges centerNodeId).
Qed.

Lemma radialLayout_returns_ids (nodes : list node) (edges : list edge)
    (centerNodeId : option string) (sp : spacing) :
  ¬ dangling_source nodes edges →
  ∃ out, radialLayout nodes edges centerNodeId sp = Returned out
         ∧ map id out = map id nodes.
Proof.
  intros Hn. destruct (dangling_source_dec nodes edges) as [Hd|Hs]; [tauto|].
  destruct (radialLayout_returns nodes edges centerNodeId sp) as [out Hout]; [done|].
  exists out. split; [done|].
  by apply radialLayout_frame, repositioned_ids in Hout.
Qed.

(** X16: hierarchicalLayout throws exactly when there is no node or some
    edge starts at an id that is not a node; otherwise it returns, with one
    node per input node in the same order.  It never fails to terminate. *)
Theorem hierarchicalLayout_throws_iff (nodes : list node) (edges : list edge)
    (sp : spacing) :
  (hierarchicalLayout nodes edges sp = Thrown
   ↔ nodes = [] ∨ dangling_source nodes edges)
  ∧ (hierarchicalLayout nodes edges sp ≠ Thrown →
     ∃ out, hierarchicalLayout nodes edges sp = Returned out
            ∧ map id out = map id nodes).
Proof.
  split; [split; [|apply hierarchicalLayout_throws]|].
  - intros Ht. destruct (decide (nodes = [])) as [|Hne]; [by left|].
    destruct (dangling_source_dec nodes edges) as [Hd|Hs]; [by right|].
    destruct (hierarchicalLayout_returns_ids nodes edges sp) as (out & Hout & _);
      [|congruence].
    intros [?|(e & He & Hbad)]; [done|]. by apply Hbad, Hs.
  - intros Hn. apply hierarchicalLayout_returns_ids. intros H.
    by apply Hn, hierarchicalLayout_throws.
Qed.

(** X17: radialLayout throws exactly when some edge starts at an id that
    is not a node; otherwise it returns, with one node per input node in
    the same order, also for an empty node list. *)
Theorem radialLayout_throws_iff (nodes : list node) (edges : list edge)
    (centerNodeId : option string) (sp : spacing) :
  (radialLayout nodes edges centerNodeId sp = Thrown ↔ dangling_source nodes edges)
  ∧ (radialLayout nodes edges centerNodeId sp ≠ Thrown →
     ∃ out, radialLayout nodes edges centerNodeId sp = Returned out
            ∧ map id out = map id nodes).
Proof.
  split; [split; [|apply radialLayout_throws]|].
  - intros Ht. destruct (dangling_source_dec nodes edges) as [Hd|Hs]; [done|].
    destruct (radialLayout_returns_ids nodes edges centerNodeId sp) as (out & Hout & _);
      [|congruence].
    intros (e & He & Hbad). by apply Hbad, Hs.
  - intros Hn. apply radialLayout_returns_ids. intros H.
    by apply Hn, radialLayout_throws.
Qed.

(** *** applyLayout *)

Lemma existsb_eqb_elem (k : string) (names : list string) :
  existsb (String.eqb k) names = true ↔ k ∈ names.
Proof.
  rewrite existsb_exists. split.
  - intros (x & Hx & ->%String.eqb_eq). by apply list_elem_of_In.
  - intros Hk. exists k. split; [by apply list_elem_of_In|apply String.eqb_refl].
Qed.

(** X18: applyLayout throws only through the hierarchical strategy
    (names hierarchical and dot: no node, or an edge from an unknown id)
    and the radial strategy (names radial and twopi: an edge from an
    unknown id); under every other name, and in every other case, it
    returns a layout. *)
Theorem applyLayout_throws_iff (rnd : nat → R) (layoutName : option string)
    (nodes : list node) (edges : list edge) (sp : spacing) :
  let layout := layout_key layoutName in
  (applyLayout rnd layoutName nodes edges sp = Thrown
   ↔ (layout ∈ ["hierarchical"; "dot"]%string
      ∧ (nodes = [] ∨ dangling_source nodes edges))
     ∨ (layout ∈ ["radial"; "twopi"]%string ∧ dangling_source nodes edges))
  ∧ (applyLayout rnd layoutName nodes edges sp ≠ Thrown →
     ∃ out, applyLayout rnd layoutName nodes edges sp = Returned out).
Proof.
  intros layout. unfold applyLayout. fold layout. clearbody layout.
  destruct (existsb (String.eqb layout) ["hierarchical"; "dot"]%string) eqn:Eh.
  { apply existsb_eqb_elem in Eh. split.
    - split.
      + intros Ht. left. split; [done|].
        destruct (decide (nodes = [])) as [|Hne]; [by left|].
        destruct (dangling_source_dec nodes edges) as [Hd|Hs]; [by right|].
        destruct (hierarchicalLayout_returns_ids nodes edges sp) as (out & Hout & _);
          [|congruence].
        intros [?|(e & He & Hbad)]; [done|]. by apply Hbad, Hs.
      + intros [[_ H]|[Hr Hd]]; apply hierarchicalLayout_throws; [done|by right].
    - intros Hn.
      destruct (hierarchicalLayout_returns_ids nodes edges sp) as (out & Hout & _);
        [|by exists out].
      intros H. by apply Hn, hierarchicalLayout_throws. }
  assert (layout ∉ ["hierarchical"; "dot"]%string) as Hnh.
  { intros H%existsb_eqb_elem. congruence. }
  destruct (existsb (String.eqb layout) ["force"; "fdp"; "neato"]%string) eqn:Ef.
  { split.
    - split; [done|]. intros [[H _]|[H _]]; [done|]. exfalso.
      repeat (apply elem_of_cons in H as [H|H]; [rewrite H in Ef; by vm_compute in Ef|]).
      by apply elem_of_nil in H.
    - intros _. by eexists. }
  destruct (existsb (String.eqb layout) ["radial"; "twopi"]%string) eqn:Er.
  { apply existsb_eqb_elem in Er. split.
    - split.
      + intros Ht. right. split; [done|].
        destruct (dangling_source_dec nodes edges) as [Hd|Hs]; [done|].
        destruct (radialLayout_returns_ids nodes edges None sp) as (out & Hout & _);
          [|congruence].
        intros (e & He & Hbad). by apply Hbad, Hs.
      + intros [[H _]|[_ Hd]]; [done|]. by apply radialLayout_throws.
    - intros Hn.
      destruct (radialLayout_returns_ids nodes edges None sp) as (out & Hout & _);
        [|by exists out].
      intros H. by apply Hn, radialLayout_throws. }
  assert (layout ∉ ["radial"; "twopi"]%string) as Hnr.
  { intros H%existsb_eqb_elem. congruence. }
  destruct (String.eqb layout "grid"); (split; [|intros _; by eexists]);
    (split; [done|]); intros [[H _]|[H _]]; done.
Qed.

End ThrowFacts.

Module RowFacts.
Import Leveling Layout LevelingFacts LayoutFacts.
Local Open Scope R_scope.

(** *** hierarchicalLayout places nodes on rows *)

Lemma pos_get_set_eq (k : string) (p : point) (m : pos_map) :
  pos_get k (pos_set k p m) = Some p.
Proof.
  induction m as [|[k' p'] m IH]; cbn.
  - by rewrite String.eqb_refl.
  - destruct (String.eqb k' k) eqn:E; cbn; by rewrite E.
Qed.

Lemma pos_get_set_ne (k k' : string) (p : point) (m : pos_map) :
  k' ≠ k → pos_get k (pos_set k' p m) = pos_get k m.
Proof.
  intros Hne. induction m as [|[k0 p0] m IH]; cbn.
  - by apply String.eqb_neq in Hne as ->.
  - destruct (String.eqb k0 k') eqn:E; cbn.
    + apply String.eqb_eq in E as ->. by apply String.eqb_neq in Hne as ->.
    + by rewrite IH.
Qed.

Section Rows.
Variable nodes : list node.
Variable children : gmap string (list string).
Variable levels : gmap string Z.
Variable nodeSpacing levelSpacing : R.

(** One placement made by positionChildren: a child without a position
    is put on the row below its parent's level. *)
Definition places_child (m m' : pos_map) : Prop :=
  ∃ childId parentId x,
    pos_get childId m = None
    ∧ m' = pos_set childId
             (Point x (startY + IZR (level_or0 levels parentId + 1) * levelSpacing)) m.

Lemma positionChildren_places (fuel : nat) :
  ∀ parentId positions positions',
    positionChildren nodes children levels nodeSpacing levelSpacing
                     fuel parentId positions = Some positions' →
    rtc places_child positions positions'.
Proof.
  induction fuel as [|fuel IH]; intros parentId positions positions'; [done|].
  cbn [positionChildren].
  destruct (default [] (children !! parentId)) as [|c0 l0]; [by intros [= <-]|].
  set (l := c0 :: l0).
  destruct (pos_get parentId positions) as [parentPos|]; [|by intros [= <-]].
  set (F := fun acc ic => _).
  assert (∀ (ics : list (nat * string)) positions0 positions1,
            foldl F (Some positions0) ics = Some positions1 →
            rtc places_child positions0 positions1) as Hfold.
  { induction ics as [|ic ics IHics]; intros positions0 positions1.
    - by intros [= <-].
    - cbn [foldl]. unfold F at 2.
      destruct (pos_get (snd ic) positions0) as [p|] eqn:Hget; [apply IHics|].
      match goal with |- context [positionChildren _ _ _ _ _ fuel (snd ic) ?ps] =>
        destruct (positionChildren nodes children levels nodeSpacing levelSpacing
                    fuel (snd ic) ps) as [positions2|] eqn:E
      end.
      + intros Hrest. eapply rtc_l; cycle 1.
        * etransitivity; [eapply IH; exact E|by apply IHics].
        * exists (snd ic), parentId. eexists. by split.
      + intros Hrest. exfalso. clear -Hrest.
        induction ics as [|ic' ics IHf]; [done|]. by apply IHf. }
  apply Hfold.
Qed.

Lemma position_all_places (fuel : nat) (roots : list string) (positions : pos_map) :
  position_all nodes children levels nodeSpacing levelSpacing fuel roots
  = Some positions →
  rtc places_child (position_roots nodeSpacing roots) positions.
Proof.
  unfold position_all. generalize (position_roots nodeSpacing roots).
  induction roots as [|r rs IH]; intros positions0; [by intros [= <-]|].
  cbn [foldl].
  destruct (positionChildren nodes children levels nodeSpacing levelSpacing
              fuel r positions0) as [positions1|] eqn:E.
  - intros H. etransitivity; [by eapply positionChildren_places|by apply IH].
  - intros H. exfalso. clear -H. induction rs as [|r' rs IHf]; [done|]. by apply IHf.
Qed.

(** The height of row [j] *)
Definition row (j : Z) : R := startY + IZR j * levelSpacing.

Definition on_row (p : point) : Prop := ∃ j, (0 ≤ j)%Z ∧ py p = row j.

Hypothesis levels_nonneg : ∀ k, (0 ≤ level_or0 levels k)%Z.

Lemma places_child_rows (m m' : pos_map) :
  rtc places_child m m' →
  (∀ k p, pos_get k m = Some p → on_row p) →
  (∀ k p, pos_get k m' = Some p → on_row p)
  ∧ (∀ k p, pos_get k m = Some p → pos_get k m' = Some p).
Proof.
  induction 1 as [m|m m1 m' (c & parent & x & Hfresh & ->) _ IH]; intros Hm; [done|].
  destruct IH as [H1 H2].
  - intros k p. destruct (decide (c = k)) as [->|Hne].
    + rewrite pos_get_set_eq. intros [= <-].
      exists (level_or0 levels parent + 1)%Z. split; [|done].
      pose proof (levels_nonneg parent). lia.
    + rewrite pos_get_set_ne by done. apply Hm.
  - split; [done|]. intros k p Hk. apply H2.
    rewrite pos_get_set_ne; [done|]. intros ->. congruence.
Qed.

Lemma position_roots_rows (roots : list string) :
  (∀ k p, pos_get k (position_roots nodeSpacing roots) = Some p → py p = row 0)
  ∧ (∀ k, k ∈ roots → is_Some (pos_get k (position_roots nodeSpacing roots))).
Proof.
  assert (∀ (f : nat → R) (ics : list (nat * string)) (m : pos_map),
            (∀ k p, pos_get k m = Some p → py p = row 0) →
            let m' := foldl (fun positions ir =>
                               pos_set (snd ir) (Point (f (fst ir)) startY) positions)
                            m ics in
            (∀ k p, pos_get k m' = Some p → py p = row 0)
            ∧ (∀ k, (is_Some (pos_get k m) ∨ k ∈ map snd ics) → is_Some (pos_get k m')))
    as Hfold.
  { intros f ics. induction ics as [|ic ics IH]; intros m Hm; cbn [foldl map].
    - split; [done|]. intros k [H|H]; [done|by apply elem_of_nil in H].
    - destruct (IH (pos_set (snd ic) (Point (f (fst ic)) startY) m)) as [H1 H2].
      + intros k p. destruct (decide (snd ic = k)) as [->|Hne].
        * rewrite pos_get_set_eq. intros [= <-]. unfold row. cbn. lra.
        * rewrite pos_get_set_ne by done. apply Hm.
      + split; [done|]. intros k Hk. apply H2.
        destruct (decide (snd ic = k)) as [->|Hne].
        * left. rewrite pos_get_set_eq. by eexists.
        * rewrite pos_get_set_ne by done.
          destruct Hk as [Hk|Hk]; [by left|]. right.
          apply elem_of_cons in Hk as [Hk|Hk]; [congruence|done]. }
  assert (∀ rs : list string, map snd (imap pair rs) = rs) as Hsnd.
  { intros rs. change (map snd (imap pair rs)) with (snd <$> imap pair rs).
    apply list_eq. intros i. rewrite list_lookup_fmap, list_lookup_imap.
    by destruct (rs !! i). }
  unfold position_roots.
  destruct roots as [|r [|r' rs]].
  - cbn. split; [done|]. intros k H. by apply elem_of_nil in H.
  - cbn [pos_set]. split.
    + intros k p. cbn. destruct (String.eqb r k); [|done]. intros [= <-].
      unfold row. cbn. lra.
    + intros k ->%list_elem_of_singleton. cbn. rewrite String.eqb_refl. by eexists.
  - set (roots := r :: r' :: rs).
    match goal with |- context [foldl ?F [] (imap pair roots)] =>
      destruct (Hfold (fun i => centerX - (INR (length roots) - 1) * nodeSpacing / 2
                                + INR i * nodeSpacing)
                      (imap pair roots) []) as [H1 H2]
    end; [done|].
    split; [exact H1|]. intros k Hk. apply H2. right. by rewrite Hsnd.
Qed.

End Rows.

Lemma inDegree_untargeted (ids : list string) (arcs : list arc) (k : string) :
  (∀ a, a ∈ arcs → target a ≠ k) → level_or0 (build_inDegree ids arcs) k = 0%Z.
Proof.
  intros Hk. unfold build_inDegree.
  assert (∀ m : gmap string Z, level_or0 m k = 0%Z →
            level_or0 (foldl (fun m k' => <[k' := 0%Z]> m) m ids) k = 0%Z) as H0.
  { induction ids as [|x ids IH]; intros m Hm; [done|]. cbn [foldl]. apply IH.
    rewrite level_or0_insert. by destruct (decide (x = k)). }
  specialize (H0 ∅ eq_refl). revert H0.
  generalize (foldl (fun m k' => <[k' := 0%Z]> m) (∅ : gmap string Z) ids).
  induction arcs as [|a arcs IH]; intros m Hm; [done|]. cbn [foldl]. apply IH.
  - intros a' Ha'. apply Hk. by right.
  - rewrite level_or0_insert. destruct (decide (target a = k)) as [E|_]; [|done].
    exfalso. by apply (Hk a); [left|].
Qed.

Lemma untargeted_is_root (ids : list string) (arcs : list arc) (k : string) :
  k ∈ ids → (∀ a, a ∈ arcs → target a ≠ k) →
  k ∈ omap (fun r => r) (find_roots ids arcs).
Proof.
  intros Hin Hk. unfold find_roots.
  assert (k ∈ filter (fun k => level_or0 (build_inDegree ids arcs) k = 0%Z) ids) as Hf.
  { apply list_elem_of_filter. split; [by apply inDegree_untargeted|done]. }
  destruct (filter _ ids) as [|r rs] eqn:E; [by apply elem_of_nil in Hf|].
  apply list_elem_of_omap. exists (Some k). split; [|done].
  by apply list_elem_of_fmap_2.
Qed.

(** What lies behind a returned layout. *)
Lemma hierarchicalLayout_run (nodes : list node) (edges : list edge) (sp : spacing)
    (out : list node) :
  hierarchicalLayout nodes edges sp = Returned out →
  let roots := omap (fun r => r) (find_roots (map id nodes) (map to_arc edges)) in
  let nodeSpacing := calculateMinSpacing nodes (nodeSpacing sp) in
  ∃ levels positions,
    (∀ k, (0 ≤ level_or0 levels k)%Z)
    ∧ rtc (places_child levels (levelSpacing sp))
          (position_roots nodeSpacing roots) positions
    ∧ out = map (place levels (levelSpacing sp) positions) nodes.
Proof.
  intros Hout roots s. unfold hierarchicalLayout in Hout.
  destruct (build_adjacency _ _) as [children|] eqn:Hb; [|done].
  destruct (hierarchical_levels _ _ _) as [levels| |] eqn:Hl; [|done..].
  cbn [obind] in Hout.
  destruct (position_all _ _ _ _ _ _ _) as [positions|] eqn:Hp; [|done].
  injection Hout as <-. exists levels, positions. split; [|split; [|done]].
  - destruct (hierarchical_levels_returns (map id nodes) (map to_arc edges)
                (leveling_fuel (map id nodes) (map to_arc edges)))
      as (lv & Hlv & Hpos); [done| |by eapply ThrowFacts.build_adjacency_sources|].
    + intros Hnil. rewrite Hnil in Hl. unfold hierarchical_levels in Hl.
      rewrite find_roots_empty in Hl. by destruct (build_adjacency [] _).
    + rewrite Hl in Hlv. by injection Hlv as ->.
  - by eapply position_all_places.
Qed.

(** X19: hierarchicalLayout puts every node on a row: its [y] is
    [100 + j * levelSpacing] for an integer [j >= 0]; a node that no edge
    points to is on the top row, [y = 100]. *)
Theorem hierarchicalLayout_rows (nodes : list node) (edges : list edge) (sp : spacing)
    (out : list node) :
  hierarchicalLayout nodes edges sp = Returned out →
  Forall2 (fun n n' =>
             ∃ p (j : Z), position n' = Some p ∧ (0 ≤ j)%Z
                          ∧ py p = 100 + IZR j * levelSpacing sp
                          ∧ ((∀ e, e ∈ edges → etarget e ≠ id n) → py p = 100))
          nodes out.
Proof.
  intros (levels & positions & Hnonneg & Hp & ->)%hierarchicalLayout_run.
  destruct (position_roots_rows (calculateMinSpacing nodes (nodeSpacing sp))
              (levelSpacing sp)
              (omap (fun r => r) (find_roots (map id nodes) (map to_arc edges))))
    as [Htop Hroots].
  destruct (places_child_rows levels (levelSpacing sp) Hnonneg _ _ Hp) as [Hrows Hkeep].
  { intros k p Hk. exists 0%Z. split; [done|]. by eapply Htop. }
  assert (∀ n, n ∈ nodes → (∀ e, e ∈ edges → etarget e ≠ id n) →
            ∃ p0, pos_get (id n) positions = Some p0 ∧ py p0 = 100) as Hroot.
  { intros n Hn Hun. destruct (Hroots (id n)) as [p0 Hp0].
    { apply untargeted_is_root.
      - apply list_elem_of_In, in_map, list_elem_of_In. done.
      - intros a Ha. apply list_elem_of_In, in_map_iff in Ha as (e & <- & He).
        apply Hun. by apply list_elem_of_In. }
    exists p0. split; [by apply Hkeep|].
    rewrite (Htop _ _ Hp0). unfold row, startY. lra. }
  apply Forall2_fmap_r, Forall_Forall2_diag, Forall_forall. intros n Hn.
  unfold compose, place. destruct (pos_get (id n) positions) as [p|] eqn:Hget.
  - destruct (Hrows _ _ Hget) as (j & Hj & Hy).
    exists p, j. split; [done|]. split; [done|]. split; [exact Hy|].
    intros Hun. destruct (Hroot n Hn Hun) as (p0 & Hp0 & Hy0). congruence.
  - eexists _, (level_or0 levels (id n)). split; [done|]. split; [done|].
    split; [done|]. intros Hun. destruct (Hroot n Hn Hun) as (p0 & Hp0 & _).
    congruence.
Qed.

Lemma hierarchicalLayout_rows_AB :
  ∃ out,
    hierarchicalLayout [node_A; node_B] [edge_AB] DEFAULT_SPACING = Returned out
    ∧ Forall2 (fun n n' =>
                 ∃ p (j : Z), position n' = Some p ∧ (0 ≤ j)%Z
                              ∧ py p = 100 + IZR j * levelSpacing DEFAULT_SPACING
                              ∧ ((∀ e, e ∈ [edge_AB] → etarget e ≠ id n) → py p = 100))
              [node_A; node_B] out.
Proof.
  eexists. split; [vm_compute; reflexivity|].
  apply (hierarchicalLayout_rows [node_A; node_B] [edge_AB] DEFAULT_SPACING).
  vm_compute. reflexivity.
Defined.

End RowFacts.

Module RootFacts.
Import Leveling Layout LevelingFacts LayoutFacts.

(** *** The level of a node without incoming edges *)

Section RootLevel.
Variable adj : gmap string (list string).
Variable k : string.
Hypothesis not_targeted : ∀ u l x, adj !! u = Some l → x ∈ l → x ≠ k.

Lemma visit_neighbor_other (c : Z) (s : bfs_state) (nb : string) :
  nb ≠ k → levels (visit_neighbor c s nb) !! k = levels s !! k.
Proof.
  intros Hne. unfold visit_neighbor.
  destruct (decide (nb ∈ visited s)); [destruct (Z.ltb _ _)|]; cbn [levels];
    by rewrite ?lookup_insert_ne.
Qed.

Lemma hier_step_other (s s' : bfs_state) :
  hier_step adj s = Some s' → levels s' !! k = levels s !! k.
Proof.
  unfold hier_step. destruct (queue s) as [|u rest]; [done|]. intros [= <-].
  assert (∀ x, x ∈ default [] (adj !! u) → x ≠ k) as Hn.
  { intros x Hx. destruct (adj !! u) as [l|] eqn:E; [by eapply not_targeted|].
    by apply elem_of_nil in Hx. }
  assert (∀ c l s0, (∀ x, x ∈ l → x ≠ k) →
            levels (foldl (visit_neighbor c) s0 l) !! k = levels s0 !! k) as H.
  { intros c. induction l as [|x l IH]; intros s0 Hl; [done|]. cbn [foldl].
    rewrite IH by (intros; apply Hl; by right).
    apply visit_neighbor_other, Hl. by left. }
  by rewrite H.
Qed.

Lemma hier_loop_other (fuel : nat) (s fin : bfs_state) :
  hier_loop fuel adj s = Some fin → levels fin !! k = levels s !! k.
Proof.
  revert s. induction fuel as [|fuel IH]; intros s; [done|]. cbn [hier_loop].
  destruct (hier_step adj s) as [s'|] eqn:E; [|by intros [= <-]].
  intros H. rewrite (IH _ H). by apply hier_step_other.
Qed.
End RootLevel.

Lemma seed_roots_level (k : string) (rs : list (option string)) (s : bfs_state) :
  seed_roots rs = Some s → Some k ∈ rs → levels s !! k = Some 0%Z.
Proof.
  unfold seed_roots.
  assert (∀ s0 s, foldl seed_root (Some s0) rs = Some s →
            (Some k ∈ rs ∨ levels s0 !! k = Some 0%Z) → levels s !! k = Some 0%Z) as H.
  { induction rs as [|r rs IH]; intros s0 s1; cbn [foldl].
    - intros [= <-] [Hin|H0]; [by apply elem_of_nil in Hin|done].
    - destruct r as [r|]; cbn [seed_root].
      + intros Hf Hk. eapply IH; [exact Hf|]. cbn [levels].
        destruct (decide (r = k)) as [->|Hne].
        * right. apply lookup_insert_eq.
        * rewrite lookup_insert_ne by done.
          destruct Hk as [Hin|H0]; [|by right]. left.
          apply elem_of_cons in Hin as [[= ->]|Hin]; done.
      + intros Hf. exfalso. clear -Hf. induction rs as [|r rs IHf]; [done|].
        by apply IHf. }
  intros Hs Hk. eapply H; [exact Hs|by left].
Qed.

(** X20: in the leveling of hierarchicalLayout a node that no edge
    points to is a root and keeps level 0 to the end. *)
Theorem hierarchical_levels_root (fuel : nat) (ids : list string) (arcs : list arc)
    (lv : gmap string Z) (k : string) :
  hierarchical_levels fuel ids arcs = Returned lv →
  k ∈ ids → (∀ a, a ∈ arcs → target a ≠ k) →
  lv !! k = Some 0%Z.
Proof.
  unfold hierarchical_levels.
  destruct (build_adjacency ids arcs) as [adj|] eqn:Hb; [|done].
  destruct (seed_roots (find_roots ids arcs)) as [s0|] eqn:Hs; [|done].
  destruct (hier_loop fuel adj s0) as [fin|] eqn:Hl; [|done].
  intros [= <-] Hin Hk.
  assert (∀ u l x, adj !! u = Some l → x ∈ l → x ≠ k) as Hnt.
  { intros u l x Hu Hx ->.
    pose proof (adjacency_targets _ _ _ Hb u l k Hu Hx) as Ht.
    unfold all_targets in Ht. apply elem_of_list_to_set in Ht.
    apply list_elem_of_fmap in Ht as (a & Ha & Hina). by apply (Hk a). }
  rewrite (hier_loop_other adj k Hnt _ _ _ Hl).
  apply (seed_roots_level k _ _ Hs).
  pose proof (RowFacts.untargeted_is_root ids arcs k Hin Hk) as Hr.
  apply list_elem_of_omap in Hr as (r & Hr & Hrk). by destruct r as [r|]; simplify_eq.
Qed.

Lemma hierarchical_levels_root_diamond :
  ∃ lv, hierarchical_levels 10 diamond_ids diamond_edges = Returned lv
        ∧ lv !! "A"%string = Some 0%Z.
Proof.
  eexists. split; [vm_compute; reflexivity|].
  apply (hierarchical_levels_root 10 diamond_ids diamond_edges).
  - vm_compute. reflexivity.
  - set_solver.
  - intros a Ha. unfold diamond_edges in Ha.
    repeat (apply elem_of_cons in Ha as [->|Ha]; [done|]). by apply elem_of_nil in Ha.
Defined.

End RootFacts.

Module RadialMore.
Import Leveling Layout LevelingFacts LayoutFacts.
Local Open Scope R_scope.

(** *** The centre of radialLayout *)

Section CenterLevel.
Variable adj : gmap string (list string).
Variable center : string.
Hypothesis not_targeted : ∀ k l x, adj !! k = Some l → x ∈ l → x ≠ center.

Lemma rvisit_neighbor_center (level : Z) (s : rbfs_state) (nb : string) :
  nb ≠ center → rlevels (rvisit_neighbor level s nb) !! center = rlevels s !! center.
Proof.
  intros Hne. unfold rvisit_neighbor.
  destruct (decide (nb ∈ rvisited s)); [destruct (Z.ltb _ _)|]; cbn [rlevels];
    by rewrite ?lookup_insert_ne.
Qed.

Lemma radial_step_center (s s' : rbfs_state) :
  radial_step adj s = Some s' → rlevels s' !! center = rlevels s !! center.
Proof.
  unfold radial_step. destruct (rqueue s) as [|[k level] rest]; [done|].
  intros [= <-].
  assert (∀ x, x ∈ default [] (adj !! k) → x ≠ center) as Hn.
  { intros x Hx. destruct (adj !! k) as [l|] eqn:E; [by eapply not_targeted|].
    by apply elem_of_nil in Hx. }
  assert (∀ l s0, (∀ x, x ∈ l → x ≠ center) →
            rlevels (foldl (rvisit_neighbor level) s0 l) !! center = rlevels s0 !! center)
    as H.
  { induction l as [|x l IH]; intros s0 Hl; [done|]. cbn [foldl].
    rewrite IH by (intros; apply Hl; by right).
    apply rvisit_neighbor_center, Hl. by left. }
  by rewrite H.
Qed.

Lemma radial_loop_center (fuel : nat) (s fin : rbfs_state) :
  radial_loop fuel adj s = Some fin → rlevels fin !! center = rlevels s !! center.
Proof.
  revert s. induction fuel as [|fuel IH]; intros s; [done|]. cbn [radial_loop].
  destruct (radial_step adj s) as [s'|] eqn:E; [|by intros [= <-]].
  intros H. rewrite (IH _ H). by apply radial_step_center.
Qed.
End CenterLevel.

(** X21: when no edge points to the centre chosen by radialLayout, every
    node with the centre's id is returned at (400, 400). *)
Theorem radialLayout_center_fixed (nodes : list node) (edges : list edge)
    (centerNodeId : option string) (sp : spacing) (center : string)
    (out : list node) :
  radial_center nodes edges centerNodeId = Some center →
  (∀ e, e ∈ edges → etarget e ≠ center) →
  radialLayout nodes edges centerNodeId sp = Returned out →
  Forall (fun n' => id n' = center → position n' = Some (Point 400 400)) out.
Proof.
  intros Hc Hroot. unfold radialLayout. rewrite Hc. unfold radial_levels.
  destruct (build_adjacency _ _) as [adj|] eqn:Hb; [|done].
  destruct (radial_loop _ _ _) as [fin|] eqn:Hloop; [|done]. cbn [obind].
  intros [= <-].
  assert (rlevels fin !! center = Some 0%Z) as Hlevel.
  { assert (∀ k l x, adj !! k = Some l → x ∈ l → x ≠ center) as Hnt.
    { intros k l x Hk Hx ->.
      pose proof (adjacency_targets _ _ _ Hb k l center Hk Hx) as Ht.
      unfold all_targets in Ht. apply elem_of_list_to_set in Ht.
      apply list_elem_of_fmap in Ht as (a & Ha & Hin).
      apply list_elem_of_In, in_map_iff in Hin as (e & <- & He).
      apply (Hroot e); [by apply list_elem_of_In|done]. }
    rewrite (radial_loop_center adj center Hnt _ _ fin Hloop).
    cbn [rlevels]. apply lookup_singleton_eq. }
  apply Forall_forall. intros n' Hn' Hid.
  apply list_elem_of_In, in_map_iff in Hn' as (n & <- & _).
  cbn [id with_position radial_place] in Hid. unfold radial_place.
  cbn [position with_position]. rewrite Hid.
  assert (level_or0 (rlevels fin) center = 0%Z) as -> by (unfold level_or0; by rewrite Hlevel).
  change (Z.eqb 0 0) with true. cbv iota. by rewrite !Rplus_0_r.
Qed.

Lemma radialLayout_center_fixed_AB :
  ∃ out,
    radialLayout [node_A; node_B] [edge_AB] None DEFAULT_SPACING = Returned out
    ∧ Forall (fun n' => id n' = "A"%string → position n' = Some (Point 400 400)) out.
Proof.
  eexists. split; [vm_compute; reflexivity|].
  apply (radialLayout_center_fixed [node_A; node_B] [edge_AB] None DEFAULT_SPACING "A").
  - vm_compute. reflexivity.
  - intros e ->%list_elem_of_singleton. done.
  - vm_compute. reflexivity.
Defined.

(** *** The fallback centre: the most connected node *)

Definition by_count (a b : string * Z) : comparison := Z.compare (snd b) (snd a).

Lemma js_sort_head_max (l : list (string * Z)) (x : string * Z) :
  head (js_sort by_count l) = Some x →
  ∀ y, y ∈ l → (snd y ≤ snd x)%Z.
Proof.
  revert x. induction l as [|a l IH]; intros x; [done|].
  cbn [js_sort foldr]. fold (js_sort by_count l).
  destruct (js_sort by_count l) as [|b l'] eqn:E.
  - cbn. intros [= <-] y Hy. apply elem_of_cons in Hy as [->|Hy]; [done|].
    assert (l = []) as ->; [|by apply elem_of_nil in Hy].
    apply Permutation_nil_r. rewrite <- E. symmetry. apply js_sort_perm.
  - cbn [sort_insert]. unfold by_count at 1.
    destruct (Z.compare_spec (snd b) (snd a)) as [Heq|Hlt|Hgt]; cbn [head];
      intros [= <-] y Hy; apply elem_of_cons in Hy as [->|Hy]; try lia;
      specialize (IH b eq_refl y Hy); lia.
Qed.

Lemma count_set_nonempty (k : string) (z : Z) (m : count_map) : count_set k z m ≠ [].
Proof. destruct m as [|[k' z'] m]; cbn; [done|]. by destruct (String.eqb k' k). Qed.

Lemma connections_nonempty (n : node) (nodes : list node) (edges : list edge) :
  connections (n :: nodes) edges ≠ [].
Proof.
  unfold connections. cbn [foldl].
  assert (∀ (l : list node) (m : count_map), m ≠ [] →
            foldl (fun m n => count_set (id n) 0%Z m) m l ≠ []) as H1.
  { induction l as [|x l IH]; intros m Hm; [done|]. cbn [foldl].
    apply IH, count_set_nonempty. }
  assert (∀ (l : list edge) (m : count_map), m ≠ [] →
            foldl (fun m e => count_incr (count_incr m (esource e)) (etarget e)) m l ≠ [])
    as H2.
  { induction l as [|x l IH]; intros m Hm; [done|]. cbn [foldl].
    apply IH. unfold count_incr. apply count_set_nonempty. }
  apply H2, H1, count_set_nonempty.
Qed.

(** X22: without a given centre and without a blue node, radialLayout
    takes as centre a node or edge endpoint with the largest number of
    edge ends (as long as that id is not the empty string). *)
Theorem radial_center_most_connected (nodes : list node) (edges : list edge)
    (center : string) :
  find_blue nodes = None →
  (∀ kv, kv ∈ connections nodes edges → fst kv ≠ ""%string) →
  radial_center nodes edges None = Some center →
  ∃ count, (center, count) ∈ connections nodes edges
           ∧ ∀ kv, kv ∈ connections nodes edges → (snd kv ≤ count)%Z.
Proof.
  intros Hblue Hnames. unfold radial_center. cbn [truthy_id]. rewrite Hblue.
  fold by_count.
  destruct (js_sort by_count (connections nodes edges)) as [|[k v] rest] eqn:E.
  - cbn [head fmap option_fmap option_map truthy_id].
    assert (connections nodes edges = []) as Hnil.
    { apply Permutation_nil_r. rewrite <- E. symmetry. apply js_sort_perm. }
    destruct nodes as [|n nodes']; [done|]. exfalso.
    by apply (connections_nonempty n nodes' edges).
  - cbn [head fmap option_fmap option_map fst].
    assert ((k, v) ∈ connections nodes edges) as Hin.
    { rewrite <- (js_sort_perm by_count). rewrite E. left. }
    pose proof (Hnames _ Hin) as Hk. cbn [fst] in Hk.
    destruct k as [|a k]; [done|]. cbn [truthy_id]. intros [= <-].
    exists v. split; [done|]. intros kv Hkv.
    apply (js_sort_head_max (connections nodes edges) (String a k, v)); [|done].
    by rewrite E.
Qed.


Definition edge_BA : edge := Edge "eB-A-1" "B" "A" None None (Some "floating"%string) [].
Definition node_C : node := Parser.new_node "C" "C" None.

Lemma radial_center_most_connected_ABC :
  ∃ count, ("B"%string, count) ∈ connections [node_A; node_B; node_C] [edge_AB; edge_BA;
                                    Edge "eB-C-2" "B" "C" None None None []]
           ∧ ∀ kv, kv ∈ connections [node_A; node_B; node_C]
                          [edge_AB; edge_BA; Edge "eB-C-2" "B" "C" None None None []] →
                   (snd kv ≤ count)%Z.
Proof.
  apply (radial_center_most_connected [node_A; node_B; node_C]
           [edge_AB; edge_BA; Edge "eB-C-2" "B" "C" None None None []] "B").
  - vm_compute. reflexivity.
  - assert (connections [node_A; node_B; node_C]
              [edge_AB; edge_BA; Edge "eB-C-2" "B" "C" None None None []]
            = [("A", 2%Z); ("B", 3%Z); ("C", 1%Z)]%string) as -> by (vm_compute; reflexivity).
    intros kv Hkv. repeat (apply elem_of_cons in Hkv as [->|Hkv]; [done|]).
    by apply elem_of_nil in Hkv.
  - vm_compute. reflexivity.
Defined.

End RadialMore.

Module ReachFacts.
Import Leveling Layout LevelingFacts LayoutFacts.
Local Open Scope R_scope.

(** *** Nodes the radial traversal does not reach *)

(** [k] can be reached from [c] along edges, source to target. *)
Definition reaches (edges : list edge) : relation string :=
  rtc (fun a b => ∃ e, e ∈ edges ∧ esource e = a ∧ etarget e = b).

Section Reach.
Variable edges : list edge.
Variable adj : gmap string (list string).
Variable center : string.
Hypothesis adj_edges :
  ∀ k l x, adj !! k = Some l → x ∈ l → ∃ e, e ∈ edges ∧ esource e = k ∧ etarget e = x.

Definition reached_ok (s : rbfs_state) : Prop :=
  (∀ k, k ∈ rvisited s → reaches edges center k)
  ∧ (∀ k l, (k, l) ∈ rqueue s → reaches edges center k).

Lemma rvisit_neighbor_reached (level : Z) (s : rbfs_state) (nb : string) :
  reaches edges center nb → reached_ok s → reached_ok (rvisit_neighbor level s nb).
Proof.
  intros Hnb [Hv Hq]. unfold rvisit_neighbor.
  destruct (decide (nb ∈ rvisited s)); [by destruct (Z.ltb _ _)|].
  split; cbn [rvisited rqueue].
  - intros k [->%elem_of_singleton|Hk]%elem_of_union; auto.
  - intros k l [Hk|Hk]%elem_of_app; [by eapply Hq|].
    by apply list_elem_of_singleton in Hk as [= -> ->].
Qed.

Lemma radial_step_reached (s s' : rbfs_state) :
  reached_ok s → radial_step adj s = Some s' → reached_ok s'.
Proof.
  intros [Hv Hq]. unfold radial_step.
  destruct (rqueue s) as [|[k level] rest] eqn:Q; [done|]. intros [= <-].
  assert (reaches edges center k) as Hk by (apply (Hq k level); left).
  assert (∀ x, x ∈ default [] (adj !! k) → reaches edges center x) as Hn.
  { intros x Hx. destruct (adj !! k) as [l|] eqn:E; [|by apply elem_of_nil in Hx].
    eapply rtc_r; [exact Hk|]. by eapply adj_edges. }
  assert (reached_ok (RbfsState (rlevels s) (rvisited s) rest)) as H0.
  { split; [done|]. cbn. intros k' l' Hin. apply (Hq k' l'). by right. }
  revert H0 Hn. generalize (RbfsState (rlevels s) (rvisited s) rest).
  generalize (default [] (adj !! k)).
  induction l as [|x l IH]; intros s0 H0 Hn; [done|]. cbn [foldl].
  apply IH.
  - apply rvisit_neighbor_reached; [|done]. apply Hn. by left.
  - intros y Hy. apply Hn. by right.
Qed.

Lemma radial_loop_reached (fuel : nat) (s fin : rbfs_state) :
  reached_ok s → radial_loop fuel adj s = Some fin → reached_ok fin.
Proof.
  revert s. induction fuel as [|fuel IH]; intros s Hok; [done|]. cbn.
  destruct (radial_step adj s) as [s'|] eqn:E.
  - apply IH. by eapply radial_step_reached.
  - by intros [= <-].
Qed.
End Reach.

Lemma adjacency_edges (nodes : list node) (edges : list edge)
    (adj : gmap string (list string)) :
  build_adjacency (map id nodes) (map to_arc edges) = Some adj →
  ∀ k l x, adj !! k = Some l → x ∈ l →
           ∃ e, e ∈ edges ∧ esource e = k ∧ etarget e = x.
Proof.
  intros Hb k l x Hk Hx.
  rewrite (build_adjacency_lookup _ _ _ k Hb) in Hk.
  destruct (decide (k ∈ map id nodes)) as [Hin|Hout]; [|done]. injection Hk as <-.
  unfold out_targets in Hx. apply list_elem_of_fmap in Hx as (a & -> & Ha).
  apply list_elem_of_filter in Ha as [Hs Ha].
  apply list_elem_of_In, in_map_iff in Ha as (e & <- & He).
  exists e. split; [by apply list_elem_of_In|]. by split.
Qed.

(** X23: radialLayout stacks every node that cannot be reached from the
    centre along the edges on the centre point (400, 400). *)
Theorem radialLayout_unreached_on_center (nodes : list node) (edges : list edge)
    (centerNodeId : option string) (sp : spacing) (center : string)
    (out : list node) :
  radial_center nodes edges centerNodeId = Some center →
  radialLayout nodes edges centerNodeId sp = Returned out →
  Forall (fun n' => ¬ reaches edges center (id n') →
                    position n' = Some (Point 400 400)) out.
Proof.
  intros Hc. unfold radialLayout. rewrite Hc. unfold radial_levels.
  destruct (build_adjacency _ _) as [adj|] eqn:Hb; [|done].
  destruct (radial_loop _ _ _) as [fin|] eqn:Hloop; [|done]. cbn [obind].
  intros [= <-].
  destruct (radial_run_returns _ _ _ adj center (Nat.le_refl _) Hb) as (fin' & Hfin' & [Hok _]).
  rewrite Hloop in Hfin'. injection Hfin' as <-.
  assert (reached_ok edges center fin) as [Hreach _].
  { eapply (radial_loop_reached edges adj center (adjacency_edges _ _ _ Hb)); [|exact Hloop].
    split; cbn.
    - intros k ->%elem_of_singleton. apply rtc_refl.
    - intros k l [= -> ->]%list_elem_of_singleton. apply rtc_refl. }
  apply Forall_forall. intros n' Hn' Hun.
  apply list_elem_of_In, in_map_iff in Hn' as (n & <- & _).
  unfold radial_place in *. cbn [id position with_position] in *.
  assert (level_or0 (rlevels fin) (id n) = 0%Z) as ->.
  { unfold level_or0. destruct Hok as [_ Hnone]. rewrite Hnone; [done|].
    intros Hin. by apply Hun, Hreach. }
  change (Z.eqb 0 0) with true. cbv iota. by rewrite !Rplus_0_r.
Qed.

Lemma radialLayout_unreached_on_center_AB :
  ∃ out,
    radialLayout [node_A; node_B] [RadialMore.edge_BA] (Some "A"%string) DEFAULT_SPACING
    = Returned out
    ∧ Forall (fun n' => ¬ reaches [RadialMore.edge_BA] "A" (id n') →
                        position n' = Some (Point 400 400)) out.
Proof.
  eexists. split; [vm_compute; reflexivity|].
  apply (radialLayout_unreached_on_center [node_A; node_B] [RadialMore.edge_BA]
           (Some "A"%string) DEFAULT_SPACING "A"); vm_compute; reflexivity.
Defined.

End ReachFacts.

Module RootRow.
Import Leveling Layout LevelingFacts LayoutFacts RowFacts.
Local Open Scope R_scope.

(** *** Where the roots are put *)

Lemma imap_pair_snd (rs : list string) : map snd (imap pair rs) = rs.
Proof.
  change (map snd (imap pair rs)) with (snd <$> imap pair rs).
  apply list_eq. intros i. rewrite list_lookup_fmap, list_lookup_imap.
  by destruct (rs !! i).
Qed.

Section Spread.
Variable f : nat → R.

Definition put_root (positions : pos_map) (ir : nat * string) : pos_map :=
  pos_set (snd ir) (Point (f (fst ir)) startY) positions.

Lemma put_roots_other (ics : list (nat * string)) (m : pos_map) (k : string) :
  k ∉ map snd ics → pos_get k (foldl put_root m ics) = pos_get k m.
Proof.
  revert m. induction ics as [|ic ics IH]; intros m Hk; [done|]. cbn [foldl].
  rewrite IH by (intros H; apply Hk; by right).
  unfold put_root. apply pos_get_set_ne. intros E. apply Hk. cbn [map].
  rewrite E. left.
Qed.

Lemma put_roots_own (ics : list (nat * string)) (m : pos_map) (i : nat) (k : string) :
  NoDup (map snd ics) → (i, k) ∈ ics →
  pos_get k (foldl put_root m ics) = Some (Point (f i) startY).
Proof.
  revert m. induction ics as [|ic ics IH]; intros m Hnd Hin;
    [by apply elem_of_nil in Hin|].
  cbn [map] in Hnd. apply NoDup_cons in Hnd as [Hfresh Hnd]. cbn [foldl].
  apply elem_of_cons in Hin as [<-|Hin]; [|by apply IH].
  rewrite put_roots_other by done. unfold put_root. cbn [fst snd].
  apply pos_get_set_eq.
Qed.
End Spread.

Lemma position_roots_lookup (nodeSpacing : R) (roots : list string) (i : nat)
    (k : string) :
  NoDup roots → roots !! i = Some k →
  pos_get k (position_roots nodeSpacing roots)
  = Some (Point (centerX - (INR (length roots) - 1) * nodeSpacing / 2
                 + INR i * nodeSpacing) startY).
Proof.
  intros Hnd Hi.
  set (F := fun j : nat => centerX - (INR (length roots) - 1) * nodeSpacing / 2
                           + INR j * nodeSpacing).
  assert (pos_get k (foldl (put_root F) [] (imap pair roots))
          = Some (Point (F i) startY)) as Hgen.
  { apply (put_roots_own F (imap pair roots) [] i k); [by rewrite imap_pair_snd|].
    apply list_elem_of_lookup. exists i. rewrite list_lookup_imap. by rewrite Hi. }
  unfold position_roots. destruct roots as [|r [|r' rs]]; [done| |exact Hgen].
  destruct i as [|i]; [|done]. injection Hi as ->. cbn [pos_set pos_get].
  rewrite String.eqb_refl. f_equal. f_equal. cbn. lra.
Qed.

Lemma NoDup_roots (ids : list string) (arcs : list arc) :
  NoDup ids → NoDup (omap (fun r => r) (find_roots ids arcs)).
Proof.
  intros Hnd. unfold find_roots.
  destruct (filter _ ids) as [|r rs] eqn:E.
  - destruct ids as [|x ids]; cbn; [constructor|apply NoDup_singleton].
  - rewrite <- E. clear E.
    assert (∀ l : list string, omap (fun r => r) (Some <$> l) = l) as ->.
    { induction l as [|x l IH]; [done|]. cbn. by f_equal. }
    by apply NoDup_filter.
Qed.

Lemma roots_are_ids (ids : list string) (arcs : list arc) (k : string) :
  k ∈ omap (fun r => r) (find_roots ids arcs) → k ∈ ids.
Proof.
  unfold find_roots. destruct (filter _ ids) as [|r rs] eqn:E.
  - destruct ids as [|x ids]; cbn; [by intros ?%elem_of_nil|].
    intros ->%list_elem_of_singleton. left.
  - rewrite <- E. intros (r0 & Hr & Hk)%list_elem_of_omap. subst r0.
    apply list_elem_of_fmap in Hr as (k' & [= <-] & Hin).
    by apply list_elem_of_filter in Hin as [_ ?].
Qed.

(** X28: when node ids are distinct, hierarchicalLayout returns its roots
    (the nodes without an incoming edge, or the first node when there is
    none) on the top row, [nodeSpacing] apart and centred on [x = 400]:
    root [i] of [r] roots is at [(400 - (r - 1) * nodeSpacing / 2
    + i * nodeSpacing, 100)]. *)
Theorem hierarchicalLayout_roots_spread (nodes : list node) (edges : list edge)
    (sp : spacing) (out : list node) (i : nat) (k : string) :
  NoDup (map id nodes) →
  hierarchicalLayout nodes edges sp = Returned out →
  let roots := omap (fun r => r) (find_roots (map id nodes) (map to_arc edges)) in
  let nodeSpacing := calculateMinSpacing nodes (nodeSpacing sp) in
  roots !! i = Some k →
  ∃ n', n' ∈ out ∧ id n' = k
        ∧ position n' = Some (Point (400 - (INR (length roots) - 1) * nodeSpacing / 2
                                     + INR i * nodeSpacing) 100).
Proof.
  intros Hnd Hout roots s Hi.
  apply hierarchicalLayout_run in Hout as (levels & positions & Hnonneg & Hp & ->).
  fold roots s in Hp.
  destruct (position_roots_rows s (levelSpacing sp) roots) as [Htop _].
  destruct (places_child_rows levels (levelSpacing sp) Hnonneg _ _ Hp) as [_ Hkeep].
  { intros k' p Hk. exists 0%Z. split; [done|]. by eapply Htop. }
  pose proof (position_roots_lookup s roots i k (NoDup_roots _ _ Hnd) Hi) as Hk.
  apply Hkeep in Hk.
  assert (k ∈ map id nodes) as Hin.
  { apply (roots_are_ids _ (map to_arc edges)). by eapply list_elem_of_lookup_2. }
  apply list_elem_of_In, in_map_iff in Hin as (n & Hid & Hn).
  exists (place levels (levelSpacing sp) positions n). split; [|split].
  - apply list_elem_of_In, in_map, Hn.
  - unfold place. by destruct (pos_get (id n) positions).
  - unfold place. rewrite Hid, Hk. done.
Qed.

Lemma hierarchicalLayout_roots_spread_AB :
  ∃ out n',
    hierarchicalLayout [node_A; node_B] [] DEFAULT_SPACING = Returned out
    ∧ n' ∈ out ∧ id n' = "B"%string
    ∧ position n'
      = Some (Point (400 - (INR 2 - 1)
                           * calculateMinSpacing [node_A; node_B]
                               (nodeSpacing DEFAULT_SPACING) / 2
                     + INR 1 * calculateMinSpacing [node_A; node_B]
                                 (nodeSpacing DEFAULT_SPACING)) 100).
Proof.
  destruct (hierarchicalLayout [node_A; node_B] [] DEFAULT_SPACING) as [out| |] eqn:E;
    [|vm_compute in E; discriminate..].
  destruct (hierarchicalLayout_roots_spread [node_A; node_B] [] DEFAULT_SPACING out 1 "B")
    as (n' & H1 & H2 & H3).
  - apply NoDup_ListNoDup. cbn. repeat constructor; cbn; intuition discriminate.
  - exact E.
  - vm_compute. reflexivity.
  - by exists out, n'.
Defined.

End RootRow.

Module ShiftFacts.
Import Leveling Layout LevelingFacts LayoutFacts.
Local Open Scope R_scope.

(** *** The overlap fix-up of positionChildren *)

(** X29: the loop that moves a child to the right tries the places
    [x], [x + nodeSpacing/2], [x + 2 nodeSpacing/2], ... in turn and stops at
    the first one that overlaps no placed node of the child's level, or
    after [attempts] moves (10 in hierarchicalLayout), where the child is
    put even if it still overlaps. *)
Theorem shift_right_first_free (nodes : list node) (levels : gmap string Z)
    (nodeSpacing : R) (attempts : nat) (positions : pos_map) (childX : R)
    (childId : string) (childLevel : Z) :
  let try := fun j : nat => childX + INR j * (nodeSpacing / 2) in
  ∃ j, (j ≤ attempts)%nat
       ∧ shift_right nodes levels nodeSpacing attempts positions childX childId childLevel
         = try j
       ∧ (∀ j', (j' < j)%nat →
                wouldOverlap nodes levels positions (try j') childId childLevel = true)
       ∧ ((j < attempts)%nat →
          wouldOverlap nodes levels positions (try j) childId childLevel = false).
Proof.
  intros try. subst try. revert childX.
  induction attempts as [|left IH]; intros childX.
  - exists 0%nat. cbn [shift_right INR]. split; [lia|]. split; [lra|]. split; intros; lia.
  - cbn [shift_right].
    destruct (wouldOverlap nodes levels positions childX childId childLevel) eqn:E.
    + destruct (IH (childX + nodeSpacing / 2)) as (j & Hj & Heq & Hbefore & Hfree).
      exists (S j). split; [lia|]. split; [|split].
      * rewrite Heq, S_INR. lra.
      * intros [|j'] Hlt.
        -- cbn [INR]. by replace (childX + 0 * (nodeSpacing / 2)) with childX by lra.
        -- specialize (Hbefore j' ltac:(lia)). rewrite S_INR.
           by replace (childX + (INR j' + 1) * (nodeSpacing / 2))
             with (childX + nodeSpacing / 2 + INR j' * (nodeSpacing / 2)) by lra.
      * intros Hlt. specialize (Hfree ltac:(lia)). rewrite S_INR.
        by replace (childX + (INR j + 1) * (nodeSpacing / 2))
          with (childX + nodeSpacing / 2 + INR j * (nodeSpacing / 2)) by lra.
    + exists 0%nat. cbn [INR]. split; [lia|]. split; [lra|]. split; [lia|].
      intros _. by replace (childX + 0 * (nodeSpacing / 2)) with childX by lra.
Qed.

End ShiftFacts.

(** ** Properties of the edge components *)

Module EdgeFacts.
Import FloatingEdge FloatingEdgeFacts EdgePaths.
Local Open Scope R_scope.

(** *** The two ends of a floating edge *)

(** X24: the anchors of the two ends are on opposite sides (left and
    right, or top and bottom) whenever the two centres differ; when the
    centres coincide both anchors are on the bottom side. *)
Theorem getEdgeParams_opposite_sides (sourceNode targetNode : flow_node) :
  let s := getParams sourceNode targetNode in
  let t := getParams targetNode sourceNode in
  (getNodeCenter sourceNode ≠ getNodeCenter targetNode → pos t = getPosition (pos s))
  ∧ (getNodeCenter sourceNode = getNodeCenter targetNode →
     pos s = Bottom ∧ pos t = Bottom)
  ∧ sourcePos (getEdgeParams sourceNode targetNode) = getPosition (pos s)
  ∧ targetPos (getEdgeParams sourceNode targetNode) = getPosition (pos t).
Proof.
  intros s t.
  assert ((getNodeCenter sourceNode ≠ getNodeCenter targetNode →
           pos t = getPosition (pos s))
          ∧ (getNodeCenter sourceNode = getNodeCenter targetNode →
             pos s = Bottom ∧ pos t = Bottom)) as [H1 H2];
    [|split; [exact H1|split; [exact H2|split; reflexivity]]].
  subst s t. unfold getParams.
  set (cA := getNodeCenter sourceNode). set (cB := getNodeCenter targetNode).
  rewrite (Rabs_minus_sym (px cB) (px cA)), (Rabs_minus_sym (py cB) (py cA)).
  split.
  - intros Hne.
    destruct (gt (Rabs (px cA - px cB)) (Rabs (py cA - py cB))) eqn:Hh.
    + apply gt_true in Hh.
      assert (px cA ≠ px cB) as Hx.
      { intros E. rewrite E, Rminus_diag, Rabs_R0 in Hh.
        pose proof (Rabs_pos (py cA - py cB)). lra. }
      destruct (gt (px cA) (px cB)) eqn:G1; destruct (gt (px cB) (px cA)) eqn:G2;
        cbn; try done.
      * apply gt_true in G1, G2. lra.
      * apply gt_false in G1, G2. lra.
    + apply gt_false in Hh.
      assert (py cA ≠ py cB) as Hy.
      { intros E. rewrite E, Rminus_diag, Rabs_R0 in Hh.
        destruct (Req_dec (px cA) (px cB)) as [Ex|Nx].
        - apply Hne. destruct cA, cB; cbn in *. by f_equal.
        - assert (0 < Rabs (px cA - px cB)); [apply Rabs_pos_lt|]; lra. }
      destruct (gt (py cA) (py cB)) eqn:G1; destruct (gt (py cB) (py cA)) eqn:G2;
        cbn; try done.
      * apply gt_true in G1, G2. lra.
      * apply gt_false in G1, G2. lra.
  - intros E. rewrite E. rewrite !Rminus_diag, Rabs_R0.
    replace (gt 0 0) with false by (symmetry; apply gt_false; lra).
    replace (gt (py cB) (py cB)) with false by (symmetry; apply gt_false; lra).
    done.
Qed.


(** *** The path of a floating edge *)

Lemma left_or_right_getPosition (p : side) :
  left_or_right (getPosition p) = left_or_right p.
Proof. by destruct p. Qed.

(** X25: SimpleFloatingEdge draws nothing exactly when an end is not in
    the node list.  Otherwise its curve runs from the source anchor to the
    target anchor of getParams, its two control points are mirror images
    about the midpoint of the anchors, and it leaves an anchor on a left
    or right side horizontally and an anchor on a top or bottom side
    vertically. *)
Theorem SimpleFloatingEdge_path (nodes : list rf_node) (source target : string) :
  (SimpleFloatingEdge nodes source target = None
   ↔ find_node nodes source = None ∨ find_node nodes target = None)
  ∧ ∀ sourceNode targetNode,
      find_node nodes source = Some sourceNode →
      find_node nodes target = Some targetNode →
      let s := getParams (rf_geom sourceNode) (rf_geom targetNode) in
      let t := getParams (rf_geom targetNode) (rf_geom sourceNode) in
      ∃ b, SimpleFloatingEdge nodes source target = Some b
           ∧ b_from b = Point (x s) (y s) ∧ b_to b = Point (x t) (y t)
           ∧ px (b_c1 b) + px (b_c2 b) = x s + x t
           ∧ py (b_c1 b) + py (b_c2 b) = y s + y t
           ∧ (if left_or_right (pos s)
              then py (b_c1 b) = y s ∧ py (b_c2 b) = y t
              else px (b_c1 b) = x s ∧ px (b_c2 b) = x t).
Proof.
  split.
  - unfold SimpleFloatingEdge.
    destruct (find_node nodes source), (find_node nodes target); split; intros H;
      try done; try (by left); try (by right); by destruct H.
  - intros sourceNode targetNode Hs Ht s t. unfold SimpleFloatingEdge.
    rewrite Hs, Ht. eexists. split; [done|].
    unfold getEdgeParams, getBezierPath. cbn [sx sy tx ty sourcePos].
    fold s t. rewrite left_or_right_getPosition.
    destruct (left_or_right (pos s)); cbn [b_from b_to b_c1 b_c2 px py];
      repeat split; lra.
Qed.

(** *** OrthogonalEdge against the floating anchors *)

(** X26: an orthogonal edge always starts and ends at the horizontal
    middle of its nodes.  With the default positions, for nodes without a
    measured size whose centres are further apart vertically than
    horizontally, the source above the target, it joins exactly the two
    anchors getEdgeParams computes for a floating edge. *)
Theorem OrthogonalEdge_anchors (nodes : list rf_node) (source target : string)
    (sourceNode targetNode : rf_node) :
  find_node nodes source = Some sourceNode →
  find_node nodes target = Some targetNode →
  (∀ sp tp, ∃ a, OrthogonalEdge nodes source target sp tp = Some a
                 ∧ o_sourceX a = px (fposition (rf_geom sourceNode))
                                 + num_or (fwidth (rf_geom sourceNode)) 150 / 2
                 ∧ o_targetX a = px (fposition (rf_geom targetNode))
                                 + num_or (fwidth (rf_geom targetNode)) 150 / 2)
  ∧ (measured (rf_geom sourceNode) = None → measured (rf_geom targetNode) = None →
     let cA := getNodeCenter (rf_geom sourceNode) in
     let cB := getNodeCenter (rf_geom targetNode) in
     Rabs (px cA - px cB) <= Rabs (py cA - py cB) → py cA < py cB →
     ∃ a, OrthogonalEdge nodes source target None None = Some a
          ∧ let ep := getEdgeParams (rf_geom sourceNode) (rf_geom targetNode) in
            o_sourceX a = sx ep ∧ o_sourceY a = sy ep
            ∧ o_targetX a = tx ep ∧ o_targetY a = ty ep).
Proof.
  intros Hs Ht. split.
  - intros sp tp. unfold OrthogonalEdge. rewrite Hs, Ht. eexists. by split.
  - intros Ms Mt cA cB Hv Hy. unfold OrthogonalEdge. rewrite Hs, Ht.
    eexists. split; [done|].
    cbn [default from_option Datatypes.id o_sourceX o_sourceY o_targetX o_targetY].
    unfold getEdgeParams, getParams. fold cA cB.
    rewrite (Rabs_minus_sym (px cB) (px cA)), (Rabs_minus_sym (py cB) (py cA)).
    replace (gt (Rabs (px cA - px cB)) (Rabs (py cA - py cB))) with false
      by (symmetry; apply gt_false; lra).
    replace (gt (py cA) (py cB)) with false by (symmetry; apply gt_false; lra).
    replace (gt (py cB) (py cA)) with true by (symmetry; apply gt_true; lra).
    cbn [sx sy tx ty x y]. subst cA cB. unfold getNodeCenter, node_width, node_height.
    rewrite Ms, Mt. cbn [px py num_or]. done.
Qed.


Definition scenario_C_nodes : list rf_node :=
  [RfNode "A" (rect_at 0 0); RfNode "B" (rect_at 0 200)].

Lemma OrthogonalEdge_anchors_scenario_C :
  ∃ a, OrthogonalEdge scenario_C_nodes "A" "B" None None = Some a
       ∧ let ep := getEdgeParams (rect_at 0 0) (rect_at 0 200) in
         o_sourceX a = sx ep ∧ o_sourceY a = sy ep
         ∧ o_targetX a = tx ep ∧ o_targetY a = ty ep.
Proof.
  destruct (OrthogonalEdge_anchors scenario_C_nodes "A" "B"
              (RfNode "A" (rect_at 0 0)) (RfNode "B" (rect_at 0 200)))
    as [_ H]; [reflexivity|reflexivity|].
  apply H; [reflexivity|reflexivity| |]; cbn [rf_geom]; rewrite !rect_at_center;
    cbn [px py].
  - replace (0 + 75 - (0 + 75)) with 0 by lra. rewrite Rabs_R0. apply Rabs_pos.
  - lra.
Defined.

End EdgeFacts.

(** ** The parser feeding the layout strategies *)

Module PipelineFacts.
Import Parser ParserFacts Leveling Layout LayoutFacts.

(** *** From the parser to the layout strategies *)

(** X27: a parsed graph in which no edge carries an attribute named
    [source] can be handed to the strategies that throw on a dangling
    edge: radialLayout returns a layout of its nodes, and so does
    hierarchicalLayout when the graph has a node. *)
Theorem parsed_graph_layouts (text : string) (g : graph) :
  parseDotToReactFlow text = Returned g →
  Forall (fun e => get_prop "source" (eprops e) = None) (edges g) →
  (∀ centerNodeId sp,
     ∃ out, radialLayout (nodes g) (edges g) centerNodeId sp = Returned out
            ∧ map id out = map id (nodes g))
  ∧ (nodes g ≠ [] →
     ∀ sp, ∃ out, hierarchicalLayout (nodes g) (edges g) sp = Returned out
                  ∧ map id out = map id (nodes g)).
Proof.
  intros Hp Hno.
  assert (¬ ThrowFacts.dangling_source (nodes g) (edges g)) as Hok.
  { intros (e & He & Hbad). apply Hbad.
    rewrite Forall_forall in Hno.
    by destruct (endpoints_exist_without_override text g e Hp He) as [H1 _]; auto. }
  split.
  - intros c sp. by apply ThrowFacts.radialLayout_returns_ids.
  - intros Hne sp. apply ThrowFacts.hierarchicalLayout_returns_ids. tauto.
Qed.

Lemma parsed_graph_layouts_twice_defined :
  ∃ g, parseDotToReactFlow ParserMore.twice_defined = Returned g
       ∧ (∀ centerNodeId sp,
            ∃ out, radialLayout (nodes g) (edges g) centerNodeId sp = Returned out
                   ∧ map id out = map id (nodes g))
       ∧ (nodes g ≠ [] →
          ∀ sp, ∃ out, hierarchicalLayout (nodes g) (edges g) sp = Returned out
                       ∧ map id out = map id (nodes g)).
Proof.
  eexists. split; [vm_compute; reflexivity|].
  apply (parsed_graph_layouts ParserMore.twice_defined); [vm_compute; reflexivity|].
  repeat constructor.
Defined.

End PipelineFacts.
